(** * Log analyzer: the analysis pipeline, embedded and verified

    The development follows the JavaScript sources:
    - [backend/aiService.js]: the pattern-based classifier [analyzeWithAI];
    - [backend/routes/analyzeRoute.js]: the [/analyze] route, and the
      Gemini-backed [analyzeWithAI] with its redactor, fingerprint and
      file cache;
    - [redactSensitive]: the second redactor;
    - the frontend: [analyzeLogFile] and the [handleSubmit] of the upload
      form.

    JavaScript strings are sequences of UTF-16 code units; they are modelled
    as lists of [N]. Regular expressions are kept as syntax trees and run by
    a backtracking matcher that follows the ECMAScript pattern semantics
    (ordered alternation, greedy and lazy quantifiers, [\b]). *)

From Stdlib Require Import ZArith NArith List String Ascii Lia Bool.
From stdpp Require Import base option list gmap.

#[local] Set Warnings "-register-all".

Local Open Scope N_scope.
Local Open Scope list_scope.

(** ** Code units and strings *)

Abbreviation char := N (only parsing).
Abbreviation jsstring := (list N) (only parsing).

(** A string literal of the source, as code units. *)
Definition js (s : string) : list N :=
  List.map N_of_ascii (list_ascii_of_string s).

(** ** Character classes *)

Module CharClass.

(** A class is a union of inclusive ranges, possibly complemented. *)
Record cls := Cls { negated : bool; ranges : list (N * N) }.

Definition in_ranges (rs : list (N * N)) (x : N) : bool :=
  existsb (fun r => (fst r <=? x) && (x <=? snd r)) rs.

Definition mem (c : cls) (x : N) : bool :=
  xorb (negated c) (in_ranges (ranges c) x).

(** ASCII case swap; the canonicalisation of a pattern without the [u]
    flag never identifies a non-ASCII code unit with an ASCII one. *)
Definition swapcase (x : N) : N :=
  if (65 <=? x) && (x <=? 90) then x + 32
  else if (97 <=? x) && (x <=? 122) then x - 32
  else x.

(** Membership under the [i] flag. *)
Definition matches (ignoreCase : bool) (c : cls) (x : N) : bool :=
  mem c x || (ignoreCase && mem c (swapcase x)).

Definition one (x : N) : cls := Cls false [(x, x)].
Definition of_string (s : string) : cls :=
  Cls false (List.map (fun x => (x, x)) (js s)).
Definition union (a b : list (N * N)) : list (N * N) := a ++ b.

Definition digit_r : list (N * N) := [(48, 57)].
Definition lower_r : list (N * N) := [(97, 122)].
Definition upper_r : list (N * N) := [(65, 90)].
Definition alpha_r : list (N * N) := lower_r ++ upper_r.
Definition alnum_r : list (N * N) := alpha_r ++ digit_r.
(** [\w] *)
Definition word_r : list (N * N) := alnum_r ++ [(95, 95)].
(** [\s]: WhiteSpace and LineTerminator code points *)
Definition space_r : list (N * N) :=
  [(9, 13); (32, 32); (160, 160); (5760, 5760); (8192, 8202);
   (8232, 8233); (8239, 8239); (8287, 8287); (12288, 12288);
   (65279, 65279)].
(** LineTerminator, excluded by [.] *)
Definition newline_r : list (N * N) :=
  [(10, 10); (13, 13); (8232, 8233)].
Definition chars_r (s : string) : list (N * N) :=
  List.map (fun x => (x, x)) (js s).

Definition digit : cls := Cls false digit_r.
Definition word : cls := Cls false word_r.
Definition space : cls := Cls false space_r.
Definition nonspace : cls := Cls true space_r.
Definition dot : cls := Cls true newline_r.
(** [[\s\S]]: every code unit *)
Definition any : cls := Cls true [].

Definition is_word (x : N) : bool := mem word x.
Definition is_space (x : N) : bool := mem space x.

End CharClass.

(** ** Regular expressions *)

Module RegExp.
Import CharClass.

Inductive regex :=
| Eps
| Chr (c : cls)
| Seq (a b : regex)
| Alt (a b : regex)
| Rep (greedy : bool) (lo : nat) (hi : option nat) (a : regex)
| WordB.

(** A regular expression object: the pattern and its flags. *)
Record t := Make { pattern : regex; ignoreCase : bool; global : bool }.

(** Pattern syntax helpers. *)
Fixpoint seqs (l : list regex) : regex :=
  match l with
  | [] => Eps
  | [r] => r
  | r :: l' => Seq r (seqs l')
  end.
Fixpoint alts (l : list regex) : regex :=
  match l with
  | [] => Eps
  | [r] => r
  | r :: l' => Alt r (alts l')
  end.
Definition lit (s : string) : regex :=
  seqs (List.map (fun x => Chr (one x)) (js s)).
Definition star (r : regex) : regex := Rep true 0 None r.
Definition plus (r : regex) : regex := Rep true 1 None r.
Definition opt (r : regex) : regex := Rep true 0 (Some 1%nat) r.
Definition times (lo hi : nat) (r : regex) : regex :=
  Rep true lo (Some hi) r.
Definition atleast (lo : nat) (r : regex) : regex := Rep true lo None r.

(** The word-boundary test of [\b] between the previous code unit and the
    next one. *)
Definition word_before (p : option N) : bool :=
  match p with Some x => is_word x | None => false end.
Definition word_after (s : list N) : bool :=
  match s with x :: _ => is_word x | [] => false end.
Definition at_boundary (p : option N) (s : list N) : bool :=
  xorb (word_before p) (word_after s).

Section Matcher.
Context {X : Type}.
Variable ic : bool.

(** A matcher takes the previous code unit, the remaining input and a
    continuation; [None] is failure and makes the caller backtrack. *)
Definition cont := option N -> list N -> option X.
Definition matcher := option N -> list N -> cont -> option X.

(** The repetition of a matcher: at least [lo] and at most [hi]
    iterations. Once [lo] iterations are done an iteration that consumes
    nothing is rejected, so [fuel] above [lo] plus the length of the
    input is never exhausted. *)
Fixpoint rep_loop (body : matcher) (g : bool) (k : cont) (fuel : nat)
           (lo : nat) (hi : option nat) (p : option N) (s : list N)
           {struct fuel} : option X :=
  match fuel with
  | O => None
  | S fuel' =>
      match hi with
      | Some O => k p s
      | _ =>
          let step :=
            body p s (fun p' s' =>
              if Nat.eqb lo 0 && Nat.eqb (length s') (length s)
              then None
              else rep_loop body g k fuel' (Nat.pred lo)
                     (option_map Nat.pred hi) p' s') in
          if negb (Nat.eqb lo 0) then step
          else if g then
                 match step with
                 | Some x => Some x
                 | None => k p s
                 end
               else
                 match k p s with
                 | Some x => Some x
                 | None => step
                 end
      end
  end.

(** [m r p s k]: match [r] at the position whose previous code unit is
    [p] and whose remaining input is [s], then continue with [k]. *)
Fixpoint m (r : regex) (p : option N) (s : list N) (k : cont)
           {struct r} : option X :=
  match r with
  | Eps => k p s
  | Chr c =>
      match s with
      | x :: s' => if matches ic c x then k (Some x) s' else None
      | [] => None
      end
  | Seq a b => m a p s (fun p' s' => m b p' s' k)
  | Alt a b =>
      match m a p s k with
      | Some x => Some x
      | None => m b p s k
      end
  | WordB => if at_boundary p s then k p s else None
  | Rep g lo hi a =>
      rep_loop (m a) g k (lo + length s + 1)%nat lo hi p s
  end.
End Matcher.

(** One match attempt at a position: the state after the match. *)
Definition match_at (ic : bool) (r : regex) (p : option N) (s : list N)
  : option (option N * list N) :=
  m ic r p s (fun p' s' => Some (p', s')).

(** Leftmost match at or after a position: the number of code units
    skipped and the state after the match. *)
Fixpoint search (ic : bool) (r : regex) (p : option N) (s : list N)
  : option (nat * (option N * list N)) :=
  match match_at ic r p s with
  | Some y => Some (O, y)
  | None =>
      match s with
      | [] => None
      | x :: s' =>
          match search ic r (Some x) s' with
          | Some (n, y) => Some (S n, y)
          | None => None
          end
      end
  end.

(** [RegExp.prototype.test] on a regular expression without the [g]
    flag. *)
Definition test (re : t) (s : list N) : bool :=
  match search (ignoreCase re) (pattern re) None s with
  | Some _ => true
  | None => false
  end.

(** [String.prototype.match] without the [g] flag: the matched text. *)
Definition match_ (re : t) (s : list N) : option (list N) :=
  match search (ignoreCase re) (pattern re) None s with
  | Some (n, (_, s')) =>
      Some (firstn (length s - n - length s') (skipn n s))
  | None => None
  end.

(** [String.prototype.replace] with a [g] regular expression and a
    replacement text without [$] patterns: every match found scanning left
    to right is replaced; after an empty match the scan advances by one
    code unit. *)
Fixpoint replace_loop (fuel : nat) (ic : bool) (r : regex) (by_ : list N)
           (p : option N) (s : list N) : list N :=
  match fuel with
  | O => s
  | S fuel' =>
      let copy :=
        match s with
        | [] => []
        | x :: s' => x :: replace_loop fuel' ic r by_ (Some x) s'
        end in
      match match_at ic r p s with
      | Some (p', s') =>
          if Nat.ltb (length s') (length s)
          then by_ ++ replace_loop fuel' ic r by_ p' s'
          else by_ ++ copy
      | None => copy
      end
  end.

Definition replace (re : t) (by_ : list N) (s : list N) : list N :=
  replace_loop (S (length s)) (ignoreCase re) (pattern re) by_ None s.

End RegExp.

(** ** Numbers as decimal text *)

Module Decimal.

Definition is_digit (x : N) : bool := (48 <=? x) && (x <=? 57).

Fixpoint to_digits (fuel : nat) (n : N) (acc : list N) : list N :=
  match fuel with
  | O => acc
  | S fuel' =>
      let acc' := (48 + n mod 10) :: acc in
      if n <? 10 then acc' else to_digits fuel' (n / 10) acc'
  end.

(** The decimal digits of a natural number, without leading zeros. *)
Definition of_N (n : N) : list N := to_digits (S (N.size_nat n)) n [].

(** The number a run of decimal digits denotes. *)
Definition to_N (ds : list N) : N :=
  fold_left (fun a x => 10 * a + (x - 48)) ds 0.

(** An integer as [Number.prototype.toString] prints it. *)
Definition of_Z (z : Z) : list N :=
  match z with
  | Zneg p => 45 :: of_N (Npos p)
  | _ => of_N (Z.to_N z)
  end.

(** Zero-padded to a width, as in a date. *)
Definition pad (width : nat) (n : N) : list N :=
  let ds := of_N n in
  List.repeat 48 (width - length ds) ++ ds.

End Decimal.

(** ** UTF-8 *)

Module Utf8.

Definition is_high (x : N) : bool := (55296 <=? x) && (x <=? 56319).
Definition is_low (x : N) : bool := (56320 <=? x) && (x <=? 57343).

(** U+FFFD, which replaces a lone surrogate *)
Definition replacement : list N := [239; 191; 189].

(** The bytes Node writes for a string in the [utf8] encoding. *)
Fixpoint encode (s : list N) : list N :=
  match s with
  | [] => []
  | x :: s' =>
      if x <? 128 then x :: encode s'
      else if x <? 2048 then
        (192 + x / 64) :: (128 + x mod 64) :: encode s'
      else if is_high x then
        match s' with
        | y :: s'' =>
            if is_low y then
              let cp := 65536 + (x - 55296) * 1024 + (y - 56320) in
              (240 + cp / 262144) :: (128 + (cp / 4096) mod 64)
                :: (128 + (cp / 64) mod 64) :: (128 + cp mod 64)
                :: encode s''
            else replacement ++ encode s'
        | [] => replacement
        end
      else if is_low x then replacement ++ encode s'
      else (224 + x / 4096) :: (128 + (x / 64) mod 64) :: (128 + x mod 64)
             :: encode s'
  end.

(** [Buffer.byteLength(s, 'utf8')] *)
Definition byteLength (s : list N) : N := N.of_nat (length (encode s)).

End Utf8.

(** ** SHA-256 *)

Module Sha256.

Definition w32 (x : N) : N := x mod 4294967296.
Definition add (x y : N) : N := w32 (x + y).
Definition rotr (n x : N) : N :=
  N.lor (N.shiftr x n) (w32 (N.shiftl x (32 - n))).
Definition lnot (x : N) : N := N.lxor x 4294967295.

Definition Ch (x y z : N) : N := N.lxor (N.land x y) (N.land (lnot x) z).
Definition Maj (x y z : N) : N :=
  N.lxor (N.lxor (N.land x y) (N.land x z)) (N.land y z).
Definition Sigma0 (x : N) : N :=
  N.lxor (N.lxor (rotr 2 x) (rotr 13 x)) (rotr 22 x).
Definition Sigma1 (x : N) : N :=
  N.lxor (N.lxor (rotr 6 x) (rotr 11 x)) (rotr 25 x).
Definition sigma0 (x : N) : N :=
  N.lxor (N.lxor (rotr 7 x) (rotr 18 x)) (N.shiftr x 3).
Definition sigma1 (x : N) : N :=
  N.lxor (N.lxor (rotr 17 x) (rotr 19 x)) (N.shiftr x 10).

Definition K : list N :=
  [
   1116352408; 1899447441; 3049323471; 3921009573; 961987163; 1508970993;
   2453635748; 2870763221; 3624381080; 310598401; 607225278; 1426881987;
   1925078388; 2162078206; 2614888103; 3248222580; 3835390401; 4022224774;
   264347078; 604807628; 770255983; 1249150122; 1555081692; 1996064986;
   2554220882; 2821834349; 2952996808; 3210313671; 3336571891; 3584528711;
   113926993; 338241895; 666307205; 773529912; 1294757372; 1396182291;
   1695183700; 1986661051; 2177026350; 2456956037; 2730485921; 2820302411;
   3259730800; 3345764771; 3516065817; 3600352804; 4094571909; 275423344;
   430227734; 506948616; 659060556; 883997877; 958139571; 1322822218;
   1537002063; 1747873779; 1955562222; 2024104815; 2227730452; 2361852424;
   2428436474; 2756734187; 3204031479; 3329325298 ].

Definition H0 : list N :=
  [
   1779033703; 3144134277; 1013904242; 2773480762;
   1359893119; 2600822924; 528734635; 1541459225 ].

(** Big-endian bytes of a number. *)
Fixpoint be_bytes (count : nat) (x : N) : list N :=
  match count with
  | O => []
  | S c => be_bytes c (x / 256) ++ [x mod 256]
  end.

Definition pad (msg : list N) : list N :=
  let len := N.of_nat (length msg) in
  let zeros := N.to_nat ((64 - (len + 9) mod 64) mod 64) in
  msg ++ [128] ++ List.repeat 0 zeros ++ be_bytes 8 (8 * len).

(** Big-endian words of a byte sequence. *)
Fixpoint words (fuel : nat) (bytes : list N) : list N :=
  match fuel, bytes with
  | S f, a :: b :: c :: d :: r =>
      (((a * 256 + b) * 256 + c) * 256 + d) :: words f r
  | _, _ => []
  end.

(** The message schedule: sixteen block words extended to sixty-four. *)
Fixpoint schedule (count : nat) (w : list N) : list N :=
  match count with
  | O => w
  | S c =>
      let t := length w in
      let at_ i := List.nth (t - i) w 0 in
      schedule c
        (w ++ [add (add (sigma1 (at_ 2%nat)) (at_ 7%nat))
                   (add (sigma0 (at_ 15%nat)) (at_ 16%nat))])
  end.

Definition round (st : list N) (kw : N * N) : list N :=
  match st with
  | [a; b; c; d; e; f; g; h] =>
      let t1 :=
        add (add (add h (Sigma1 e)) (add (Ch e f g) (fst kw))) (snd kw) in
      let t2 := add (Sigma0 a) (Maj a b c) in
      [add t1 t2; a; b; c; add d t1; e; f; g]
  | _ => st
  end.

Fixpoint add_all (x y : list N) : list N :=
  match x, y with
  | a :: x', b :: y' => add a b :: add_all x' y'
  | _, _ => []
  end.

Definition compress (st : list N) (block : list N) : list N :=
  let w := schedule 48 (words 16 block) in
  add_all st (fold_left round (List.combine K w) st).

Fixpoint blocks (fuel : nat) (st : list N) (bytes : list N) : list N :=
  match fuel with
  | O => st
  | S f =>
      match bytes with
      | [] => st
      | _ => blocks f (compress st (firstn 64 bytes)) (skipn 64 bytes)
      end
  end.

(** The digest of a byte sequence, as thirty-two bytes. *)
Definition digest (msg : list N) : list N :=
  let p := pad msg in
  List.concat (List.map (be_bytes 4) (blocks (length p) H0 p)).

Definition hex_digit (x : N) : N := if x <? 10 then 48 + x else 87 + x.

(** Lower-case hexadecimal text of a byte sequence. *)
Definition hex (bytes : list N) : list N :=
  List.concat (List.map (fun b => [hex_digit (b / 16); hex_digit (b mod 16)])
                 bytes).

End Sha256.

(** ** JSON values, [JSON.parse] and [JSON.stringify] *)

Module Json.

(** The values the Gemini service builds, stores and returns: JSON values,
    and [undefined] as the value of a property. An integer literal is kept
    exactly; a number literal with a fraction or an exponent is kept as
    its text, no floating-point rounding is modelled. An object keeps its
    properties in insertion order (the order of keys that look like array
    indices, which the engine lists first, is not modelled). *)
Inductive json :=
| JUndefined
| JNull
| JBool (b : bool)
| JInt (z : Z)
| JReal (lexeme : list N)
| JStr (s : list N)
| JArr (l : list json)
| JObj (m : list (list N * json)).

Definition props := list (list N * json).

(** [o[k]] on own properties *)
Fixpoint get (k : list N) (m : props) : option json :=
  match m with
  | [] => None
  | (k', v) :: m' => if bool_decide (k' = k) then Some v else get k m'
  end.

(** [k in o] *)
Definition has (k : list N) (m : props) : bool :=
  match get k m with Some _ => true | None => false end.

(** [o[k] = v]: an existing property keeps its place. *)
Fixpoint set (k : list N) (v : json) (m : props) : props :=
  match m with
  | [] => [(k, v)]
  | (k', v') :: m' =>
      if bool_decide (k' = k) then (k, v) :: m' else (k', v') :: set k v m'
  end.

(** [{ ...m, k1: v1, ... }] *)
Definition extend (m : props) (kvs : props) : props :=
  fold_left (fun acc kv => set (fst kv) (snd kv) acc) kvs m.

(** An object literal. *)
Definition obj (kvs : props) : json := JObj (extend [] kvs).

(** A number literal kept as text denotes zero when the digits before its
    exponent are all [0]. *)
Fixpoint zero_literal (lexeme : list N) : bool :=
  match lexeme with
  | [] => true
  | x :: l =>
      if (x =? 101) || (x =? 69) then true
      else (negb (Decimal.is_digit x) || (x =? 48)) && zero_literal l
  end.

(** Truthiness. *)
Definition truthy (v : json) : bool :=
  match v with
  | JUndefined | JNull => false
  | JBool b => b
  | JInt z => negb (Z.eqb z 0)
  | JReal lexeme => negb (zero_literal lexeme)
  | JStr s => match s with [] => false | _ => true end
  | JArr _ | JObj _ => true
  end.

(** The own enumerable properties [{ ...v }] copies. *)
Definition spread (v : json) : props :=
  match v with
  | JObj m => m
  | JArr l =>
      snd (fold_left (fun '(i, acc) x =>
                        (N.succ i, acc ++ [(Decimal.of_N i, x)]))
                     l (0, []))
  | JStr s =>
      snd (fold_left (fun '(i, acc) x =>
                        (N.succ i, acc ++ [(Decimal.of_N i, JStr [x])]))
                     s (0, []))
  | _ => []
  end.

(** [v.k] *)
Definition prop (k : list N) (v : json) : json :=
  match v with
  | JObj m => match get k m with Some x => x | None => JUndefined end
  | _ => JUndefined
  end.

(** [v?.k] *)
Definition opt_prop (k : list N) (v : json) : json :=
  match v with
  | JUndefined | JNull => JUndefined
  | _ => prop k v
  end.

(** [a || b] *)
Definition or_else (a b : json) : json := if truthy a then a else b.

(** [v === false] *)
Definition is_false (v : json) : bool :=
  match v with JBool false => true | _ => false end.

(** *** Parsing *)

Definition is_ws (x : N) : bool :=
  (x =? 32) || (x =? 9) || (x =? 10) || (x =? 13).

Fixpoint skip_ws (s : list N) : list N :=
  match s with
  | x :: s' => if is_ws x then skip_ws s' else s
  | [] => []
  end.

Definition hex_value (x : N) : option N :=
  if (48 <=? x) && (x <=? 57) then Some (x - 48)
  else if (97 <=? x) && (x <=? 102) then Some (x - 87)
  else if (65 <=? x) && (x <=? 70) then Some (x - 55)
  else None.

Definition hex4 (a b c d : N) : option N :=
  match hex_value a, hex_value b, hex_value c, hex_value d with
  | Some a, Some b, Some c, Some d => Some (((a * 16 + b) * 16 + c) * 16 + d)
  | _, _, _, _ => None
  end.

(** The single-character escapes. *)
Definition unescape (e : N) : option N :=
  if e =? 34 then Some 34 else if e =? 92 then Some 92
  else if e =? 47 then Some 47 else if e =? 98 then Some 8
  else if e =? 102 then Some 12 else if e =? 110 then Some 10
  else if e =? 114 then Some 13 else if e =? 116 then Some 9
  else None.

(** The characters of a string literal, after its opening quote. *)
Fixpoint parse_chars (s : list N) (acc : list N)
  : option (list N * list N) :=
  match s with
  | [] => None
  | x :: s1 =>
      if x =? 34 then Some (List.rev acc, s1)
      else if x =? 92 then
        match s1 with
        | [] => None
        | e :: s2 =>
            if e =? 117 then
              match s2 with
              | a :: b :: c :: d :: s3 =>
                  match hex4 a b c d with
                  | Some u => parse_chars s3 (u :: acc)
                  | None => None
                  end
              | _ => None
              end
            else
              match unescape e with
              | Some u => parse_chars s2 (u :: acc)
              | None => None
              end
        end
      else if x <? 32 then None
      else parse_chars s1 (x :: acc)
  end.

(** The longest run of digits. *)
Fixpoint digits (s : list N) : list N * list N :=
  match s with
  | x :: s' =>
      if Decimal.is_digit x
      then let (ds, r) := digits s' in (x :: ds, r)
      else ([], s)
  | [] => ([], [])
  end.

(** A number literal: an optional minus sign, then [0] or a run of digits
    not starting with [0], then an optional fraction (a dot and digits)
    and an optional exponent ([e] or [E], an optional sign, digits). Each
    part is read off the input with what follows it. *)
Definition number_sign (s : list N) : list N * list N :=
  match s with
  | x :: s' => if x =? 45 then ([x], s') else ([], s)
  | [] => ([], s)
  end.

Definition number_int (s : list N) : list N * list N :=
  match s with
  | x :: s' => if x =? 48 then ([x], s') else digits s
  | [] => ([], s)
  end.

Definition number_frac (s : list N) : option (list N * list N) :=
  match s with
  | x :: s' =>
      if x =? 46 then
        let (fs, r) := digits s' in
        match fs with [] => None | _ => Some (x :: fs, r) end
      else Some ([], s)
  | [] => Some ([], s)
  end.

Definition number_exp (s : list N) : option (list N * list N) :=
  match s with
  | x :: s' =>
      if (x =? 101) || (x =? 69) then
        let (sg, s'') :=
          match s' with
          | y :: t => if (y =? 43) || (y =? 45) then ([y], t) else ([], s')
          | [] => ([], s')
          end in
        let (es, r) := digits s'' in
        match es with [] => None | _ => Some (x :: sg ++ es, r) end
      else Some ([], s)
  | [] => Some ([], s)
  end.

Definition parse_number (s : list N) : option (json * list N) :=
  let (sign, s1) := number_sign s in
  let (int, s2) := number_int s1 in
  match int with
  | [] => None
  | _ =>
      match number_frac s2 with
      | None => None
      | Some (fs, s3) =>
          match number_exp s3 with
          | None => None
          | Some (es, s4) =>
              match fs, es with
              | [], [] =>
                  let n := Z.of_N (Decimal.to_N int) in
                  Some (JInt (match sign with [] => n | _ => - n end)%Z, s4)
              | _, _ => Some (JReal (sign ++ int ++ fs ++ es), s4)
              end
          end
      end
  end.

(** [strip_prefix lit s]: the input after the literal, if it starts with
    it. *)
Fixpoint strip_prefix (lit s : list N) : option (list N) :=
  match lit, s with
  | [], _ => Some s
  | x :: l', y :: s' => if x =? y then strip_prefix l' s' else None
  | _ :: _, [] => None
  end.

Fixpoint parse_value (fuel : nat) (s : list N) {struct fuel}
  : option (json * list N) :=
  match fuel with
  | O => None
  | S fuel' =>
      match skip_ws s with
      | [] => None
      | x :: s1 =>
          if x =? 123 then
            match skip_ws s1 with
            | y :: s2 =>
                if y =? 125 then Some (JObj [], s2)
                else match parse_members fuel' s1 [] with
                     | Some (m, r) => Some (JObj m, r)
                     | None => None
                     end
            | [] => None
            end
          else if x =? 91 then
            match skip_ws s1 with
            | y :: s2 =>
                if y =? 93 then Some (JArr [], s2)
                else match parse_elements fuel' s1 [] with
                     | Some (l, r) => Some (JArr l, r)
                     | None => None
                     end
            | [] => None
            end
          else if x =? 34 then
            match parse_chars s1 [] with
            | Some (str, r) => Some (JStr str, r)
            | None => None
            end
          else if x =? 116 then
            option_map (pair (JBool true)) (strip_prefix (js "rue") s1)
          else if x =? 102 then
            option_map (pair (JBool false)) (strip_prefix (js "alse") s1)
          else if x =? 110 then
            option_map (pair JNull) (strip_prefix (js "ull") s1)
          else parse_number (x :: s1)
      end
  end
with parse_elements (fuel : nat) (s : list N) (acc : list json)
       {struct fuel} : option (list json * list N) :=
  match fuel with
  | O => None
  | S fuel' =>
      match parse_value fuel' s with
      | Some (v, s1) =>
          match skip_ws s1 with
          | y :: s2 =>
              if y =? 44 then parse_elements fuel' s2 (v :: acc)
              else if y =? 93 then Some (List.rev (v :: acc), s2)
              else None
          | [] => None
          end
      | None => None
      end
  end
with parse_members (fuel : nat) (s : list N) (acc : props)
       {struct fuel} : option (props * list N) :=
  match fuel with
  | O => None
  | S fuel' =>
      match skip_ws s with
      | q :: s1 =>
          if q =? 34 then
            match parse_chars s1 [] with
            | Some (k, s2) =>
                match skip_ws s2 with
                | c :: s3 =>
                    if c =? 58 then
                      match parse_value fuel' s3 with
                      | Some (v, s4) =>
                          match skip_ws s4 with
                          | y :: s5 =>
                              if y =? 44
                              then parse_members fuel' s5 (set k v acc)
                              else if y =? 125
                              then Some (set k v acc, s5)
                              else None
                          | [] => None
                          end
                      | None => None
                      end
                    else None
                | [] => None
                end
            | None => None
            end
          else None
      | [] => None
      end
  end.

(** [JSON.parse(text)]; [None] stands for the [SyntaxError]. *)
Definition parse (text : list N) : option json :=
  match parse_value (2 * length text + 2) text with
  | Some (v, r) => match skip_ws r with [] => Some v | _ => None end
  | None => None
  end.

(** *** Printing *)

Definition hex4_of (x : N) : list N :=
  [Sha256.hex_digit ((x / 4096) mod 16); Sha256.hex_digit ((x / 256) mod 16);
   Sha256.hex_digit ((x / 16) mod 16); Sha256.hex_digit (x mod 16)].

Definition escape (x : N) : list N :=
  if x =? 34 then [92; 34] else if x =? 92 then [92; 92]
  else if x =? 8 then [92; 98] else if x =? 12 then [92; 102]
  else if x =? 10 then [92; 110] else if x =? 13 then [92; 114]
  else if x =? 9 then [92; 116]
  else if x <? 32 then 92 :: 117 :: hex4_of x
  else [x].

(** The characters of a string literal: quotes, backslashes and control
    characters are escaped, and so is a surrogate that is not part of a
    pair. *)
Fixpoint quote_chars (s : list N) : list N :=
  match s with
  | [] => []
  | x :: s' =>
      if Utf8.is_high x then
        match s' with
        | y :: s'' =>
            if Utf8.is_low y then x :: y :: quote_chars s''
            else 92 :: 117 :: hex4_of x ++ quote_chars s'
        | [] => 92 :: 117 :: hex4_of x
        end
      else if Utf8.is_low x then 92 :: 117 :: hex4_of x ++ quote_chars s'
      else escape x ++ quote_chars s'
  end.

Definition quote (s : list N) : list N := 34 :: quote_chars s ++ [34].

(** The text of a value; [undefined] prints as [null], as it does inside
    an array, and a property whose value is [undefined] is left out. *)
Fixpoint encode (v : json) : list N :=
  match v with
  | JUndefined | JNull => js "null"
  | JBool true => js "true"
  | JBool false => js "false"
  | JInt z => Decimal.of_Z z
  | JReal lexeme => lexeme
  | JStr s => quote s
  | JArr l =>
      91 :: (fix elements (l : list json) (first : bool) : list N :=
               match l with
               | [] => [93]
               | x :: l' =>
                   (if first then [] else [44]) ++ encode x
                     ++ elements l' false
               end) l true
  | JObj m =>
      123 :: (fix members (m : list (list N * json)) (first : bool)
                : list N :=
                match m with
                | [] => [125]
                | (k, x) :: m' =>
                    match x with
                    | JUndefined => members m' first
                    | _ =>
                        (if first then [] else [44]) ++ quote k ++ [58]
                          ++ encode x ++ members m' false
                    end
                end) m true
  end.

(** [JSON.stringify(v)]; it gives [undefined] for [undefined]. *)
Definition stringify (v : json) : option (list N) :=
  match v with
  | JUndefined => None
  | _ => Some (encode v)
  end.

End Json.

(** ** Dates *)

Module Date.
Local Open Scope Z_scope.

Definition msPerDay : Z := 86400000.

(** Year, month and day of a day number counted from 1970-01-01, in the
    proleptic Gregorian calendar. *)
Definition civil (days : Z) : Z * Z * Z :=
  let z := days + 719468 in
  let era := z / 146097 in
  let doe := z mod 146097 in
  let yoe := (doe - doe / 1460 + doe / 36524 - doe / 146096) / 365 in
  let doy := doe - (365 * yoe + yoe / 4 - yoe / 100) in
  let mp := (5 * doy + 2) / 153 in
  let d := doy - (153 * mp + 2) / 5 + 1 in
  let m := if mp <? 10 then mp + 3 else mp - 9 in
  let y := yoe + era * 400 + (if m <=? 2 then 1 else 0) in
  (y, m, d).

Definition pad (width : nat) (z : Z) : list N :=
  Decimal.pad width (Z.to_N z).

(** [new Date(t).toISOString()], for the time value of a valid date; the
    clock always gives one. *)
Definition toISOString (t : Z) : list N :=
  let '(y, m, d) := civil (t / msPerDay) in
  let ms := t mod msPerDay in
  let year :=
    if (0 <=? y) && (y <=? 9999) then pad 4 y
    else (if y <? 0 then js "-" else js "+") ++ pad 6 (Z.abs y) in
  year ++ js "-" ++ pad 2 m ++ js "-" ++ pad 2 d ++ js "T"
    ++ pad 2 (ms / 3600000) ++ js ":"
    ++ pad 2 ((ms / 60000) mod 60) ++ js ":"
    ++ pad 2 ((ms / 1000) mod 60) ++ js "."
    ++ pad 3 (ms mod 1000) ++ js "Z".

End Date.

(** ** Values handed to the classifier

    The pattern-based classifier is an exported function and coerces its
    argument with [(logText || '').toString()]; of a value it observes
    whether it is falsy and what its [toString] method does. *)

Module Value.

(** What the call of a method comes to: the string it returns, or the
    exception raised, by its message (no callable [toString], as for
    [Object.create(null)], or a method that throws). *)
Inductive Completion :=
| Returns (s : list N)
| Raises (message : list N).

Inductive value :=
| Undefined
| Null
| Bool (b : bool)
(** a number: [falsy] for [0], [-0] and [NaN]; [shown] is the text
    [Number.prototype.toString] gives *)
| Number (falsy : bool) (shown : list N)
| Str (s : list N)
(** an object, by what calling its [toString] comes to *)
| Object (toString : Completion).

(** Truthiness, as [||] and [!] test it. *)
Definition truthy (v : value) : bool :=
  match v with
  | Undefined | Null => false
  | Bool b => b
  | Number falsy _ => negb falsy
  | Str s => match s with [] => false | _ => true end
  | Object _ => true
  end.

(** [v || w] *)
Definition or_else (v w : value) : value := if truthy v then v else w.

(** [v.toString()]; reading the property of [undefined] or [null] raises
    a [TypeError]. *)
Definition toString (v : value) : Completion :=
  match v with
  | Undefined => Raises (js "Cannot read properties of undefined (reading 'toString')")
  | Null => Raises (js "Cannot read properties of null (reading 'toString')")
  | Bool true => Returns (js "true")
  | Bool false => Returns (js "false")
  | Number _ shown => Returns shown
  | Str s => Returns s
  | Object r => r
  end.

End Value.

(** ** The pattern-based classifier ([backend/aiService.js]) *)

Module AiService.
Import CharClass RegExp Value.

(** The seven local variables of [analyzeWithAI], which become the
    [analysis] object. *)
Record Analysis := MkAnalysis {
  issueType : list N;
  rootCause : list N;
  suggestedFix : list (list N);
  severity : list N;
  category : list N;
  confidence : Z;
  relatedLogs : list (list N)
}.

(** An entry of [patterns]: [update] assigns the local variables. *)
Record Pattern := MkPattern {
  name : list N;
  match_ : RegExp.t;
  update : Analysis -> Analysis
}.

(** A pattern literal with the [i] flag only. *)
Definition re_i (r : regex) : RegExp.t := RegExp.Make r true false.

Definition initial : Analysis := {|
  issueType := js "No critical issues detected";
  rootCause := js "No obvious error signatures were found in the provided logs. The service appears healthy based on the available information.";
  suggestedFix := [
    js "Continue monitoring logs for new errors or spikes in latency.";
    js "Set up alerts on error rate, latency and resource usage if not already in place." ];
  severity := js "Low";
  category := js "informational";
  confidence := 50;
  relatedLogs := []
|}.

Definition http_5xx : Pattern := {|
  name := js "http_5xx";
  match_ := re_i (alts [
    seqs [Chr space; Chr (one 53); times 2 2 (Chr digit); Chr space];
    lit "500 Internal Server Error";
    lit "HTTP 500" ]);
  update := fun _ => {|
    issueType := js "HTTP 5xx server error";
    rootCause := js "The logs show HTTP 5xx responses being returned to clients, indicating a server-side failure in handling requests.";
    suggestedFix := [
      js "Inspect stack traces around the time of the 5xx responses to identify failing code paths.";
      js "Check upstream dependencies (databases, external APIs) for errors or timeouts that could cause the server to fail.";
      js "Add more structured logging (request id, user id, endpoint) around failing endpoints to narrow down the problem." ];
    severity := js "High";
    category := js "runtime";
    confidence := 80;
    relatedLogs := [js "HTTP 500"; js "HTTP 502"; js "HTTP 503"; js "Unhandled exception"]
  |}
|}.

Definition timeout : Pattern := {|
  name := js "timeout";
  match_ := re_i (alts [
    lit "timeout"; lit "timed out"; lit "ESOCKETTIMEDOUT"; lit "ETIMEDOUT" ]);
  update := fun _ => {|
    issueType := js "Request or dependency timeout";
    rootCause := js "The logs contain timeout errors, suggesting that a downstream dependency or network call is not responding within the expected time.";
    suggestedFix := [
      js "Identify which external service or database call is timing out and measure its typical response time.";
      js "Increase the timeout threshold only if the dependency is known to be slow and cannot be optimized.";
      js "Add retries with backoff and better error handling around slow network calls." ];
    severity := js "High";
    category := js "infrastructure";
    confidence := 75;
    relatedLogs := [js "ETIMEDOUT"; js "ESOCKETTIMEDOUT"; js "request timeout"]
  |}
|}.

Definition db_connection : Pattern := {|
  name := js "db_connection";
  match_ := re_i (alts [
    seqs [lit "ECONNREFUSED"; star (Chr dot);
          alts [lit "postgres"; lit "mysql"; lit "mongo"; lit "database"]];
    lit "database connection failed";
    lit "could not connect to server" ]);
  update := fun _ => {|
    issueType := js "Database connection failure";
    rootCause := js "The application is unable to establish or maintain a connection to the database. This can be due to configuration errors, network issues, or the database server being down.";
    suggestedFix := [
      js "Verify database host, port, username, password and database name in the application configuration or environment variables.";
      js "Check if the database server is running and reachable from the application host (e.g., using ping or telnet).";
      js "Confirm that firewall rules and security groups allow traffic between the application and the database." ];
    severity := js "Critical";
    category := js "database";
    confidence := 85;
    relatedLogs := [js "ECONNREFUSED"; js "connection refused"; js "could not connect to server"]
  |}
|}.

Definition db_query : Pattern := {|
  name := js "db_query";
  match_ := re_i (alts [
    lit "SQLSTATE"; lit "syntax error at or near";
    lit "duplicate key value violates unique constraint";
    lit "deadlock detected" ]);
  update := fun _ => {|
    issueType := js "Database query error";
    rootCause := js "The database is rejecting one or more queries, indicating problems such as invalid SQL syntax, constraint violations, or deadlocks.";
    suggestedFix := [
      js "Inspect the failing SQL statement and verify table/column names, parameter types, and join conditions.";
      js "Handle unique constraint violations by checking for existing records before inserts or using upserts where appropriate.";
      js "If deadlocks occur, review transaction scope and lock usage to reduce contention." ];
    severity := js "High";
    category := js "database";
    confidence := 80;
    relatedLogs := [js "SQLSTATE"; js "syntax error"; js "duplicate key"; js "deadlock detected"]
  |}
|}.

Definition auth : Pattern := {|
  name := js "auth";
  match_ := re_i (alts [
    lit "unauthorized"; lit "forbidden"; lit "401"; lit "403";
    lit "invalid token"; lit "jwt" ]);
  update := fun _ => {|
    issueType := js "Authentication or authorization failure";
    rootCause := js "The logs show repeated authentication or authorization errors, suggesting invalid credentials, expired tokens, or misconfigured access control.";
    suggestedFix := [
      js "Verify token issuance (expiration time, audience, issuer) and ensure the API is validating them correctly.";
      js "Check role/permission mappings to make sure users have the required access for the actions they are performing.";
      js "Add clearer error messages and correlation ids for failed auth requests to aid debugging." ];
    severity := js "Medium";
    category := js "security";
    confidence := 70;
    relatedLogs := [js "401 Unauthorized"; js "403 Forbidden"; js "invalid token"]
  |}
|}.

Definition oom : Pattern := {|
  name := js "oom";
  match_ := re_i (alts [
    lit "out of memory"; lit "heap limit";
    lit "JavaScript heap out of memory"; lit "ENOMEM" ]);
  update := fun _ => {|
    issueType := js "Out-of-memory condition";
    rootCause := js "The process is running out of memory, which typically indicates a memory leak or workloads that exceed the available resources.";
    suggestedFix := [
      js "Capture heap snapshots and analyze object retention to identify memory leaks.";
      js "Review caching and in-memory data structures for unbounded growth.";
      js "Increase memory limits for the service only after confirming that memory usage patterns are expected." ];
    severity := js "Critical";
    category := js "performance";
    confidence := 85;
    relatedLogs := [js "heap out of memory"; js "ENOMEM"; js "Out of memory"]
  |}
|}.

Definition generic_error : Pattern := {|
  name := js "generic_error";
  match_ := re_i (alts [
    lit "exception"; lit "stack trace"; lit "unhandled rejection";
    lit "fatal error"; lit "TypeError"; lit "ReferenceError" ]);
  update := fun _ => {|
    issueType := js "Application runtime error";
    rootCause := js "The logs show runtime exceptions being thrown by the application, which likely stem from unhandled edge cases, null values, or incorrect assumptions in the code.";
    suggestedFix := [
      js "Review the stack trace to locate the exact function and line where the exception originates.";
      js "Add input validation and null checks around the failing code path.";
      js "Introduce structured error handling (try/catch, centralized error middleware) to catch and log exceptions consistently." ];
    severity := js "High";
    category := js "runtime";
    confidence := 75;
    relatedLogs := [js "Unhandled exception"; js "TypeError"; js "ReferenceError"; js "stack trace"]
  |}
|}.

Definition warning_only : Pattern := {|
  name := js "warning_only";
  match_ := re_i (alts [
    lit "warn"; lit "deprecated"; lit "slow query"; lit "high latency" ]);
  update := fun _ => {|
    issueType := js "Performance or warning signals detected";
    rootCause := js "The logs primarily contain warnings or performance-related messages (such as slow queries or elevated latency) rather than hard failures.";
    suggestedFix := [
      js "Identify the endpoints or queries that show the highest latency and profile them.";
      js "Optimize slow database queries using indexes, query rewrites, or caching.";
      js "Set SLOs (service level objectives) and alerting thresholds for latency and error rate." ];
    severity := js "Medium";
    category := js "performance";
    confidence := 65;
    relatedLogs := [js "WARN"; js "slow query"; js "high latency"]
  |}
|}.

Definition patterns : list Pattern :=
  [http_5xx; timeout; db_connection; db_query; auth; oom; generic_error;
   warning_only].

(** [/error|fail(ed)?/i] *)
Definition error_keyword : RegExp.t :=
  re_i (alts [lit "error"; Seq (lit "fail") (opt (lit "ed"))]).

Definition generic_detected : Analysis := {|
  issueType := js "Generic error detected";
  rootCause := js "The logs contain error keywords but do not match a more specific pattern. There is likely a failure that requires manual inspection of the stack trace and recent changes.";
  suggestedFix := [
    js "Inspect error messages and stack traces around the time of failure.";
    js "Correlate the error with recent code or configuration changes.";
    js "Add structured logging (request id, user id, feature flags) to improve observability." ];
  severity := js "Medium";
  category := js "runtime";
  confidence := 60;
  relatedLogs := [js "error"; js "failed"; js "stack trace"]
|}.

(** The body after the coercion: [patterns.find], then the update of the
    matched entry, or the keyword test. *)
Definition classify (text : list N) : Analysis :=
  match List.find (fun p => RegExp.test (match_ p) text) patterns with
  | Some matched => update matched initial
  | None =>
      if RegExp.test error_keyword text then generic_detected else initial
  end.

Record Metadata := MkMetadata {
  model : list N;
  timestamp : list N
}.

(** What [analyzeWithAI] resolves to: [{ success: true, analysis,
    metadata }], or [{ success: false, error }] with the exception
    caught. *)
Inductive Result :=
| Success (analysis : Analysis) (metadata : Metadata)
| Failure (error : list N).

(** [analyzeWithAI(logText)]; [now] is the clock read by [new Date()]. *)
Definition analyzeWithAI (now : Z) (logText : value) : Result :=
  match toString (or_else logText (Str [])) with
  | Returns text =>
      Success (classify text)
        {| model := js "pattern-based-log-analyzer";
           timestamp := Date.toISOString now |}
  | Raises error => Failure error
  end.

(** The result as the object the caller receives. *)
Definition strings (l : list (list N)) : Json.json :=
  Json.JArr (List.map Json.JStr l).

Definition analysis_json (a : Analysis) : Json.json :=
  Json.obj [(js "issueType", Json.JStr (issueType a));
            (js "rootCause", Json.JStr (rootCause a));
            (js "suggestedFix", strings (suggestedFix a));
            (js "severity", Json.JStr (severity a));
            (js "category", Json.JStr (category a));
            (js "confidence", Json.JInt (confidence a));
            (js "relatedLogs", strings (relatedLogs a))].

Definition to_json (r : Result) : Json.json :=
  match r with
  | Success a md =>
      Json.obj [(js "success", Json.JBool true);
                (js "analysis", analysis_json a);
                (js "metadata",
                 Json.obj [(js "model", Json.JStr (model md));
                           (js "timestamp", Json.JStr (timestamp md))])]
  | Failure error =>
      Json.obj [(js "success", Json.JBool false);
                (js "error", Json.obj [(js "message", Json.JStr error)])]
  end.

End AiService.

(** ** The redactors *)

Module Redactor.
Import CharClass RegExp.

Definition re_g (r : regex) : RegExp.t := RegExp.Make r false true.
Definition re_gi (r : regex) : RegExp.t := RegExp.Make r true true.

Definition d (n : nat) : regex := times n n (Chr digit).
Definition c (s : string) : regex := Chr (of_string s).
Definition set (rs : list (N * N)) : regex := Chr (Cls false rs).
(** the class of the two quote characters *)
Definition quote : regex := set [(34, 34); (39, 39)].

(** *** [CONFIG.REDACT_PATTERNS] and [redactSensitiveInfo]
        ([analyzeRoute.js], the Gemini service) *)

(** [/(\d{1,3}\.){3}\d{1,3}/g] *)
Definition IP : RegExp.t :=
  re_g (Seq (times 3 3 (Seq (times 1 3 (Chr digit)) (c ".")))
            (times 1 3 (Chr digit))).

(** [/[a-zA-Z0-9._%+-]+@[a-zA-Z0-9.-]+\.[a-zA-Z]{2,}/g] *)
Definition EMAIL : RegExp.t :=
  re_g (seqs [plus (set (alnum_r ++ chars_r "._%+-")); c "@";
              plus (set (alnum_r ++ chars_r ".-")); c ".";
              atleast 2 (set alpha_r)]).

(** [/(?:key|api[_-]?key|token|secret)[=:]["']?([a-zA-Z0-9_\-]{20,})["']?/gi] *)
Definition API_KEY : RegExp.t :=
  re_gi (seqs [alts [lit "key";
                     seqs [lit "api"; opt (c "_-"); lit "key"];
                     lit "token"; lit "secret"];
               c "=:"; opt quote;
               atleast 20 (set (alnum_r ++ chars_r "_-"));
               opt quote]).

(** [/(https?:\/\/[^\s]+)/g] *)
Definition URL : RegExp.t :=
  re_g (seqs [lit "http"; opt (c "s"); lit "://"; plus (Chr nonspace)]).

(** [/(\/[\w\-\.]+)+/g] *)
Definition FILE_PATH : RegExp.t :=
  re_g (plus (Seq (c "/") (plus (set (word_r ++ chars_r "-."))))).

(** [/\d{4}-\d{2}-\d{2}[T ]\d{2}:\d{2}:\d{2}(\.\d+)?(Z|[+-]\d{2}:?\d{2})?/g] *)
Definition TIMESTAMP : RegExp.t :=
  re_g (seqs [d 4; c "-"; d 2; c "-"; d 2; c "T "; d 2; c ":"; d 2; c ":";
              d 2;
              opt (Seq (c ".") (plus (Chr digit)));
              opt (Alt (c "Z") (seqs [c "+-"; d 2; opt (c ":"); d 2]))]).

(** [/\b(?:\d[ -]*?){13,16}\b/g] *)
Definition CREDIT_CARD : RegExp.t :=
  re_g (seqs [WordB;
              times 13 16 (Seq (Chr digit) (Rep false 0 None (c " -")));
              WordB]).

(** [/\b\d{3}[-.]?\d{2}[-.]?\d{4}\b/g] *)
Definition SSN : RegExp.t :=
  re_g (seqs [WordB; d 3; opt (c "-."); d 2; opt (c "-."); d 4; WordB]).

(** [Object.values(CONFIG.REDACT_PATTERNS)], in insertion order. *)
Definition REDACT_PATTERNS : list RegExp.t :=
  [IP; EMAIL; API_KEY; URL; FILE_PATH; TIMESTAMP; CREDIT_CARD; SSN].

Definition REDACTED : list N := js "[REDACTED]".

Definition redactSensitiveInfo (content : list N) : list N :=
  fold_left (fun redacted pattern => RegExp.replace pattern REDACTED redacted)
    REDACT_PATTERNS content.

(** *** [redactSensitive] *)

(** [/\b\d{1,3}(\.\d{1,3}){3}\b/g] *)
Definition IP' : RegExp.t :=
  re_g (seqs [WordB; times 1 3 (Chr digit);
              times 3 3 (Seq (c ".") (times 1 3 (Chr digit))); WordB]).

(** [/([A-Za-z]:)?(\/[A-Za-z0-9._-]+)+/g] *)
Definition PATH' : RegExp.t :=
  re_g (Seq (opt (Seq (set alpha_r) (c ":")))
            (plus (Seq (c "/") (plus (set (alnum_r ++ chars_r "._-")))))).

(** [/(key|token|api)[=: ]+[A-Za-z0-9-_]{10,}/gi] *)
Definition KEY' : RegExp.t :=
  re_gi (seqs [alts [lit "key"; lit "token"; lit "api"];
               plus (c "=: ");
               atleast 10 (set (alnum_r ++ chars_r "-_"))]).

(** [/[A-Za-z0-9._%+-]+@[A-Za-z0-9.-]+\.[A-Z]{2,}/gi] *)
Definition EMAIL' : RegExp.t :=
  re_gi (seqs [plus (set (alnum_r ++ chars_r "._%+-")); c "@";
               plus (set (alnum_r ++ chars_r ".-")); c ".";
               atleast 2 (set upper_r)]).

(** [/\d{4}-\d{2}-\d{2} \d{2}:\d{2}:\d{2}/g] *)
Definition TIME' : RegExp.t :=
  re_g (seqs [d 4; c "-"; d 2; c "-"; d 2; c " "; d 2; c ":"; d 2; c ":";
              d 2]).

Definition redactSensitive (text : list N) : list N :=
  RegExp.replace TIME' (js "[REDACTED_TIME]")
    (RegExp.replace EMAIL' (js "[REDACTED_EMAIL]")
      (RegExp.replace KEY' (js "[REDACTED_KEY]")
        (RegExp.replace PATH' (js "[REDACTED_PATH]")
          (RegExp.replace IP' (js "[REDACTED_IP]") text)))).

End Redactor.

(** ** String and array methods *)

Module JsString.

(** [String.prototype.trim] *)
Fixpoint trim_start (s : list N) : list N :=
  match s with
  | x :: s' => if CharClass.is_space x then trim_start s' else s
  | [] => []
  end.
Definition trim (s : list N) : list N :=
  List.rev (trim_start (List.rev (trim_start s))).

(** [Array.prototype.join] *)
Fixpoint join (sep : list N) (l : list (list N)) : list N :=
  match l with
  | [] => []
  | [x] => x
  | x :: l' => x ++ sep ++ join sep l'
  end.

End JsString.

(** ** Exceptions *)

Module Effects.

(** An [Error] object: its message and its [code], when it has one. *)
Record Error := MkError { message : list N; code : option (list N) }.

(** How an awaited call completes. *)
Inductive Outcome (A : Type) :=
| Ok (a : A)
| Thrown (e : Error).
Arguments Ok {A} a.
Arguments Thrown {A} e.

End Effects.

(** ** The Gemini-backed service ([analyzeWithAI] with redaction,
       fingerprint and file cache) *)

Module GeminiService.
Import Json JsString.

(** [CONFIG] *)
Record Config := MkConfig {
  MAX_LOG_SIZE : N;
  CACHE_TTL : Z;
  SUPPORTED_FILE_TYPES : list (list N);
  REDACT_PATTERNS : list RegExp.t
}.

Definition CONFIG : Config := {|
  MAX_LOG_SIZE := 5 * 1024 * 1024;
  CACHE_TTL := 24 * 60 * 60 * 1000;
  SUPPORTED_FILE_TYPES := [js ".log"; js ".txt"; js ".json"];
  REDACT_PATTERNS := Redactor.REDACT_PATTERNS
|}.

(** *** The world around the service *)

(** What [model.generateContent(prompt)] followed by [response.text()]
    comes to. *)
Inductive Generation :=
| Raises (message : list N) (code : option (list N))
| NoResponse
| Text (text : list N).

(** The collaborators the service does not control. *)
Record Env := MkEnv {
  (** [process.cwd()] *)
  cwd : list N;
  (** the Gemini call at a time for a prompt: how long it takes, in
      milliseconds, and what it gives *)
  generateContent : Z -> list N -> Z * Generation;
  (** the message of the [SyntaxError] that [JSON.parse] raises on a
      text *)
  syntaxError : list N -> list N;
  (** [process.env.NODE_ENV === 'development'] *)
  development : bool;
  (** the [stack] of an error with a message *)
  stackOf : list N -> list N
}.

Record File := MkFile { mtimeMs : Z; data : list N }.

(** What the service does to its surroundings, in order. *)
Inductive Event :=
| Redacted
| Fingerprinted
| Stat (path : list N)
| ReadFile (path : list N)
| Mkdir (path : list N)
| WriteFile (path : list N)
| Generate (prompt : list N).

(** The clock, the files by path, whether the cache directory can be
    written, and the events so far. *)
Record World := MkWorld {
  now : Z;
  files : gmap (list N) File;
  writable : bool;
  events : list Event
}.

(** *** Exceptions and state *)

Export Effects.

Definition M (A : Type) : Type := World -> Outcome A * World.

Definition ret {A} (a : A) : M A := fun w => (Ok a, w).
Definition bind {A B} (c : M A) (k : A -> M B) : M B :=
  fun w => match c w with
           | (Ok a, w') => k a w'
           | (Thrown e, w') => (Thrown e, w')
           end.
(** [throw new Error(message)] *)
Definition throw {A} (msg : list N) : M A :=
  fun w => (Thrown (MkError msg None), w).
Definition raise {A} (e : Error) : M A := fun w => (Thrown e, w).
(** [try { c } catch (e) { h e }] *)
Definition try_catch {A} (c : M A) (h : Error -> M A) : M A :=
  fun w => match c w with
           | (Ok a, w') => (Ok a, w')
           | (Thrown e, w') => h e w'
           end.

Declare Scope js_scope.
Delimit Scope js_scope with js.
Notation "'let*' x ':=' c 'in' k" := (bind c (fun x => k))
  (at level 10, x pattern, c at level 100, k at level 200) : js_scope.
Local Open Scope js_scope.

(** [Date.now()] *)
Definition Date_now : M Z := fun w => (Ok (now w), w).
Definition tell (e : Event) : M unit :=
  fun w => (Ok tt, MkWorld (now w) (files w) (writable w) (events w ++ [e])).
Definition elapse (ms : Z) : M unit :=
  fun w => (Ok tt, MkWorld (now w + ms) (files w) (writable w) (events w)).
(** [new Date(t).toISOString()] *)
Definition toISOString (t : Z) : M (list N) := ret (Date.toISOString t).

(** [fs.stat(path)]: the modification time; a missing file raises. *)
Definition fs_stat (path : list N) : M Z :=
  let* _ := tell (Stat path) in
  fun w => match files w !! path with
           | Some f => (Ok (mtimeMs f), w)
           | None => (Thrown (MkError (js "ENOENT: no such file or directory")
                                      (Some (js "ENOENT"))), w)
           end.
(** [fs.readFile(path, 'utf-8')] *)
Definition fs_readFile (path : list N) : M (list N) :=
  let* _ := tell (ReadFile path) in
  fun w => match files w !! path with
           | Some f => (Ok (data f), w)
           | None => (Thrown (MkError (js "ENOENT: no such file or directory")
                                      (Some (js "ENOENT"))), w)
           end.
(** [fs.mkdir(dir, { recursive: true })] *)
Definition fs_mkdir (dir : list N) : M unit :=
  let* _ := tell (Mkdir dir) in
  fun w => if writable w then (Ok tt, w)
           else (Thrown (MkError (js "EACCES: permission denied")
                                 (Some (js "EACCES"))), w).
(** [fs.writeFile(path, text, 'utf-8')]: the file is created or replaced
    and gets the current time as its modification time. *)
Definition fs_writeFile (path text : list N) : M unit :=
  let* _ := tell (WriteFile path) in
  fun w => if writable w
           then (Ok tt, MkWorld (now w)
                          (<[path := MkFile (now w) text]> (files w))
                          (writable w) (events w))
           else (Thrown (MkError (js "EACCES: permission denied")
                                 (Some (js "EACCES"))), w).

(** *** The service *)

(** In this literal [~] stands for the double quote. *)
Definition quoted (s : string) : list N :=
  List.map (fun x => if x =? 126 then 34 else x) (js s).

Definition prompt_head : list N := quoted
"You are an expert log analyzer. Analyze the following log and provide a JSON response with:
    
    {
      ~issueType~: ~The type of issue (e.g., 'Database Connection Error', 'High CPU Usage')~,
      ~rootCause~: ~Detailed explanation of the root cause~,
      ~suggestedFix~: [~Step 1: Action to fix the issue~, ~Step 2: Next step~],
      ~severity~: ~Low | Medium | High | Critical~,
      ~category~: ~One of: 'network', 'database', 'application', 'security', 'performance', 'authentication', 'authorization', 'configuration', 'resource', 'unknown'~,
      ~confidence~: ~Your confidence in this analysis (0-100)~,
      ~relatedLogs~: [~patterns or keywords that would help identify similar issues~]
    }

    Log to analyze (redacted for sensitive information):
    ".

Definition prompt_tail : list N := quoted
"
    
    Respond with valid JSON only, no additional text.".

Section Service.
Variable env : Env.

Definition CACHE_DIR : list N := cwd env ++ js "/.cache".

Definition redactSensitiveInfo (content : list N) : list N :=
  Redactor.redactSensitiveInfo content.

Definition generateContentHash (content : list N) : list N :=
  Sha256.hex (Sha256.digest (Utf8.encode content)).

Definition getCachePath (hash : list N) : list N :=
  CACHE_DIR ++ js "/" ++ hash ++ js ".json".

(** [JSON.parse] as a step that may raise. *)
Definition JSON_parse (text : list N) : M json :=
  match Json.parse text with
  | Some v => ret v
  | None => throw (syntaxError env text)
  end.

Definition getCachedResult (hash : list N) : M json :=
  try_catch
    (let cachePath := getCachePath hash in
     let* mtime := fs_stat cachePath in
     let* t := Date_now in
     if (t - mtime >? CACHE_TTL CONFIG)%Z then ret JNull
     else
       let* text := fs_readFile cachePath in
       JSON_parse text)
    (fun _ => ret JNull).

Definition saveToCache (hash : list N) (result : json) : M unit :=
  try_catch
    (let* _ := fs_mkdir CACHE_DIR in
     let cachePath := getCachePath hash in
     let* t1 := Date_now in
     let* cachedAt := toISOString t1 in
     let* t2 := Date_now in
     let* expiresAt := toISOString (t2 + CACHE_TTL CONFIG) in
     fs_writeFile cachePath
       (Json.encode
          (JObj (extend (spread result)
                   [(js "cachedAt", JStr cachedAt);
                    (js "expiresAt", JStr expiresAt)]))))
    (fun _ => ret tt).

Definition requiredFields : list (list N) :=
  [js "issueType"; js "rootCause"; js "suggestedFix";
   js "severity"; js "category"; js "confidence"].

(** [/\{[\s\S]*\}/] *)
Definition jsonPattern : RegExp.t :=
  RegExp.Make
    (RegExp.seqs [RegExp.Chr (CharClass.one 123);
                  RegExp.star (RegExp.Chr CharClass.any);
                  RegExp.Chr (CharClass.one 125)])
    false false.

(** The value of [field in parsed] for each required field; the
    operator raises a [TypeError] on a primitive. *)
Definition missing (parsed : json) : M (list (list N)) :=
  match parsed with
  | JObj _ | JArr _ =>
      ret (List.filter (fun field => negb (has field (spread parsed)))
             requiredFields)
  | _ => throw (js "Cannot use 'in' operator to search for a key in a primitive")
  end.

(** The inner [try] block: extraction, parsing, validation, the result
    and its caching. *)
Definition parseAndStore (startTime : Z) (log redactedLog logHash : list N)
           (text : list N) : M json :=
  try_catch
    (match RegExp.match_ jsonPattern text with
     | None => throw (js "No JSON found in AI response")
     | Some jsonMatch =>
         let* parsed := JSON_parse jsonMatch in
         let* missingFields := missing parsed in
         match missingFields with
         | _ :: _ =>
             throw (js "Missing required fields in AI response: "
                      ++ join (js ", ") missingFields)
         | [] =>
             let* t1 := Date_now in
             let* analyzedAt := toISOString t1 in
             let* t2 := Date_now in
             let analysisResult :=
               obj [(js "success", JBool true);
                    (js "analysis",
                     JObj (extend (spread parsed)
                             [(js "logHash", JStr logHash);
                              (js "analyzedAt", JStr analyzedAt);
                              (js "processingTimeMs",
                               JInt (t2 - startTime))]));
                    (js "metadata",
                     obj [(js "logSize", JInt (Z.of_nat (length log)));
                          (js "redactedLogSize",
                           JInt (Z.of_nat (length redactedLog)));
                          (js "cacheHit", JBool false)])] in
             let* _ := saveToCache logHash analysisResult in
             ret analysisResult
         end
     end)
    (fun parseError =>
       throw (js "Failed to parse AI response: " ++ message parseError)).

(** [model.generateContent(prompt)], [result.response] and
    [response.text()] *)
Definition generate (prompt : list N) : M (list N) :=
  let* _ := tell (Generate prompt) in
  let* t := Date_now in
  let (latency, g) := generateContent env t prompt in
  let* _ := elapse latency in
  match g with
  | Raises msg c => raise (MkError msg c)
  | NoResponse => throw (js "No valid response from AI service")
  | Text text => ret text
  end.

(** [analyzeWithAI(log, { force })] *)
Definition analyzeWithAI (log : Value.value) (force : bool) : M json :=
  let* startTime := Date_now in
  try_catch
    (match log with
     | Value.Str log =>
         if negb (Value.truthy (Value.Str log))
            || bool_decide (trim log = [])
         then throw (js "Log content is empty or invalid")
         else if MAX_LOG_SIZE CONFIG <? Utf8.byteLength log
         then throw (js "Log exceeds maximum size of "
                       ++ Decimal.of_N (MAX_LOG_SIZE CONFIG / (1024 * 1024))
                       ++ js "MB")
         else
           let* _ := tell Redacted in
           let redactedLog := redactSensitiveInfo log in
           let* _ := tell Fingerprinted in
           let logHash := generateContentHash redactedLog in
           let* cached :=
             (if force then ret JNull else getCachedResult logHash) in
           if Json.truthy cached
           then ret (JObj (set (js "cached") (JBool true) (spread cached)))
           else
             let prompt := prompt_head ++ redactedLog ++ prompt_tail in
             let* text := generate prompt in
             parseAndStore startTime log redactedLog logHash text
     | _ => throw (js "Log content is empty or invalid")
     end)
    (fun error =>
       let* t := Date_now in
       let processingTimeMs := JInt (t - startTime) in
       ret (obj [(js "success", JBool false);
                 (js "error",
                  obj [(js "message", JStr (message error));
                       (js "code",
                        JStr (match code error with
                              | Some c => if Json.truthy (JStr c) then c
                                          else js "AI_SERVICE_ERROR"
                              | None => js "AI_SERVICE_ERROR"
                              end));
                       (js "stack",
                        if development env
                        then JStr (stackOf env (message error))
                        else JUndefined);
                       (js "processingTimeMs", processingTimeMs)]);
                 (js "metadata",
                  obj [(js "processingTimeMs", processingTimeMs)])])).

End Service.

End GeminiService.

(** ** The [/analyze] route ([backend/routes/analyzeRoute.js]) *)

Module AnalyzeRoute.
Import Json JsString Effects.

(** [req.file], as multer's disk storage leaves it. *)
Record Upload := MkUpload {
  originalname : list N;
  path : list N;
  filename : list N;
  size : N
}.

(** [res.status(s).json(body)]; [res.json(body)] answers 200. *)
Record Response := MkResponse { status : Z; body : json }.

(** What the handler awaits and reads from its surroundings. *)
Record Env := MkEnv {
  uploadDir : list N;
  (** [readFile(path, "utf-8")] *)
  readFile : list N -> Outcome (list N);
  (** the imported [analyzeWithAI] *)
  analyzeWithAI : list N -> Outcome json;
  (** [process.env.NODE_ENV === 'development'] *)
  development : bool;
  (** the [stack] of an error with a message *)
  stackOf : list N -> list N
}.

Definition strings (l : list (list N)) : json := JArr (List.map JStr l).

Section Handler.
Variable env : Env.

(** [req.file.path || path.join(uploadDir, req.file.filename)] *)
Definition filePath (file : Upload) : list N :=
  match path file with
  | [] => uploadDir env ++ js "/" ++ filename file
  | p => p
  end.

(** The [catch] of the handler. *)
Definition internal_error (err : Error) : Response :=
  MkResponse 500
    (obj [(js "success", JBool false);
          (js "error",
           or_else (JStr (message err)) (JStr (js "Internal server error")));
          (js "stack",
           if development env then JStr (stackOf env (message err))
           else JUndefined)]).

(** The record sent when the classifier gives no usable result. *)
Definition fallback_analysis (errorInfo : json) : json :=
  obj [(js "issueType", JStr (js "Analysis service unavailable"));
       (js "rootCause",
        or_else (opt_prop (js "message") errorInfo)
          (JStr (js "The AI analysis service is currently unavailable or returned an invalid response.")));
       (js "suggestedFix",
        strings [js "Check the backend logs for AI service errors.";
                 js "Verify GEMINI_API_KEY and network access to the Gemini API."]);
       (js "severity", JStr (js "Medium"));
       (js "category", JStr (js "configuration"));
       (js "confidence", JInt 50);
       (js "relatedLogs",
        strings [js "AI service error"; js "Gemini API";
                 js "GEMINI_API_KEY"])].

(** The handler of [POST /analyze], after multer has stored the
    upload. *)
Definition analyze (file : option Upload) : Response :=
  match file with
  | None =>
      MkResponse 400
        (obj [(js "success", JBool false);
              (js "error", JStr (js "No file uploaded"))])
  | Some file =>
      match filePath file with
      | [] =>
          MkResponse 500
            (obj [(js "success", JBool false);
                  (js "error", JStr (js "File path missing on server"))])
      | filePath =>
          match readFile env filePath with
          | Thrown err => internal_error err
          | Ok logText =>
              if negb (truthy (JStr logText))
                 || bool_decide (trim logText = [])
              then
                MkResponse 400
                  (obj [(js "success", JBool false);
                        (js "error",
                         JStr (js "The uploaded file is empty"))])
              else
                match analyzeWithAI env logText with
                | Thrown err => internal_error err
                | Ok aiResult =>
                    if negb (truthy aiResult)
                       || is_false (prop (js "success") aiResult)
                    then
                      let errorInfo := opt_prop (js "error") aiResult in
                      MkResponse 200
                        (obj [(js "success", JBool true);
                              (js "analysis", fallback_analysis errorInfo);
                              (js "metadata",
                               or_else (opt_prop (js "metadata") aiResult)
                                 (JObj []));
                              (js "filename", JStr (originalname file));
                              (js "fallback", JBool true)])
                    else
                      MkResponse 200
                        (obj [(js "success", JBool true);
                              (js "analysis",
                               prop (js "analysis") aiResult);
                              (js "metadata",
                               prop (js "metadata") aiResult);
                              (js "filename", JStr (originalname file))])
                end
          end
      end
  end.

End Handler.

(** The route wired to the pattern-based classifier of
    [backend/aiService.js], at a clock reading. *)
Definition with_pattern_service (now : Z) (env : Env) : Env :=
  MkEnv (uploadDir env) (readFile env)
    (fun logText =>
       Ok (AiService.to_json
             (AiService.analyzeWithAI now (Value.Str logText))))
    (development env) (stackOf env).

End AnalyzeRoute.

(** ** The upload pipeline of [POST /analyze]
       ([handleMulterError] and the handler behind it) *)

Module UploadPipeline.
Import Json JsString Effects AnalyzeRoute.

(** What multer hands to the error handler: a [MulterError] with its code
    and message, or another error, of which the handler reads the
    [message] property. *)
Inductive UploadError :=
| Multer (code message : list N)
| Other (message : json).

(** A middleware answers, or calls [next()]. *)
Inductive Step :=
| Answer (r : Response)
| Next.

Definition bad_request (error : list N) : Response :=
  MkResponse 400
    (obj [(js "success", JBool false); (js "error", JStr error)]).

(** [handleMulterError(err, req, res, next)] *)
Definition handleMulterError (err : option UploadError) : Step :=
  match err with
  | Some (Multer code message) =>
      if bool_decide (code = js "LIMIT_FILE_SIZE")
      then Answer (bad_request (js "File too large. Maximum size is 10MB."))
      else Answer (bad_request (js "File upload error: " ++ message))
  | Some (Other message) =>
      Answer
        (bad_request
           match message with
           | JStr m =>
               if truthy (JStr (trim m)) then m
               else js "File upload failed. Please ensure the file is a valid .log, .txt, or .json and try again."
           | _ => js "File upload failed. Please ensure the file is a valid .log, .txt, or .json and try again."
           end)
  | None => Next
  end.

(** The chain [upload.single("file"), handleMulterError, handler]: the
    outcome of the upload is an error or the stored file, if any. *)
Definition post (env : Env) (err : option UploadError)
           (file : option Upload) : Response :=
  match handleMulterError err with
  | Answer r => r
  | Next => analyze env file
  end.

End UploadPipeline.

(** ** The upload form of the frontend ([analyzeLogFile] and the
       [handleSubmit] of [FileUpload]) *)

Module FileUploadUi.
Import Json AnalyzeRoute.

(** How the awaited request settles: with the data of the response, or
    with the error axios rejects with. *)
Inductive Settled :=
| Resolved (data : json)
| Rejected (err : json).

(** [analyzeLogFile(file)]: the file is posted to the route. axios
    resolves with the response when the status is 2xx; it rejects with an
    error that carries the response for another status, and with an error
    without response when no answer arrives. *)
Definition analyzeLogFile {File : Type} (server : File -> option Response)
           (file : File) : Settled :=
  match server file with
  | Some r =>
      if ((200 <=? status r) && (status r <? 300))%Z
      then Resolved (body r)
      else Rejected
             (obj [(js "message",
                    JStr (js "Request failed with status code "
                            ++ Decimal.of_Z (status r)));
                   (js "response",
                    obj [(js "status", JInt (status r));
                         (js "data", body r)])])
  | None => Rejected (obj [(js "message", JStr (js "Network Error"))])
  end.

(** A call of one of the callbacks of the component. *)
Inductive Call :=
| OnResult (result : json)
| OnLoadingChange (value : bool)
| OnErrorChange (value : json).

(** Which callbacks the parent passes. *)
Record Props := MkProps {
  onResult : bool;
  onLoadingChange : bool;
  onErrorChange : bool
}.

(** [if (callback) callback(value)] *)
Definition call (present : bool) (c : Call) : list Call :=
  if present then [c] else [].

(** [handleSubmit]: the calls it makes, in order. The callbacks are state
    setters and do not throw. *)
Definition handleSubmit {File : Type} (props : Props)
           (selectedFile : option File) (request : File -> Settled)
  : list Call :=
  match selectedFile with
  | None =>
      call (onErrorChange props)
        (OnErrorChange (JStr (js "Please select a log file to upload.")))
  | Some file =>
      call (onLoadingChange props) (OnLoadingChange true)
      ++ call (onErrorChange props) (OnErrorChange JNull)
      ++ match request file with
         | Resolved result => call (onResult props) (OnResult result)
         | Rejected err =>
             let message :=
               or_else
                 (or_else
                    (opt_prop (js "error")
                       (opt_prop (js "data") (opt_prop (js "response") err)))
                    (opt_prop (js "message") err))
                 (JStr (js "Failed to analyze log file.")) in
             call (onErrorChange props) (OnErrorChange message)
         end
      ++ call (onLoadingChange props) (OnLoadingChange false)
  end.

(** The props [App] passes. *)
Definition app_props : Props := MkProps true true true.

End FileUploadUi.

(** * Verification *)

(** ** Properties of the pattern-based classifier *)

Module AiServiceFacts.
Import CharClass RegExp Value AiService.

(** [String.prototype.includes] *)
Fixpoint starts_with (needle hay : list N) : bool :=
  match needle, hay with
  | [], _ => true
  | x :: n', y :: h' => N.eqb x y && starts_with n' h'
  | _ :: _, [] => false
  end.
Fixpoint includes (hay needle : list N) : bool :=
  starts_with needle hay ||
  match hay with
  | [] => false
  | _ :: h' => includes h' needle
  end.

Definition severities : list (list N) :=
  [js "Low"; js "Medium"; js "High"; js "Critical"].

Definition nonempty {A} (l : list A) : bool :=
  match l with [] => false | _ => true end.

(** All the fields of a record carry content and the confidence is a
    percentage. [relatedLogs] is a list in every record; it is empty in
    the record of a log without findings. *)
Definition populated (a : Analysis) : bool :=
  nonempty (issueType a) && nonempty (rootCause a) &&
  nonempty (suggestedFix a) &&
  existsb (fun s => bool_decide (severity a = s)) severities &&
  nonempty (category a) &&
  (0 <=? confidence a)%Z && (confidence a <=? 100)%Z.

(** The ten records the classifier can produce. *)
Definition templates : list Analysis :=
  initial :: generic_detected :: List.map (fun p => update p initial) patterns.

Lemma classify_template text : List.In (classify text) templates.
Proof.
  unfold classify, templates.
  destruct (List.find _ patterns) as [p|] eqn:E.
  - apply List.find_some in E as [Hin _].
    right; right.
    now apply (List.in_map (fun q => update q initial)).
  - destruct (RegExp.test error_keyword text); simpl; auto.
Qed.

Lemma templates_populated :
  List.forallb populated templates = true.
Proof. vm_compute. reflexivity. Qed.

Lemma classify_populated text : populated (classify text) = true.
Proof.
  pose proof templates_populated as H.
  rewrite List.forallb_forall in H. apply H, classify_template.
Qed.

(** [Array.prototype.find] returns the first entry that passes. *)
Lemma find_first {A} (f : A -> bool) (before : list A) (p : A) (after : list A) :
  List.Forall (fun q => f q = false) before -> f p = true ->
  List.find f (before ++ p :: after) = Some p.
Proof.
  induction 1 as [|q before Hq _ IH]; intros Hp; simpl.
  - now rewrite Hp.
  - rewrite Hq. now apply IH.
Qed.

End AiServiceFacts.

Module AiServiceSpec.
Import CharClass RegExp Value AiService AiServiceFacts.

(** C4: the rule list is tried from the top and the first rule whose
    pattern matches decides the record. Whatever precedes a matching rule
    in [patterns] and does not match is skipped, and the rules after it
    are not consulted; so a text matching both the HTTP 5xx pattern and
    the generic exception pattern gets the HTTP 5xx record, not the
    runtime-error one. *)
Theorem first_match_wins (text : list N) :
  (forall before p after,
      patterns = before ++ p :: after ->
      List.Forall (fun q => RegExp.test (match_ q) text = false) before ->
      RegExp.test (match_ p) text = true ->
      classify text = update p initial) /\
  (RegExp.test (match_ http_5xx) text = true ->
   RegExp.test (match_ generic_error) text = true ->
   classify text = update http_5xx initial /\
   issueType (classify text) = js "HTTP 5xx server error" /\
   issueType (classify text) <> issueType (update generic_error initial)).
Proof.
  assert (G : forall before p after,
      patterns = before ++ p :: after ->
      List.Forall (fun q => RegExp.test (match_ q) text = false) before ->
      RegExp.test (match_ p) text = true ->
      classify text = update p initial).
  { intros before p after E Hb Hp. unfold classify. rewrite E.
    now rewrite (find_first (fun q => RegExp.test (match_ q) text)
                   before p after Hb Hp). }
  split; [exact G|].
  intros H5 _.
  rewrite (G [] http_5xx (List.tl patterns) eq_refl (List.Forall_nil _) H5).
  repeat split. intros E. vm_compute in E. discriminate.
Qed.

Definition both_markers : list N :=
  js "GET /api/users HTTP 500 - unhandled Exception in handler".

Lemma first_match_wins_witness :
  RegExp.test (match_ http_5xx) both_markers = true /\
  RegExp.test (match_ generic_error) both_markers = true /\
  issueType (classify both_markers) = js "HTTP 5xx server error".
Proof.
  set (text := both_markers).
  assert (H5 : RegExp.test (match_ http_5xx) text = true)
    by (vm_compute; reflexivity).
  assert (Hg : RegExp.test (match_ generic_error) text = true)
    by (vm_compute; reflexivity).
  split; [exact H5|]. split; [exact Hg|].
  exact (proj1 (proj2 (proj2 (first_match_wins text) H5 Hg))).
Defined.

Definition scenario : list N :=
  js "2024-01-01 10:00:00 ECONNREFUSED connecting to postgres database".

(** C5: on the log line
    [2024-01-01 10:00:00 ECONNREFUSED connecting to postgres database]
    the classifier returns category [database], severity [Critical] and
    an issue type containing [Database connection failure]: the
    [db_connection] rule is the one [find] returns, the two rules before
    it do not match. *)
Theorem db_connection_scenario :
  category (classify scenario) = js "database" /\
  severity (classify scenario) = js "Critical" /\
  includes (issueType (classify scenario))
           (js "Database connection failure") = true /\
  option_map name
    (List.find (fun p => RegExp.test (match_ p) scenario) patterns)
    = Some (js "db_connection") /\
  RegExp.test (match_ http_5xx) scenario = false /\
  RegExp.test (match_ timeout) scenario = false /\
  RegExp.test (match_ db_connection) scenario = true.
Proof. vm_compute. repeat split; reflexivity. Qed.






End AiServiceSpec.

Module AnalyzeRouteSpec.
Import Json JsString Effects AnalyzeRoute.

Lemma filePath_nonempty env file : filePath env file <> [].
Proof.
  unfold filePath. destruct (path file); [|discriminate].
  destruct (uploadDir env); discriminate.
Qed.

Lemma or_else_truthy a b : truthy b = true -> truthy (or_else a b) = true.
Proof. unfold or_else. now destruct (truthy a) eqn:E. Qed.

(** C2: for an upload whose text is not blank, when the classifier call
    gives nothing ([undefined], [null]) or an object with
    [success: false], the route answers 200 with [success: true],
    [fallback: true] and the complete substitute record (its root cause
    is the message of the classifier's error when there is one); the
    failure does not reach the caller as an error response. *)
Theorem classifier_failure_gives_fallback
        (env : Env) (file : Upload) (logText : list N) (aiResult : json) :
  readFile env (filePath env file) = Ok logText ->
  trim logText <> [] ->
  analyzeWithAI env logText = Ok aiResult ->
  truthy aiResult = false \/ prop (js "success") aiResult = JBool false ->
  let r := analyze env (Some file) in
  let a := prop (js "analysis") (body r) in
  status r = 200%Z /\
  prop (js "success") (body r) = JBool true /\
  prop (js "fallback") (body r) = JBool true /\
  prop (js "error") (body r) = JUndefined /\
  prop (js "issueType") a = JStr (js "Analysis service unavailable") /\
  truthy (prop (js "rootCause") a) = true /\
  prop (js "suggestedFix") a =
    strings [js "Check the backend logs for AI service errors.";
             js "Verify GEMINI_API_KEY and network access to the Gemini API."] /\
  prop (js "severity") a = JStr (js "Medium") /\
  prop (js "category") a = JStr (js "configuration") /\
  prop (js "confidence") a = JInt 50 /\
  prop (js "relatedLogs") a =
    strings [js "AI service error"; js "Gemini API"; js "GEMINI_API_KEY"].
Proof.
  intros Hread Hblank Hai Hfail r a. subst a r. unfold analyze.
  destruct (filePath env file) as [|x p] eqn:Ep.
  { now destruct (filePath_nonempty env file). }
  rewrite Hread.
  assert (Hne : negb (truthy (JStr logText))
                || bool_decide (trim logText = []) = false).
  { rewrite bool_decide_eq_false_2 by assumption.
    destruct logText; [now destruct Hblank|reflexivity]. }
  rewrite Hne, Hai.
  assert (Hf : negb (truthy aiResult)
               || is_false (prop (js "success") aiResult) = true).
  { destruct Hfail as [H|H]; rewrite H; [reflexivity|].
    now rewrite orb_true_r. }
  rewrite Hf.
  repeat split; try (vm_compute; reflexivity).
  change (truthy (or_else (opt_prop (js "message")
                             (opt_prop (js "error") aiResult))
                    (JStr (js "The AI analysis service is currently unavailable or returned an invalid response.")))
          = true).
  now apply or_else_truthy.
Qed.

Definition sample_upload : Upload :=
  MkUpload (js "app.log") (js "/srv/uploads/file-1.log") (js "file-1.log") 26.

(** A classifier that reports a failure. *)
Definition failing_env : Env :=
  MkEnv (js "/srv/uploads")
    (fun _ => Ok (js "Error: Something went wrong"))
    (fun _ => Ok (obj [(js "success", JBool false);
                       (js "error",
                        obj [(js "message", JStr (js "quota exceeded"))])]))
    false (fun m => m).

Lemma classifier_failure_gives_fallback_witness :
  status (analyze failing_env (Some sample_upload)) = 200%Z /\
  prop (js "fallback") (body (analyze failing_env (Some sample_upload)))
    = JBool true /\
  prop (js "rootCause")
    (prop (js "analysis") (body (analyze failing_env (Some sample_upload))))
    = JStr (js "quota exceeded").
Proof.
  assert (H := classifier_failure_gives_fallback failing_env sample_upload
                 (js "Error: Something went wrong")
                 (obj [(js "success", JBool false);
                       (js "error",
                        obj [(js "message", JStr (js "quota exceeded"))])])
                 eq_refl
                 ltac:(vm_compute; discriminate)
                 eq_refl
                 (or_intror eq_refl)).
  cbv zeta in H.
  destruct H as (H1 & _ & H3 & _).
  split; [exact H1|]. split; [exact H3|].
  vm_compute. reflexivity.
Defined.

End AnalyzeRouteSpec.

(** ** Properties of the Gemini-backed service *)

Module GeminiFacts.
Import Json JsString Effects GeminiService.

(** *** Blank text *)

Lemma trim_start_nil s :
  trim_start s = [] <-> forallb CharClass.is_space s = true.
Proof.
  induction s as [|x s IH]; simpl; [tauto|].
  destruct (CharClass.is_space x); simpl; [exact IH|].
  split; discriminate.
Qed.

Lemma trim_start_head s x t :
  trim_start s = x :: t -> CharClass.is_space x = false.
Proof.
  induction s as [|y s IH]; simpl; [discriminate|].
  destruct (CharClass.is_space y) eqn:E; [exact IH|].
  intros [= -> _]. exact E.
Qed.

(** [trim] leaves nothing exactly of the texts made of white space. *)
Lemma trim_nil s : trim s = [] <-> forallb CharClass.is_space s = true.
Proof.
  unfold trim. split.
  - intros H. apply (f_equal (@List.rev N)) in H.
    rewrite List.rev_involutive in H. simpl in H.
    apply trim_start_nil in H. rewrite List.forallb_forall in H.
    destruct (trim_start s) as [|x t] eqn:E.
    + now apply trim_start_nil.
    + apply trim_start_head in E.
      rewrite (H x) in E; [discriminate|].
      apply List.in_rev. rewrite List.rev_involutive. now left.
  - intros H. apply trim_start_nil in H. now rewrite H.
Qed.

Lemma byteLength_repeat_ascii (x : N) (n : nat) :
  x < 128 -> Utf8.byteLength (List.repeat x n) = N.of_nat n.
Proof.
  intros Hx. unfold Utf8.byteLength. f_equal.
  induction n as [|n IH]; simpl; [reflexivity|].
  apply N.ltb_lt in Hx. rewrite Hx. simpl. now rewrite IH.
Qed.

Lemma repeat_not_blank (x : N) (n : nat) :
  CharClass.is_space x = false -> (0 < n)%nat ->
  forallb CharClass.is_space (List.repeat x n) = false.
Proof.
  intros Hx Hn. destruct n as [|n]; [lia|]. simpl. now rewrite Hx.
Qed.

(** Time passes. *)
Definition later (ms : Z) (w : World) : World :=
  MkWorld (now w + ms) (files w) (writable w) (events w).

(** *** The trace only grows *)

Definition grows {A} (c : M A) : Prop :=
  forall w, exists l, events (snd (c w)) = events w ++ l.

Lemma grows_ret {A} (a : A) : grows (ret a).
Proof. intros w. exists []. simpl. now rewrite List.app_nil_r. Qed.

Lemma grows_throw {A} msg : grows (@throw A msg).
Proof. intros w. exists []. simpl. now rewrite List.app_nil_r. Qed.

Lemma grows_raise {A} e : grows (@raise A e).
Proof. intros w. exists []. simpl. now rewrite List.app_nil_r. Qed.

Lemma grows_bind {A B} (c : M A) (k : A -> M B) :
  grows c -> (forall a, grows (k a)) -> grows (bind c k).
Proof.
  intros Hc Hk w. unfold bind. destruct (Hc w) as [l Hl].
  destruct (c w) as [[a|e] w']; simpl in *.
  - destruct (Hk a w') as [l' Hl']. exists (l ++ l').
    now rewrite Hl', Hl, List.app_assoc.
  - now exists l.
Qed.

Lemma grows_try {A} (c : M A) (h : Error -> M A) :
  grows c -> (forall e, grows (h e)) -> grows (try_catch c h).
Proof.
  intros Hc Hh w. unfold try_catch. destruct (Hc w) as [l Hl].
  destruct (c w) as [[a|e] w']; simpl in *.
  - now exists l.
  - destruct (Hh e w') as [l' Hl']. exists (l ++ l').
    now rewrite Hl', Hl, List.app_assoc.
Qed.

Lemma grows_tell e : grows (tell e).
Proof. intros w. now exists [e]. Qed.

Lemma grows_state {A} (f : World -> Outcome A * World) :
  (forall w, events (snd (f w)) = events w) -> grows f.
Proof. intros H w. exists []. now rewrite H, List.app_nil_r. Qed.

Lemma grows_Date_now : grows Date_now.
Proof. now apply grows_state. Qed.

Lemma grows_elapse ms : grows (elapse ms).
Proof. now apply grows_state. Qed.

Lemma grows_fs_stat path : grows (fs_stat path).
Proof.
  apply grows_bind; [apply grows_tell|]. intros _. apply grows_state.
  intros w. now destruct (files w !! path).
Qed.

Lemma grows_fs_readFile path : grows (fs_readFile path).
Proof.
  apply grows_bind; [apply grows_tell|]. intros _. apply grows_state.
  intros w. now destruct (files w !! path).
Qed.

Lemma grows_fs_mkdir dir : grows (fs_mkdir dir).
Proof.
  apply grows_bind; [apply grows_tell|]. intros _. apply grows_state.
  intros w. now destruct (writable w).
Qed.

Lemma grows_fs_writeFile path text : grows (fs_writeFile path text).
Proof.
  apply grows_bind; [apply grows_tell|]. intros _. apply grows_state.
  intros w. now destruct (writable w).
Qed.

Create HintDb grows.

#[export] Hint Resolve grows_ret grows_throw grows_raise grows_tell
  grows_Date_now grows_elapse grows_fs_stat grows_fs_readFile grows_fs_mkdir
  grows_fs_writeFile : grows.

Ltac grows_step :=
  match goal with
  | |- grows (bind _ _) => apply grows_bind; [|intros ?]
  | |- grows (try_catch _ _) => apply grows_try; [|intros ?]
  | |- grows (if ?b then _ else _) => destruct b
  | |- grows (match ?x with _ => _ end) => destruct x
  | |- grows (let (_, _) := ?x in _) => destruct x
  | |- _ => solve [auto with grows]
  end.

Lemma grows_JSON_parse env text : grows (JSON_parse env text).
Proof. unfold JSON_parse. repeat grows_step. Qed.

Lemma grows_getCachedResult env hash : grows (getCachedResult env hash).
Proof.
  unfold getCachedResult. repeat grows_step; auto using grows_JSON_parse.
Qed.

Lemma grows_saveToCache env hash result : grows (saveToCache env hash result).
Proof. unfold saveToCache, toISOString. repeat grows_step. Qed.

Lemma grows_generate env prompt : grows (generate env prompt).
Proof. unfold generate. repeat grows_step. Qed.

Lemma grows_parseAndStore env t0 log red hash text :
  grows (parseAndStore env t0 log red hash text).
Proof.
  unfold parseAndStore, missing, toISOString.
  repeat grows_step; auto using grows_JSON_parse, grows_saveToCache.
Qed.

(** A computation whose first events are known. *)
Lemma tell_starts {A} (e : Event) (pre : list Event) (rest : M A) :
  (forall w, exists l, events (snd (rest w)) = events w ++ pre ++ l) ->
  forall w,
  exists l,
    events (snd (bind (tell e) (fun _ => rest) w)) = events w ++ (e :: pre) ++ l.
Proof.
  intros H w. unfold bind, tell.
  match goal with |- context [rest ?w1] => destruct (H w1) as [l Hl] end.
  exists l. rewrite Hl. simpl. now rewrite <- List.app_assoc.
Qed.

Lemma try_starts {A} (pre : list Event) (c : M A) (h : Error -> M A) w :
  (exists l, events (snd (c w)) = events w ++ pre ++ l) ->
  (forall e, grows (h e)) ->
  exists l, events (snd (try_catch c h w)) = events w ++ pre ++ l.
Proof.
  intros [l Hl] Hh. unfold try_catch.
  destruct (c w) as [[a|e] w']; simpl in *.
  - now exists l.
  - destruct (Hh e w') as [l' Hl']. exists (l ++ l').
    now rewrite Hl', Hl, <- !List.app_assoc.
Qed.

(** The object the outer [catch] returns for an error without a [code],
    [elapsed] milliseconds after the start. *)
Definition rejection (env : Env) (msg : list N) (elapsed : Z) : json :=
  obj [(js "success", JBool false);
       (js "error",
        obj [(js "message", JStr msg);
             (js "code", JStr (js "AI_SERVICE_ERROR"));
             (js "stack",
              if development env then JStr (stackOf env msg) else JUndefined);
             (js "processingTimeMs", JInt elapsed)]);
       (js "metadata", obj [(js "processingTimeMs", JInt elapsed)])].

(** A service that never answers, and a world without cache entries. *)
Definition silent : Env :=
  MkEnv (js "/srv/app") (fun _ _ => (30000%Z, NoResponse))
    (fun _ => js "Unexpected token") false (fun m => m).

Definition empty_world : World := MkWorld 1700000000000 ∅ true [].

End GeminiFacts.

Module GeminiSpec.
Import Json JsString Effects GeminiService GeminiFacts.

(** C7: validation comes first. A text that is empty or made of white space
    is rejected with the empty-input error, and a text whose UTF-8 length
    exceeds [MAX_LOG_SIZE] (5 MB; one byte over is enough) with the size
    error; in both cases the world is left as it was: nothing was redacted,
    fingerprinted, looked up, stored or sent. A text of at most the maximum
    size (exactly 5 MB included) passes: the next things the service does
    are the redaction and the fingerprint. The route makes the blank-text
    test itself, on the uploaded text and before it calls the classifier:
    it answers 400, whatever the classifier would say. *)
Theorem validation_comes_first (env : Env) (w : World) (log : list N)
        (force : bool) :
  MAX_LOG_SIZE CONFIG = 5242880 /\
  (forallb CharClass.is_space log = true ->
   analyzeWithAI env (Value.Str log) force w
   = (Ok (rejection env (js "Log content is empty or invalid") 0), w)) /\
  (forallb CharClass.is_space log = false ->
   MAX_LOG_SIZE CONFIG < Utf8.byteLength log ->
   analyzeWithAI env (Value.Str log) force w
   = (Ok (rejection env (js "Log exceeds maximum size of 5MB") 0), w)) /\
  (forallb CharClass.is_space log = false ->
   Utf8.byteLength log <= MAX_LOG_SIZE CONFIG ->
   exists rest,
     events (snd (analyzeWithAI env (Value.Str log) force w))
     = events w ++ Redacted :: Fingerprinted :: rest) /\
  (forall (route : AnalyzeRoute.Env) (file : AnalyzeRoute.Upload),
     AnalyzeRoute.readFile route (AnalyzeRoute.filePath route file) = Ok log ->
     forallb CharClass.is_space log = true ->
     AnalyzeRoute.analyze route (Some file)
     = AnalyzeRoute.MkResponse 400
         (obj [(js "success", JBool false);
               (js "error", JStr (js "The uploaded file is empty"))])).
Proof.
  split; [reflexivity|].
  assert (Hblank : forall b, forallb CharClass.is_space log = b ->
            negb (Value.truthy (Value.Str log)) || bool_decide (trim log = [])
            = b).
  { intros [] H.
    - apply trim_nil in H. rewrite bool_decide_eq_true_2 by exact H.
      apply orb_true_r.
    - rewrite bool_decide_eq_false_2.
      + destruct log; [discriminate H|reflexivity].
      + intros E. apply trim_nil in E. congruence. }
  split; [|split; [|split]].
  - intros H. unfold analyzeWithAI, bind, try_catch, Date_now.
    rewrite (Hblank true H). simpl. unfold rejection.
    now rewrite Z.sub_diag.
  - intros H Hsize. unfold analyzeWithAI, bind, try_catch, Date_now.
    rewrite (Hblank false H). apply N.ltb_lt in Hsize. rewrite Hsize.
    simpl. unfold rejection. now rewrite Z.sub_diag.
  - intros H Hsize. unfold analyzeWithAI.
    unfold bind at 1. unfold Date_now at 1. unfold try_catch.
    rewrite (Hblank false H).
    apply N.le_ngt in Hsize.
    destruct (MAX_LOG_SIZE CONFIG <? Utf8.byteLength log) eqn:E;
      [now apply N.ltb_lt in E|].
    apply (try_starts [Redacted; Fingerprinted]).
    + apply (tell_starts Redacted [Fingerprinted]). intros w1.
      apply (tell_starts Fingerprinted []). intros w2. simpl.
      apply grows_bind.
      * destruct force; auto using grows_getCachedResult with grows.
      * intros cached. destruct (truthy cached); [auto with grows|].
        apply grows_bind; auto using grows_generate, grows_parseAndStore.
    + intros e. repeat grows_step.
  - intros route file Hread H. unfold AnalyzeRoute.analyze.
    destruct (AnalyzeRoute.filePath route file) as [|x p] eqn:Ep.
    { now destruct (AnalyzeRouteSpec.filePath_nonempty route file). }
    rewrite Hread.
    apply trim_nil in H. rewrite (bool_decide_eq_true_2 _ H).
    now rewrite orb_true_r.
Qed.

Definition letters (n : N) : list N := List.repeat 97 (N.to_nat n).

(** A route whose upload holds two spaces. *)
Definition blank_upload : AnalyzeRoute.Env :=
  AnalyzeRoute.MkEnv (js "/srv/uploads") (fun _ => Ok (js "  "))
    (fun _ => Ok JNull) false (fun m => m).

Lemma validation_comes_first_witness :
  analyzeWithAI silent (Value.Str (js "  ")) false empty_world
  = (Ok (rejection silent (js "Log content is empty or invalid") 0), empty_world) /\
  analyzeWithAI silent (Value.Str (letters 5242881)) false empty_world
  = (Ok (rejection silent (js "Log exceeds maximum size of 5MB") 0), empty_world) /\
  (exists rest,
    events (snd (analyzeWithAI silent (Value.Str (letters 5242880)) false empty_world))
    = events empty_world ++ Redacted :: Fingerprinted :: rest) /\
  AnalyzeRoute.status
    (AnalyzeRoute.analyze blank_upload (Some AnalyzeRouteSpec.sample_upload))
  = 400%Z.
Proof.
  assert (Hlen : forall n, Utf8.byteLength (letters n) = n).
  { intros n. unfold letters.
    rewrite byteLength_repeat_ascii by reflexivity. apply N2Nat.id. }
  assert (Hnb : forall n, 0 < n ->
            forallb CharClass.is_space (letters n) = false).
  { intros n Hn. apply repeat_not_blank; [reflexivity|lia]. }
  split; [|split; [|split]].
  - apply (proj1 (proj2 (validation_comes_first silent empty_world (js "  ") false))).
    reflexivity.
  - apply (proj1 (proj2 (proj2
             (validation_comes_first silent empty_world (letters 5242881) false)))).
    + apply Hnb. reflexivity.
    + rewrite Hlen. reflexivity.
  - apply (proj1 (proj2 (proj2 (proj2
             (validation_comes_first silent empty_world (letters 5242880) false))))).
    + apply Hnb. reflexivity.
    + rewrite Hlen. discriminate.
  - rewrite (proj2 (proj2 (proj2 (proj2
               (validation_comes_first silent empty_world (js "  ") false))))
               blank_upload AnalyzeRouteSpec.sample_upload eq_refl eq_refl).
    reflexivity.
Defined.

(** C8: an entry older than the time to live (24 hours) is never served.
    [getCachedResult] compares the clock with the modification time of the
    entry's file on every read and answers [null] when more than
    [CACHE_TTL] has passed; it leaves the file where it is. The
    modification time is the time of the write: a read more than 24 hours
    after [saveToCache] finds the file and gives [null]. *)
Theorem expired_entry_is_absent (env : Env) (w : World) (hash : list N) :
  CACHE_TTL CONFIG = 86400000%Z /\
  (forall f,
      files w !! getCachePath env hash = Some f ->
      (now w - mtimeMs f > CACHE_TTL CONFIG)%Z ->
      fst (getCachedResult env hash w) = Ok JNull /\
      files (snd (getCachedResult env hash w)) = files w) /\
  (forall result ms,
      writable w = true ->
      (ms > CACHE_TTL CONFIG)%Z ->
      let w1 := snd (saveToCache env hash result w) in
      (exists text,
          files w1 !! getCachePath env hash = Some (MkFile (now w) text)) /\
      fst (getCachedResult env hash (later ms w1)) = Ok JNull /\
      files (snd (getCachedResult env hash (later ms w1))) = files w1).
Proof.
  assert (G : forall w f,
      files w !! getCachePath env hash = Some f ->
      (now w - mtimeMs f > CACHE_TTL CONFIG)%Z ->
      fst (getCachedResult env hash w) = Ok JNull /\
      files (snd (getCachedResult env hash w)) = files w).
  { intros w0 f Hf Hold.
    unfold getCachedResult, try_catch, fs_stat, bind, tell, Date_now. simpl.
    rewrite Hf. simpl.
    match goal with
    | |- context [(?a >? ?b)%Z] =>
        replace (a >? b)%Z with true
          by (symmetry; apply Z.gtb_lt; change b with (CACHE_TTL CONFIG); lia)
    end.
    now split. }
  split; [reflexivity|]. split; [exact (G w)|].
  intros result ms Hw Hms w1.
  assert (E : exists text,
             files w1 !! getCachePath env hash = Some (MkFile (now w) text)
             /\ now w1 = now w).
  { subst w1.
    unfold saveToCache, try_catch, fs_mkdir, fs_writeFile, toISOString,
      bind, tell, Date_now, ret. simpl. rewrite Hw. simpl.
    eexists. split; [apply lookup_insert_eq|reflexivity]. }
  destruct E as (text & Hfile & Hnow).
  split; [now exists text|].
  apply (G (later ms w1) (MkFile (now w) text)).
  - exact Hfile.
  - change (CACHE_TTL CONFIG) with 86400000%Z in *. simpl. rewrite Hnow. lia.
Qed.

Definition an_entry : File := MkFile 1700000000000 (js "{}").

Definition day_later : World :=
  MkWorld (1700000000000 + 86400001)
    (<[getCachePath silent (js "abc") := an_entry]> ∅) true [].

Lemma expired_entry_is_absent_witness :
  fst (getCachedResult silent (js "abc") day_later) = Ok JNull /\
  files (snd (getCachedResult silent (js "abc") day_later))
  = files day_later /\
  (exists text,
      files (snd (saveToCache silent (js "abc") (JObj []) empty_world))
        !! getCachePath silent (js "abc")
      = Some (MkFile (now empty_world) text)) /\
  fst (getCachedResult silent (js "abc")
         (later 86400001 (snd (saveToCache silent (js "abc") (JObj []) empty_world))))
  = Ok JNull.
Proof.
  destruct (expired_entry_is_absent silent day_later (js "abc"))
    as (_ & H & _).
  destruct (H an_entry) as [H1 H2].
  - apply lookup_insert_eq.
  - reflexivity.
  - destruct (expired_entry_is_absent silent empty_world (js "abc"))
      as (_ & _ & H').
    destruct (H' (JObj []) 86400001%Z eq_refl eq_refl) as (H3 & H4 & _).
    repeat split; assumption.
Defined.

End GeminiSpec.

(** ** The extraction pattern of the Gemini service *)

Module Extraction.
Import CharClass RegExp Json JsString Effects GeminiService.

(** The input up to and including its last closing brace, and what follows
    it. *)
Fixpoint upto_last_close (s : list N) : option (list N * list N) :=
  match s with
  | [] => None
  | x :: s' =>
      match upto_last_close s' with
      | Some (a, b) => Some (x :: a, b)
      | None => if x =? 125 then Some ([x], s') else None
      end
  end.

(** The leftmost opening brace that has a closing brace after it, with the
    text before it, the text from it to the last closing brace, and the
    rest. *)
Fixpoint extract (s : list N) : option (list N * list N * list N) :=
  match s with
  | [] => None
  | x :: s' =>
      match (if x =? 123 then upto_last_close s' else None) with
      | Some (a, b) => Some ([], x :: a, b)
      | None =>
          match extract s' with
          | Some (pre, mt, post) => Some (x :: pre, mt, post)
          | None => None
          end
      end
  end.

(** What the greedy [[\s\S]*] does before a continuation: the longest rest
    first. *)
Fixpoint greedy {X} (k : option N -> list N -> option X)
         (p : option N) (s : list N) : option X :=
  match s with
  | [] => k p []
  | x :: s' =>
      match greedy k (Some x) s' with
      | Some r => Some r
      | None => k p s
      end
  end.

Lemma star_any {X} (k : option N -> list N -> option X) s :
  forall fuel p,
    (length s < fuel)%nat ->
    rep_loop (m false (Chr any)) true k fuel 0 None p s = greedy k p s.
Proof.
  induction s as [|x s IH]; intros fuel p Hf;
    (destruct fuel as [|fuel]; [simpl in Hf; lia|]); simpl.
  - reflexivity.
  - assert (E : Nat.eqb (length s) (S (length s)) = false)
      by (apply Nat.eqb_neq; lia).
    rewrite E. rewrite IH by (simpl in Hf; lia). reflexivity.
Qed.

Definition close_then (p : option N) (s : list N)
  : option (option N * list N) :=
  m false (Chr (one 125)) p s (fun p' s' => Some (p', s')).

Lemma one_matches a x : matches false (one a) x = (x =? a).
Proof.
  unfold matches, mem, one, in_ranges; simpl.
  rewrite !orb_false_r.
  destruct (N.eqb_spec x a) as [->|Hne].
  - now rewrite N.leb_refl.
  - destruct (N.leb_spec a x), (N.leb_spec x a); simpl; try reflexivity. lia.
Qed.

Lemma greedy_close s p :
  greedy close_then p s
  = match upto_last_close s with
    | Some (_, b) => Some (Some 125, b)
    | None => None
    end.
Proof.
  revert p. induction s as [|x s IH]; intros p; simpl; [reflexivity|].
  rewrite IH. destruct (upto_last_close s) as [[a b]|]; [reflexivity|].
  unfold close_then. simpl. rewrite one_matches.
  destruct (N.eqb_spec x 125) as [->|]; reflexivity.
Qed.

Lemma match_at_json p s :
  match_at false (pattern jsonPattern) p s
  = match s with
    | x :: s' =>
        if x =? 123 then
          match upto_last_close s' with
          | Some (_, b) => Some (Some 125, b)
          | None => None
          end
        else None
    | [] => None
    end.
Proof.
  destruct s as [|x s]; [reflexivity|].
  unfold match_at. simpl. rewrite one_matches.
  destruct (x =? 123); [|reflexivity].
  etransitivity; [|apply (greedy_close s (Some x))].
  apply (star_any close_then s (length s + 1) (Some x)). lia.
Qed.

Lemma search_json s :
  forall p,
    search false (pattern jsonPattern) p s
    = match extract s with
      | Some (pre, _, post) => Some (length pre, (Some 125, post))
      | None => None
      end.
Proof.
  induction s as [|x s IH]; intros p.
  - reflexivity.
  - cbn [search extract]. rewrite match_at_json.
    destruct (x =? 123).
    + destruct (upto_last_close s) as [[a b]|]; [reflexivity|].
      rewrite IH. now destruct (extract s) as [[[pre mt] post]|].
    + rewrite IH. now destruct (extract s) as [[[pre mt] post]|].
Qed.

Lemma upto_last_close_split s a b :
  upto_last_close s = Some (a, b) ->
  s = a ++ b /\ (exists mid, a = mid ++ [125]) /\ ~ List.In 125 b.
Proof.
  revert a b. induction s as [|x s IH]; intros a b; simpl; [discriminate|].
  destruct (upto_last_close s) as [[a' b']|] eqn:E.
  - intros [= <- <-]. destruct (IH a' b' eq_refl) as (-> & [mid ->] & Hb).
    repeat split; auto. now exists (x :: mid).
  - destruct (N.eqb_spec x 125) as [->|]; [|discriminate].
    intros [= <- <-]. repeat split; [now exists []|].
    clear IH. induction s as [|y s IH]; simpl in *; [tauto|].
    destruct (upto_last_close s) as [[? ?]|]; [discriminate|].
    destruct (N.eqb_spec y 125); [discriminate|].
    intros [H|H]; [congruence|]. now apply IH.
Qed.

Lemma upto_last_close_none s :
  upto_last_close s = None -> ~ List.In 125 s.
Proof.
  induction s as [|x s IH]; simpl; [tauto|].
  destruct (upto_last_close s) as [[a b]|]; [discriminate|].
  destruct (N.eqb_spec x 125); [discriminate|].
  intros _ [H|H]; [congruence|]. now apply IH.
Qed.

Lemma extract_none_of_no_close s :
  ~ List.In 125 s -> extract s = None.
Proof.
  induction s as [|x s IH]; simpl; [reflexivity|]. intros H.
  assert (Hs : ~ List.In 125 s) by tauto.
  rewrite (IH Hs).
  destruct (upto_last_close s) as [[a b]|] eqn:E.
  - apply upto_last_close_split in E as (-> & [mid ->] & _).
    exfalso. apply Hs. rewrite !List.in_app_iff. simpl. tauto.
  - now destruct (x =? 123).
Qed.

(** The extracted text runs from the first opening brace of the input to
    its last closing brace. *)
Lemma extract_split s pre mt post :
  extract s = Some (pre, mt, post) ->
  s = pre ++ mt ++ post /\
  (exists mid, mt = 123 :: mid ++ [125]) /\
  ~ List.In 123 pre /\ ~ List.In 125 post.
Proof.
  revert pre. induction s as [|x s IH]; intros pre; simpl; [discriminate|].
  destruct (N.eqb_spec x 123) as [->|Hx].
  - destruct (upto_last_close s) as [[a b]|] eqn:E.
    + intros [= <- <- <-].
      apply upto_last_close_split in E as (-> & [mid ->] & Hb).
      repeat split; auto. now exists mid.
    + rewrite (extract_none_of_no_close s (upto_last_close_none s E)).
      discriminate.
  - destruct (extract s) as [[[pre' mt'] post']|]; [|discriminate].
    intros [= <- <- <-].
    destruct (IH pre' eq_refl) as (-> & Hm & Hpre & Hpost).
    repeat split; auto. intros [H|H]; [congruence|tauto].
Qed.

(** Without an opening brace followed by a closing one nothing is
    extracted. *)
Lemma extract_none s :
  extract s = None ->
  forall pre mid post, s <> pre ++ 123 :: mid ++ 125 :: post.
Proof.
  induction s as [|x s IH]; simpl; intros H pre mid post E.
  - now destruct pre.
  - destruct (extract s) as [[[? ?] ?]|] eqn:Es.
    { destruct (x =? 123); [destruct (upto_last_close s) as [[? ?]|]|];
        discriminate. }
    destruct pre as [|y pre]; simpl in E; injection E as -> ->.
    + rewrite N.eqb_refl in H.
      destruct (upto_last_close (mid ++ 125 :: post)) as [[? ?]|] eqn:E2;
        [discriminate|].
      apply upto_last_close_none in E2. apply E2.
      rewrite List.in_app_iff. simpl. tauto.
    + now apply (IH eq_refl pre mid post).
Qed.

(** [text.match(/\{[\s\S]*\}/)] *)
Lemma match_json text :
  match_ jsonPattern text
  = match extract text with
    | Some (_, mt, _) => Some mt
    | None => None
    end.
Proof.
  unfold match_. change (ignoreCase jsonPattern) with false.
  rewrite search_json.
  destruct (extract text) as [[[pre mt] post]|] eqn:E; [|reflexivity].
  apply extract_split in E as (-> & _). f_equal.
  rewrite List.skipn_app, List.skipn_all, Nat.sub_diag. simpl.
  rewrite !List.length_app.
  replace (length pre + (length mt + length post) - length pre - length post)%nat
    with (length mt) by lia.
  rewrite List.skipn_O.
  now rewrite List.firstn_app, List.firstn_all, Nat.sub_diag, List.app_nil_r.
Qed.

End Extraction.

(** ** The adapter: extraction, parsing and validation *)

Module AdapterFacts.
Import CharClass RegExp Json JsString Effects GeminiService Extraction.

Lemma get_set k k' v m :
  get k (set k' v m) = if bool_decide (k' = k) then Some v else get k m.
Proof.
  induction m as [|[k0 v0] m IH]; simpl.
  - reflexivity.
  - destruct (bool_decide_reflect (k0 = k')) as [->|Hne]; simpl.
    + now destruct (bool_decide (k' = k)).
    + rewrite IH.
      destruct (bool_decide_reflect (k0 = k)) as [->|];
        [|reflexivity].
      now rewrite bool_decide_eq_false_2 by congruence.
Qed.

(** A text that starts with an opening brace parses to an object, if it
    parses. *)
Lemma parse_object rest v :
  Json.parse (123 :: rest) = Some v -> exists m, v = JObj m.
Proof.
  unfold Json.parse.
  generalize (2 * length (123%N :: rest) + 2)%nat. intros [|fuel];
    [discriminate|].
  cbn [parse_value skip_ws].
  change (is_ws 123) with false. cbv iota. change (123 =? 123) with true.
  cbv iota.
  destruct (skip_ws rest) as [|y s2]; [discriminate|].
  destruct (y =? 125).
  - destruct (skip_ws s2); [|discriminate]. intros [= <-]. now exists [].
  - destruct (parse_members _ rest []) as [[m r]|]; [|discriminate].
    destruct (skip_ws r); [|discriminate]. intros [= <-]. now exists m.
Qed.

Lemma saveToCache_returns env hash result w :
  fst (saveToCache env hash result w) = Ok tt.
Proof.
  unfold saveToCache, try_catch.
  match goal with |- context [bind ?a ?b w] => destruct (bind a b w) as [[[]|e] w'] end;
    reflexivity.
Qed.

(** The result object of a validated response. *)
Definition analysisResult (startTime now : Z) (log redactedLog logHash : list N)
           (parsed : json) : json :=
  obj [(js "success", JBool true);
       (js "analysis",
        JObj (extend (spread parsed)
                [(js "logHash", JStr logHash);
                 (js "analyzedAt", JStr (Date.toISOString now));
                 (js "processingTimeMs", JInt (now - startTime))]));
       (js "metadata",
        obj [(js "logSize", JInt (Z.of_nat (length log)));
             (js "redactedLogSize", JInt (Z.of_nat (length redactedLog)));
             (js "cacheHit", JBool false)])].

Definition failed_to_parse (reason : list N) : Error :=
  MkError (js "Failed to parse AI response: " ++ reason) None.

Definition missingFields (parsed : json) : list (list N) :=
  List.filter (fun field => negb (has field (spread parsed))) requiredFields.

(** The inner [try] block, case by case. *)
Lemma parseAndStore_run env startTime log redactedLog logHash text w :
  parseAndStore env startTime log redactedLog logHash text w
  = match match_ jsonPattern text with
    | None =>
        (Thrown (failed_to_parse (js "No JSON found in AI response")), w)
    | Some jsonMatch =>
        match Json.parse jsonMatch with
        | None => (Thrown (failed_to_parse (syntaxError env jsonMatch)), w)
        | Some parsed =>
            match missingFields parsed with
            | [] =>
                let result :=
                  analysisResult startTime (now w) log redactedLog logHash
                    parsed in
                (Ok result, snd (saveToCache env logHash result w))
            | missing =>
                (Thrown (failed_to_parse
                           (js "Missing required fields in AI response: "
                              ++ join (js ", ") missing)), w)
            end
        end
    end.
Proof.
  unfold parseAndStore, try_catch.
  rewrite match_json.
  destruct (extract text) as [[[pre mt] post]|] eqn:E; [|reflexivity].
  apply extract_split in E as (_ & [mid ->] & _).
  unfold bind at 1. unfold JSON_parse.
  destruct (Json.parse (123 :: mid ++ [125])) as [parsed|] eqn:P;
    [|reflexivity].
  destruct (parse_object _ _ P) as [m ->].
  unfold ret at 1. unfold bind at 1. unfold missing, ret at 1.
  fold (missingFields (JObj m)).
  destruct (missingFields (JObj m)) as [|f fs]; [|reflexivity].
  unfold bind, Date_now, toISOString, ret. cbv zeta.
  pose proof (saveToCache_returns env logHash
                (analysisResult startTime (now w) log redactedLog logHash
                   (JObj m)) w) as S.
  unfold analysisResult in *.
  destruct (saveToCache env logHash _ w) as [[[]|e] w']; simpl in S;
    [reflexivity|discriminate].
Qed.

(** The three properties the service adds are not among the names the
    response is checked for. *)
Lemma analysis_keeps (field : list N) (parsed : props)
      (logHash analyzedAt : list N) (ms : Z) :
  List.In field (js "relatedLogs" :: requiredFields) ->
  get field (extend parsed
               [(js "logHash", JStr logHash);
                (js "analyzedAt", JStr analyzedAt);
                (js "processingTimeMs", JInt ms)])
  = get field parsed.
Proof.
  intros H. unfold extend. cbn [fold_left fst snd]. rewrite !get_set.
  simpl in H.
  repeat (destruct H as [<-|H]; [reflexivity|]). destruct H.
Qed.

(** The world when the response arrives, for a text that passed validation
    and was not served from the cache: the trace so far, and the clock moved
    on by the time the call took. *)
Definition awaiting (env : Env) (w : World) (log : list N) (looked_up : bool)
           (latency : Z) : World :=
  let redactedLog := redactSensitiveInfo log in
  MkWorld (now w + latency) (files w) (writable w)
    (((events w ++ [Redacted]) ++ [Fingerprinted])
       ++ (if looked_up
           then [Stat (getCachePath env (generateContentHash redactedLog))]
           else [])
       ++ [Generate (prompt_head ++ redactedLog ++ prompt_tail)]).

(** What the outer [catch] makes of an exception. *)
Definition caught (env : Env) (startTime : Z) (r : Outcome json * World)
  : Outcome json * World :=
  match r with
  | (Ok v, w) => (Ok v, w)
  | (Thrown e, w) =>
      (Ok (obj [(js "success", JBool false);
                (js "error",
                 obj [(js "message", JStr (message e));
                      (js "code",
                       JStr (match code e with
                             | Some c => if Json.truthy (JStr c) then c
                                         else js "AI_SERVICE_ERROR"
                             | None => js "AI_SERVICE_ERROR"
                             end));
                      (js "stack",
                       if development env
                       then JStr (stackOf env (message e))
                       else JUndefined);
                      (js "processingTimeMs", JInt (now w - startTime))]);
                (js "metadata",
                 obj [(js "processingTimeMs", JInt (now w - startTime))])]),
       w)
  end.

Lemma not_blank log :
  forallb CharClass.is_space log = false ->
  negb (Value.truthy (Value.Str log)) || bool_decide (trim log = []) = false.
Proof.
  intros H. rewrite bool_decide_eq_false_2.
  - destruct log; [discriminate H|reflexivity].
  - intros E. apply GeminiFacts.trim_nil in E. congruence.
Qed.

(** A valid text that is not served from the cache (the lookup is skipped,
    or finds no file) goes to the service, and the response to the inner
    block. *)
Lemma analyzeWithAI_fresh env w log force latency text :
  forallb CharClass.is_space log = false ->
  Utf8.byteLength log <= MAX_LOG_SIZE CONFIG ->
  force = true \/
  files w !! getCachePath env (generateContentHash (redactSensitiveInfo log))
  = None ->
  generateContent env (now w)
    (prompt_head ++ redactSensitiveInfo log ++ prompt_tail)
  = (latency, Text text) ->
  analyzeWithAI env (Value.Str log) force w
  = caught env (now w)
      (parseAndStore env (now w) log (redactSensitiveInfo log)
         (generateContentHash (redactSensitiveInfo log)) text
         (awaiting env w log (negb force) latency)).
Proof.
  intros Hnb Hsize Hmiss Hgen.
  unfold analyzeWithAI. unfold bind at 1. unfold Date_now at 1.
  unfold try_catch at 1. rewrite (not_blank log Hnb).
  apply N.le_ngt in Hsize.
  destruct (MAX_LOG_SIZE CONFIG <? Utf8.byteLength log) eqn:E;
    [now apply N.ltb_lt in E|].
  unfold bind at 1. unfold tell at 1.
  unfold bind at 1. unfold tell at 1.
  unfold bind at 1. cbn [now files writable events].
  assert (Hc : exists w1,
             (if force then ret JNull
              else getCachedResult env
                     (generateContentHash (redactSensitiveInfo log)))
               (MkWorld (now w) (files w) (writable w)
                  ((events w ++ [Redacted]) ++ [Fingerprinted]))
             = (Ok JNull, w1) /\
             w1 = MkWorld (now w) (files w) (writable w)
                    (((events w ++ [Redacted]) ++ [Fingerprinted])
                       ++ (if negb force
                           then [Stat (getCachePath env
                                         (generateContentHash
                                            (redactSensitiveInfo log)))]
                           else []))).
  { destruct force; simpl.
    - eexists. split; [reflexivity|]. now rewrite List.app_nil_r.
    - destruct Hmiss as [?|Hmiss]; [discriminate|].
      eexists. split; [|reflexivity].
      unfold getCachedResult, try_catch, fs_stat, bind, tell. simpl.
      now rewrite Hmiss. }
  destruct Hc as (w1 & -> & ->). cbn [Json.truthy].
  unfold bind at 1. unfold generate at 1.
  unfold bind at 1. unfold tell at 1.
  unfold bind at 1. unfold Date_now at 1. cbn [now].
  rewrite Hgen. unfold bind at 1. unfold elapse at 1. unfold ret at 1.
  cbn [now files writable events].
  unfold awaiting, caught.
  rewrite <- !List.app_assoc.
  match goal with
  | |- context [parseAndStore ?a ?b ?c ?d ?e ?f ?g] =>
      destruct (parseAndStore a b c d e f g) as [[v|e0] w2]
  end; reflexivity.
Qed.

End AdapterFacts.

Module AdapterSpec.
Import CharClass RegExp Json JsString Effects GeminiService.
Import GeminiFacts Extraction AdapterFacts.

(** The wording of C6: the first opening brace and the text up to the brace
    that balances it. *)
Fixpoint balanced (depth : nat) (s : list N) : option (list N) :=
  match s with
  | [] => None
  | x :: s' =>
      if x =? 123 then option_map (cons x) (balanced (S depth) s')
      else if x =? 125 then
        match depth with
        | O => Some [x]
        | S d => option_map (cons x) (balanced d s')
        end
      else option_map (cons x) (balanced depth s')
  end.

Fixpoint first_balanced_object (s : list N) : option (list N) :=
  match s with
  | [] => None
  | x :: s' =>
      if x =? 123 then
        match balanced 0 s' with
        | Some b => Some (x :: b)
        | None => first_balanced_object s'
        end
      else first_balanced_object s'
  end.

(** A complete answer, followed by a remark with braces in it. *)
Definition answer : list N := quoted
"{~issueType~:~Crash~,~rootCause~:~null pointer~,~suggestedFix~:[~restart~],~severity~:~High~,~category~:~application~,~confidence~:90}".

Definition remark : list N := js " Hope this helps {see the runbook}".

Definition replies (text : list N) : Env :=
  MkEnv (js "/srv/app") (fun _ _ => (1200%Z, Text text))
    (fun _ => js "Unexpected non-whitespace character after JSON")
    false (fun m => m).

(** C6, counterexample: the pattern is greedy and takes the text from the
    first opening brace to the last closing brace of the response. When the
    model adds a remark with a brace after a complete object, the first
    balanced object is that object, valid and with all six fields, but the
    service hands the object and the remark together to [JSON.parse] and
    fails. *)
Lemma extraction_is_not_first_balanced :
  first_balanced_object (answer ++ remark) = Some answer /\
  (exists parsed, Json.parse answer = Some parsed /\ missingFields parsed = []) /\
  match_ jsonPattern (answer ++ remark) = Some (answer ++ remark) /\
  match_ jsonPattern (answer ++ remark)
  <> first_balanced_object (answer ++ remark) /\
  fst (analyzeWithAI (replies (answer ++ remark)) (Value.Str (js "db down"))
         true empty_world)
  = Ok (rejection (replies (answer ++ remark))
          (js "Failed to parse AI response: Unexpected non-whitespace character after JSON")
          1200).
Proof.
  split; [vm_compute; reflexivity|].
  split; [eexists; split; vm_compute; reflexivity|].
  split; [vm_compute; reflexivity|].
  split; [vm_compute; discriminate|].
  vm_compute; reflexivity.
Qed.

Definition fresh_call (env : Env) (w : World) (log : list N) (force : bool)
           (latency : Z) (text : list N) : Prop :=
  forallb CharClass.is_space log = false /\
  Utf8.byteLength log <= MAX_LOG_SIZE CONFIG /\
  (force = true \/
   files w !! getCachePath env (generateContentHash (redactSensitiveInfo log))
   = None) /\
  generateContent env (now w)
    (prompt_head ++ redactSensitiveInfo log ++ prompt_tail)
  = (latency, Text text).

Lemma rejection_caught env w0 w reason latency :
  now w = (now w0 + latency)%Z ->
  caught env (now w0) (Thrown (failed_to_parse reason), w)
  = (Ok (rejection env (js "Failed to parse AI response: " ++ reason) latency),
     w).
Proof.
  intros E. unfold caught, rejection, failed_to_parse. cbn [message code].
  rewrite E. now replace (now w0 + latency - now w0)%Z with latency by lia.
Qed.

Lemma required_present (startTime t : Z) (log red hash : list N) parsed :
  missingFields parsed = [] ->
  List.Forall
    (fun field =>
       has field
         (spread (prop (js "analysis")
                    (analysisResult startTime t log red hash parsed)))
       = true /\
       prop field (prop (js "analysis")
                     (analysisResult startTime t log red hash parsed))
       = prop field (JObj (spread parsed)))
    requiredFields.
Proof.
  intros Hm.
  assert (Hall : forall field, List.In field requiredFields ->
                               has field (spread parsed) = true).
  { intros field Hin. unfold missingFields in Hm.
    destruct (has field (spread parsed)) eqn:E; [reflexivity|].
    assert (Hf : List.In field
                   (List.filter (fun f => negb (has f (spread parsed)))
                      requiredFields)).
    { apply List.filter_In. split; [exact Hin|]. now rewrite E. }
    rewrite Hm in Hf. destruct Hf. }
  apply List.Forall_forall. intros field Hin.
  change (prop (js "analysis") (analysisResult startTime t log red hash parsed))
    with (JObj (extend (spread parsed)
                  [(js "logHash", JStr hash);
                   (js "analyzedAt", JStr (Date.toISOString t));
                   (js "processingTimeMs", JInt (t - startTime))])).
  cbn [spread prop]. unfold has.
  rewrite (analysis_keeps field (spread parsed)) by (now right).
  split; [|reflexivity]. apply (Hall field Hin).
Qed.

(** C6, amended: the service takes the text from the first opening brace of
    the response to its last closing brace. Without such a text the call
    fails with [No JSON found in AI response]; when the text is not JSON,
    with the message of the syntax error; when it parses but lacks some of
    the six required fields, with [Missing required fields in AI response:]
    and the missing names. Each message is prefixed with
    [Failed to parse AI response: ] and returned in a [success: false]
    object whose code is [AI_SERVICE_ERROR]: the failures differ by their
    message only. A response that passes gives [success: true] with the six
    fields present. *)
Theorem response_is_extracted_and_validated
        (env : Env) (w : World) (log : list N) (force : bool) (latency : Z)
        (text : list N) :
  fresh_call env w log force latency text ->
  let result := fst (analyzeWithAI env (Value.Str log) force w) in
  let fails reason :=
    result
    = Ok (rejection env (js "Failed to parse AI response: " ++ reason) latency)
  in
  (forall jsonMatch,
      match_ jsonPattern text = Some jsonMatch ->
      exists pre mid post,
        text = pre ++ jsonMatch ++ post /\ jsonMatch = 123 :: mid ++ [125] /\
        ~ List.In 123 pre /\ ~ List.In 125 post) /\
  (match_ jsonPattern text = None ->
   (forall pre mid post, text <> pre ++ 123 :: mid ++ 125 :: post) /\
   fails (js "No JSON found in AI response")) /\
  (forall jsonMatch,
      match_ jsonPattern text = Some jsonMatch ->
      Json.parse jsonMatch = None ->
      fails (syntaxError env jsonMatch)) /\
  (forall jsonMatch parsed,
      match_ jsonPattern text = Some jsonMatch ->
      Json.parse jsonMatch = Some parsed ->
      missingFields parsed <> [] ->
      fails (js "Missing required fields in AI response: "
               ++ join (js ", ") (missingFields parsed))) /\
  (forall jsonMatch parsed,
      match_ jsonPattern text = Some jsonMatch ->
      Json.parse jsonMatch = Some parsed ->
      missingFields parsed = [] ->
      exists v,
        result = Ok v /\ prop (js "success") v = JBool true /\
        List.Forall
          (fun field => has field (spread (prop (js "analysis") v)) = true)
          requiredFields).
Proof.
  intros (Hnb & Hsize & Hmiss & Hgen) result fails.
  assert (Hrun := analyzeWithAI_fresh env w log force latency text
                    Hnb Hsize Hmiss Hgen).
  rewrite parseAndStore_run in Hrun.
  assert (Hnow : now (awaiting env w log (negb force) latency)
                 = (now w + latency)%Z) by reflexivity.
  split; [|split; [|split; [|split]]].
  - intros jsonMatch Hm. rewrite match_json in Hm.
    destruct (extract text) as [[[pre mt] post]|] eqn:E; [|discriminate].
    injection Hm as ->.
    apply extract_split in E as (-> & [mid ->] & Hpre & Hpost).
    now exists pre, mid, post.
  - intros Hm. split.
    + rewrite match_json in Hm.
      destruct (extract text) as [[[pre mt] post]|] eqn:E; [discriminate|].
      now apply extract_none.
    + subst fails result. cbv beta. rewrite Hrun, Hm.
      now rewrite (rejection_caught env w _ _ latency Hnow).
  - intros jsonMatch Hm Hp. subst fails result. cbv beta.
    rewrite Hrun, Hm, Hp.
    now rewrite (rejection_caught env w _ _ latency Hnow).
  - intros jsonMatch parsed Hm Hp Hmf. subst fails result. cbv beta.
    rewrite Hrun, Hm, Hp.
    destruct (missingFields parsed) as [|f fs]; [now destruct Hmf|].
    now rewrite (rejection_caught env w _ _ latency Hnow).
  - intros jsonMatch parsed Hm Hp Hmf. subst result.
    rewrite Hrun, Hm, Hp, Hmf. cbv zeta. cbn [caught fst].
    eexists. split; [reflexivity|]. split; [reflexivity|].
    pose proof (required_present (now w)
                  (now (awaiting env w log (negb force) latency))
                  log (redactSensitiveInfo log)
                  (generateContentHash (redactSensitiveInfo log))
                  parsed Hmf) as H.
    eapply List.Forall_impl; [|exact H]. now intros field [H1 _].
Qed.

Definition partial : list N :=
  quoted "Sure. {~issueType~:~Crash~,~confidence~:90} Anything else?".

Lemma fresh_call_forced text :
  fresh_call (replies text) empty_world (js "db down at 10.0.0.1") true 1200 text.
Proof.
  split; [vm_compute; reflexivity|].
  split; [vm_compute; discriminate|].
  split; [now left|reflexivity].
Qed.

Lemma response_is_extracted_and_validated_witness :
  fst (analyzeWithAI (replies partial) (Value.Str (js "db down at 10.0.0.1"))
         true empty_world)
  = Ok (rejection (replies partial)
          (js "Failed to parse AI response: Missing required fields in AI response: rootCause, suggestedFix, severity, category")
          1200) /\
  fst (analyzeWithAI (replies (js "I cannot help with that."))
         (Value.Str (js "db down at 10.0.0.1")) true empty_world)
  = Ok (rejection (replies (js "I cannot help with that."))
          (js "Failed to parse AI response: No JSON found in AI response")
          1200).
Proof.
  split.
  - assert (H := response_is_extracted_and_validated
                   (replies partial) empty_world (js "db down at 10.0.0.1") true
                   1200 partial (fresh_call_forced partial)).
    cbv zeta in H. destruct H as (_ & _ & _ & H & _).
    refine (H (quoted "{~issueType~:~Crash~,~confidence~:90}")
              (obj [(js "issueType", JStr (js "Crash"));
                    (js "confidence", JInt 90)])
              _ _ _).
    + vm_compute; reflexivity.
    + vm_compute; reflexivity.
    + vm_compute; discriminate.
  - assert (H := response_is_extracted_and_validated
                   (replies (js "I cannot help with that.")) empty_world
                   (js "db down at 10.0.0.1") true 1200
                   (js "I cannot help with that.")
                   (fresh_call_forced _)).
    cbv zeta in H. destruct H as (_ & H & _).
    apply H. vm_compute; reflexivity.
Defined.

(** The wording of C1, for an object returned with [success: true]: the
    seven fields are there and the confidence is an integer from 0 to
    100. *)
Definition sevenFields : list (list N) := requiredFields ++ [js "relatedLogs"].

Definition complete_record (analysis : json) : Prop :=
  List.Forall (fun field => has field (spread analysis) = true) sevenFields /\
  exists z, prop (js "confidence") analysis = JInt z /\ (0 <= z <= 100)%Z.

Definition every_success_is_complete : Prop :=
  forall env w log force v,
    fst (analyzeWithAI env log force w) = Ok v ->
    prop (js "success") v = JBool true ->
    complete_record (prop (js "analysis") v).

(** A response with the six required fields, a confidence of 150 and no
    [relatedLogs]. *)
Definition overconfident : list N := quoted
"{~issueType~:~Crash~,~rootCause~:~null pointer~,~suggestedFix~:[~restart~],~severity~:~High~,~category~:~application~,~confidence~:150}".

(** C1, counterexample: the service copies the parsed object into the
    result as it is. A response that passes the validation with a confidence
    of 150 and without [relatedLogs] is returned with [success: true], a
    confidence of 150 and no [relatedLogs]. *)
Lemma confidence_is_not_coerced :
  (exists v,
      fst (analyzeWithAI (replies overconfident) (Value.Str (js "db down"))
             true empty_world) = Ok v /\
      prop (js "success") v = JBool true /\
      prop (js "confidence") (prop (js "analysis") v) = JInt 150 /\
      prop (js "relatedLogs") (prop (js "analysis") v) = JUndefined) /\
  ~ every_success_is_complete.
Proof.
  assert (H : exists v,
      fst (analyzeWithAI (replies overconfident) (Value.Str (js "db down"))
             true empty_world) = Ok v /\
      prop (js "success") v = JBool true /\
      prop (js "confidence") (prop (js "analysis") v) = JInt 150 /\
      prop (js "relatedLogs") (prop (js "analysis") v) = JUndefined).
  { eexists. split; [vm_compute; reflexivity|].
    repeat split; vm_compute; reflexivity. }
  split; [exact H|].
  destruct H as (v & Hv & Hs & Hc & _). intros Hall.
  destruct (Hall _ _ _ _ v Hv Hs) as (_ & z & Hz & Hr).
  rewrite Hc in Hz. injection Hz as <-. lia.
Qed.

(** C1, amended: the records built by the code itself are complete: the
    pattern-based classifier gives a record with the seven fields and a
    confidence between 0 and 100 for every text, and the record the route
    substitutes for a failed analysis has the seven fields and a
    confidence of 50. The Gemini-backed service returns the fields of the
    parsed response unchanged next to [logHash], [analyzedAt] and
    [processingTimeMs]: the six required fields are present, [confidence]
    and [relatedLogs] are whatever the response holds, in or out of
    range, present or not. *)
Theorem surfaced_records
        (env : Env) (w : World) (log : list N) (force : bool) (latency : Z)
        (text jsonMatch : list N) (parsed : json) :
  (forall text', AiServiceFacts.populated (AiService.classify text') = true) /\
  (forall errorInfo,
      let a := AnalyzeRoute.fallback_analysis errorInfo in
      List.Forall (fun field => has field (spread a) = true) sevenFields /\
      prop (js "confidence") a = JInt 50) /\
  (fresh_call env w log force latency text ->
   match_ jsonPattern text = Some jsonMatch ->
   Json.parse jsonMatch = Some parsed ->
   missingFields parsed = [] ->
   exists v,
     fst (analyzeWithAI env (Value.Str log) force w) = Ok v /\
     prop (js "success") v = JBool true /\
     List.Forall
       (fun field => has field (spread (prop (js "analysis") v)) = true)
       requiredFields /\
     forall field,
       List.In field sevenFields ->
       prop field (prop (js "analysis") v) = prop field (JObj (spread parsed))).
Proof.
  split; [exact AiServiceFacts.classify_populated|].
  split.
  { intros errorInfo a. subst a. split; [|reflexivity].
    repeat constructor. }
  intros (Hnb & Hsize & Hmiss & Hgen) Hm Hp Hmf.
  assert (Hrun := analyzeWithAI_fresh env w log force latency text
                    Hnb Hsize Hmiss Hgen).
  rewrite parseAndStore_run, Hm, Hp, Hmf in Hrun. cbv zeta in Hrun.
  rewrite Hrun. cbn [caught fst].
  eexists. split; [reflexivity|]. split; [reflexivity|].
  pose proof (required_present (now w)
                (now (awaiting env w log (negb force) latency))
                log (redactSensitiveInfo log)
                (generateContentHash (redactSensitiveInfo log))
                parsed Hmf) as H.
  split.
  - eapply List.Forall_impl; [|exact H]. now intros field [H1 _].
  - intros field Hin.
    change (prop (js "analysis")
              (analysisResult (now w)
                 (now (awaiting env w log (negb force) latency))
                 log (redactSensitiveInfo log)
                 (generateContentHash (redactSensitiveInfo log)) parsed))
      with (JObj (extend (spread parsed)
                    [(js "logHash",
                      JStr (generateContentHash (redactSensitiveInfo log)));
                     (js "analyzedAt",
                      JStr (Date.toISOString
                              (now (awaiting env w log (negb force) latency))));
                     (js "processingTimeMs",
                      JInt (now (awaiting env w log (negb force) latency)
                            - now w))])).
    cbn [prop]. rewrite (analysis_keeps field (spread parsed)); [reflexivity|].
    unfold sevenFields in Hin. apply List.in_app_or in Hin.
    destruct Hin as [Hin|[<-|[]]]; [now right|now left].
Qed.

Lemma surfaced_records_witness :
  exists v,
    fst (analyzeWithAI (replies overconfident)
           (Value.Str (js "db down at 10.0.0.1")) true empty_world) = Ok v /\
    prop (js "success") v = JBool true /\
    prop (js "confidence") (prop (js "analysis") v) = JInt 150.
Proof.
  destruct (surfaced_records (replies overconfident) empty_world
              (js "db down at 10.0.0.1") true 1200 overconfident overconfident
              (obj [(js "issueType", JStr (js "Crash"));
                    (js "rootCause", JStr (js "null pointer"));
                    (js "suggestedFix", JArr [JStr (js "restart")]);
                    (js "severity", JStr (js "High"));
                    (js "category", JStr (js "application"));
                    (js "confidence", JInt 150)]))
    as (_ & _ & H).
  destruct H as (v & Hv & Hs & _ & Hf).
  - apply fresh_call_forced.
  - vm_compute; reflexivity.
  - vm_compute; reflexivity.
  - vm_compute; reflexivity.
  - exists v. split; [exact Hv|]. split; [exact Hs|].
    rewrite (Hf (js "confidence")); [reflexivity|].
    vm_compute. tauto.
Defined.

End AdapterSpec.

(** ** Decimal text and the numbers it denotes *)

Module DecimalFacts.
Import Decimal.

Definition step (a x : N) : N := 10 * a + (x - 48).

Lemma to_N_app a ds es :
  fold_left step (ds ++ es) a = fold_left step es (fold_left step ds a).
Proof. apply List.fold_left_app. Qed.

(** The digits of a number: a non-empty run of digits before the
    accumulator, which denotes the number, and starts with [0] only for
    zero. *)
Lemma to_digits_spec fuel :
  forall n acc,
    n < 10 ^ N.of_nat (S fuel) ->
    exists ds,
      to_digits (S fuel) n acc = ds ++ acc /\
      ds <> [] /\
      List.Forall (fun x => is_digit x = true) ds /\
      (forall a, fold_left step ds a = a * 10 ^ N.of_nat (length ds) + n) /\
      (n <> 0 -> List.hd 0 ds <> 48).
Proof.
  induction fuel as [|fuel IH]; intros n acc Hn.
  - change (10 ^ N.of_nat 1) with 10 in Hn.
    assert (E : (n <? 10) = true) by now apply N.ltb_lt.
    cbn [to_digits]. rewrite E. exists [48 + n mod 10].
    rewrite N.mod_small by exact Hn.
    repeat split.
    + discriminate.
    + constructor; [|constructor]. unfold is_digit.
      apply andb_true_intro. split; apply N.leb_le; lia.
    + intros a. cbn. unfold step. lia.
    + cbn. lia.
  - cbn [to_digits]. destruct (N.ltb_spec n 10) as [Hlt|Hge].
    + exists [48 + n mod 10]. rewrite N.mod_small by exact Hlt.
      repeat split.
      * discriminate.
      * constructor; [|constructor]. unfold is_digit.
        apply andb_true_intro. split; apply N.leb_le; lia.
      * intros a. cbn. unfold step. lia.
      * cbn. lia.
    + assert (Hq : n / 10 < 10 ^ N.of_nat (S fuel)).
      { apply N.Div0.div_lt_upper_bound.
        replace (N.of_nat (S (S fuel))) with (N.succ (N.of_nat (S fuel)))
          in Hn by lia.
        rewrite N.pow_succ_r' in Hn. exact Hn. }
      destruct (IH (n / 10) ((48 + n mod 10) :: acc) Hq)
        as (ds & E & Hne & Hd & Hv & Hh).
      exists (ds ++ [48 + n mod 10]). repeat split.
      * change (to_digits (S fuel) (n / 10) ((48 + n mod 10) :: acc)
                = (ds ++ [48 + n mod 10]) ++ acc).
        rewrite E. now rewrite <- List.app_assoc.
      * now destruct ds.
      * apply List.Forall_app. split; [exact Hd|].
        constructor; [|constructor]. unfold is_digit.
        pose proof (N.mod_lt n 10 ltac:(lia)) as Hr.
        set (r := n mod 10) in *. clearbody r.
        apply andb_true_intro. split; apply N.leb_le; lia.
      * intros a. rewrite to_N_app, Hv. cbn. unfold step.
        rewrite List.length_app. cbn [length].
        replace (N.of_nat (length ds + 1)) with (N.succ (N.of_nat (length ds)))
          by lia.
        rewrite N.pow_succ_r'.
        pose proof (N.div_mod n 10 ltac:(lia)) as Hdm.
        set (r := n mod 10) in *. set (q := n / 10) in *. clearbody r q.
        set (t := 10 ^ N.of_nat (length ds)) in *. clearbody t. lia.
      * intros _. destruct ds as [|d ds]; [now destruct Hne|].
        cbn. apply Hh. intros E0.
        apply N.div_small_iff in E0; lia.
Qed.

Lemma pos_size_bound p : N.pos p < 2 ^ N.of_nat (Pos.size_nat p).
Proof.
  induction p as [p IH|p IH|]; cbn [Pos.size_nat].
  - replace (N.of_nat (S (Pos.size_nat p)))
      with (N.succ (N.of_nat (Pos.size_nat p))) by lia.
    rewrite N.pow_succ_r'. lia.
  - replace (N.of_nat (S (Pos.size_nat p)))
      with (N.succ (N.of_nat (Pos.size_nat p))) by lia.
    rewrite N.pow_succ_r'. lia.
  - reflexivity.
Qed.

Lemma size_bound n : n < 10 ^ N.of_nat (S (N.size_nat n)).
Proof.
  apply N.lt_le_trans with (10 ^ N.of_nat (N.size_nat n)).
  - destruct n as [|p]; [reflexivity|].
    apply N.lt_le_trans with (2 ^ N.of_nat (Pos.size_nat p)).
    + apply pos_size_bound.
    + apply N.pow_le_mono_l. lia.
  - apply N.pow_le_mono_r; lia.
Qed.

(** The text of a number is a non-empty run of digits that denotes it and
    has no leading zero. *)
Lemma of_N_spec n :
  of_N n <> [] /\
  List.Forall (fun x => is_digit x = true) (of_N n) /\
  to_N (of_N n) = n /\
  (n <> 0 -> List.hd 0 (of_N n) <> 48) /\
  (n = 0 -> of_N n = [48]).
Proof.
  assert (H0 : n = 0 -> of_N n = [48]) by (intros ->; reflexivity).
  revert H0. unfold of_N.
  destruct (to_digits_spec (N.size_nat n) n [] (size_bound n))
    as (ds & E & Hne & Hd & Hv & Hh).
  rewrite E, List.app_nil_r. intros H0. repeat split; auto.
  unfold to_N. change (fold_left step ds 0 = n). rewrite Hv. lia.
Qed.

End DecimalFacts.

(** ** [JSON.parse] undoes [JSON.stringify] *)

Module JsonFacts.
Import Json.

(** *** Strings *)

Lemma hex_digit_value t :
  t < 16 -> hex_value (Sha256.hex_digit t) = Some t.
Proof.
  intros Ht. unfold Sha256.hex_digit, hex_value.
  destruct (N.ltb_spec t 10).
  - replace ((48 <=? 48 + t) && (48 + t <=? 57)) with true.
    + f_equal. lia.
    + symmetry. apply andb_true_intro. split; apply N.leb_le; lia.
  - replace ((48 <=? 87 + t) && (87 + t <=? 57)) with false.
    + replace ((97 <=? 87 + t) && (87 + t <=? 102)) with true.
      * f_equal. lia.
      * symmetry. apply andb_true_intro. split; apply N.leb_le; lia.
    + symmetry. apply andb_false_intro2. apply N.leb_gt. lia.
Qed.

Lemma hex4_of_value x :
  x < 65536 ->
  hex4 (Sha256.hex_digit ((x / 4096) mod 16))
       (Sha256.hex_digit ((x / 256) mod 16))
       (Sha256.hex_digit ((x / 16) mod 16))
       (Sha256.hex_digit (x mod 16)) = Some x.
Proof.
  intros Hx. unfold hex4.
  rewrite !hex_digit_value by (apply N.mod_lt; lia).
  f_equal.
  change 4096 with (16 * (16 * 16)). change 256 with (16 * 16).
  rewrite <- !N.Div0.div_div.
  pose proof (N.div_mod x 16 ltac:(lia)) as H0.
  pose proof (N.mod_lt x 16 ltac:(lia)) as L0.
  set (y1 := x / 16) in *. set (d := x mod 16) in *.
  pose proof (N.div_mod y1 16 ltac:(lia)) as H1.
  pose proof (N.mod_lt y1 16 ltac:(lia)) as L1.
  set (y2 := y1 / 16) in *. set (c := y1 mod 16) in *.
  pose proof (N.div_mod y2 16 ltac:(lia)) as H2.
  pose proof (N.mod_lt y2 16 ltac:(lia)) as L2.
  set (y3 := y2 / 16) in *. set (b := y2 mod 16) in *.
  assert (Hy3 : y3 < 16) by (clearbody y3 b c d y2 y1; lia).
  rewrite (N.mod_small y3 16 Hy3).
  clearbody y3 b c d y2 y1. lia.
Qed.

(** An escape with four hexadecimal digits reads back as the code unit. *)
Lemma parse_chars_hex x tail acc :
  x < 65536 ->
  parse_chars (92 :: 117 :: hex4_of x ++ tail) acc
  = parse_chars tail (x :: acc).
Proof.
  intros Hx. unfold hex4_of. cbn [app parse_chars].
  change (92 =? 34) with false. change (92 =? 92) with true.
  change (117 =? 117) with true. cbv iota.
  now rewrite (hex4_of_value x Hx).
Qed.

Lemma parse_chars_plain x tail acc :
  x <> 34 -> x <> 92 -> 32 <= x ->
  parse_chars (x :: tail) acc = parse_chars tail (x :: acc).
Proof.
  intros H1 H2 H3. cbn [parse_chars].
  apply N.eqb_neq in H1, H2. rewrite H1, H2.
  now replace (x <? 32) with false by (symmetry; apply N.ltb_ge; exact H3).
Qed.

Lemma parse_chars_escape x tail acc :
  parse_chars (escape x ++ tail) acc = parse_chars tail (x :: acc).
Proof.
  unfold escape.
  repeat match goal with
         | |- context [if ?a =? ?b then _ else _] =>
             destruct (N.eqb_spec a b) as [->|?]; [reflexivity|]
         end.
  destruct (N.ltb_spec x 32).
  - apply parse_chars_hex. lia.
  - now apply parse_chars_plain.
Qed.

Lemma surrogate_bounds x :
  Utf8.is_high x = true \/ Utf8.is_low x = true -> 55296 <= x < 65536.
Proof.
  unfold Utf8.is_high, Utf8.is_low.
  intros [H|H]; apply andb_prop in H as [H1 H2];
    apply N.leb_le in H1, H2; lia.
Qed.

(** The characters of a quoted string read back as the string. *)
Lemma parse_quote_chars s :
  forall acc rest,
    parse_chars (quote_chars s ++ 34 :: rest) acc
    = Some (List.rev acc ++ s, rest).
Proof.
  induction s as [s IH] using (induction_ltof1 _ (@length N)).
  unfold ltof in IH. intros acc rest.
  destruct s as [|x s]; cbn [quote_chars].
  - cbn. now rewrite List.app_nil_r.
  - assert (Hstep : forall t,
               (length t < length (x :: s))%nat ->
               parse_chars (quote_chars t ++ 34 :: rest) (x :: acc)
               = Some (List.rev acc ++ x :: (t : list N), rest)).
    { intros t Ht. rewrite (IH t Ht). cbn [List.rev].
      now rewrite <- List.app_assoc. }
    destruct (Utf8.is_high x) eqn:Eh.
    + pose proof (surrogate_bounds x (or_introl Eh)) as Hb.
      destruct s as [|y s].
      * cbn [app]. rewrite <- (List.app_nil_l (34 :: rest)).
        change (92 :: 117 :: hex4_of x ++ [] ++ 34 :: rest)
          with (92 :: 117 :: hex4_of x ++ (34 :: rest)).
        rewrite parse_chars_hex by lia. apply (Hstep []). simpl. lia.
      * destruct (Utf8.is_low y) eqn:El.
        -- pose proof (surrogate_bounds y (or_intror El)) as Hy.
           cbn [app]. rewrite parse_chars_plain by lia.
           rewrite parse_chars_plain by lia.
           rewrite (IH s) by (simpl; lia). cbn [List.rev].
           now rewrite <- !List.app_assoc.
        -- change ((92 :: 117 :: hex4_of x ++ quote_chars (y :: s))
                     ++ 34 :: rest)
             with (92 :: 117 :: (hex4_of x ++ quote_chars (y :: s))
                      ++ 34 :: rest).
           rewrite <- List.app_assoc.
           rewrite parse_chars_hex by lia. apply Hstep. simpl. lia.
    + destruct (Utf8.is_low x) eqn:El.
      * pose proof (surrogate_bounds x (or_intror El)) as Hb.
        change ((92 :: 117 :: hex4_of x ++ quote_chars s) ++ 34 :: rest)
          with (92 :: 117 :: (hex4_of x ++ quote_chars s) ++ 34 :: rest).
        rewrite <- List.app_assoc.
        rewrite parse_chars_hex by lia. apply Hstep. simpl. lia.
      * rewrite <- List.app_assoc. rewrite parse_chars_escape.
        apply Hstep. simpl. lia.
Qed.

(** *** Numbers *)

(** What may follow a value in the text [JSON.stringify] writes: nothing, a
    comma, or a closing bracket or brace. *)
Definition stop (s : list N) : Prop :=
  match s with
  | [] => True
  | x :: _ => x = 44 \/ x = 93 \/ x = 125
  end.

(** The next code unit, if any, fails a test. *)
Definition next_not (f : N -> bool) (s : list N) : Prop :=
  match s with
  | [] => True
  | x :: _ => f x = false
  end.

Definition is_dot (x : N) : bool := x =? 46.
Definition is_exp (x : N) : bool := (x =? 101) || (x =? 69).
Definition is_minus (x : N) : bool := x =? 45.

Lemma stop_next_not (f : N -> bool) s :
  f 44 = false -> f 93 = false -> f 125 = false -> stop s -> next_not f s.
Proof.
  intros H1 H2 H3. destruct s as [|x s]; simpl; [tauto|].
  intros [->|[->| ->]]; assumption.
Qed.

Lemma digits_spec s :
  s = fst (digits s) ++ snd (digits s) /\
  List.Forall (fun x => Decimal.is_digit x = true) (fst (digits s)) /\
  next_not Decimal.is_digit (snd (digits s)).
Proof.
  induction s as [|x s IH]; cbn [digits].
  - repeat split. constructor.
  - destruct (Decimal.is_digit x) eqn:E.
    + destruct (digits s) as [ds r]. cbn [fst snd] in *.
      destruct IH as (-> & Hd & Hn). repeat split; auto.
    + repeat split; [constructor|exact E].
Qed.

Lemma digits_app ds r :
  List.Forall (fun x => Decimal.is_digit x = true) ds ->
  next_not Decimal.is_digit r ->
  digits (ds ++ r) = (ds, r).
Proof.
  induction 1 as [|x ds Hx _ IH]; intros Hr.
  - destruct r as [|y r]; [reflexivity|]. cbn in *. now rewrite Hr.
  - cbn [app digits]. rewrite Hx, (IH Hr). reflexivity.
Qed.

Lemma number_sign_app sg t :
  sg = [] \/ sg = [45] ->
  next_not is_minus t ->
  number_sign (sg ++ t) = (sg, t).
Proof.
  intros [->| ->] Ht; [|reflexivity].
  destruct t as [|y t]; [reflexivity|]. cbn in *.
  unfold is_minus in Ht. now rewrite Ht.
Qed.

Lemma number_int_app ds t :
  ds <> [] ->
  List.Forall (fun x => Decimal.is_digit x = true) ds ->
  (List.hd 0 ds = 48 -> ds = [48]) ->
  next_not Decimal.is_digit t ->
  number_int (ds ++ t) = (ds, t).
Proof.
  intros Hne Hd Hz Ht. destruct ds as [|x ds]; [now destruct Hne|].
  cbn [app number_int]. destruct (N.eqb_spec x 48) as [->|Hx].
  - now injection (Hz eq_refl) as ->.
  - now apply (digits_app (x :: ds)).
Qed.

Lemma number_frac_app fs t :
  fs = [] \/
  (exists ds, fs = 46 :: ds /\ ds <> [] /\
              List.Forall (fun x => Decimal.is_digit x = true) ds) ->
  (fs = [] -> next_not is_dot t) ->
  (fs <> [] -> next_not Decimal.is_digit t) ->
  number_frac (fs ++ t) = Some (fs, t).
Proof.
  intros [->|(ds & -> & Hne & Hd)] H1 H2.
  - specialize (H1 eq_refl). destruct t as [|y t]; [reflexivity|].
    cbn in *. unfold is_dot in H1. now rewrite H1.
  - cbn [app number_frac]. change (46 =? 46) with true. cbv iota.
    rewrite (digits_app ds t Hd (H2 ltac:(discriminate))).
    destruct ds; [now destruct Hne|reflexivity].
Qed.

Lemma number_exp_app es t :
  es = [] \/
  (exists e sg ds,
      es = e :: sg ++ ds /\ is_exp e = true /\
      (sg = [] \/ sg = [43] \/ sg = [45]) /\ ds <> [] /\
      List.Forall (fun x => Decimal.is_digit x = true) ds) ->
  (es = [] -> next_not is_exp t) ->
  (es <> [] -> next_not Decimal.is_digit t) ->
  number_exp (es ++ t) = Some (es, t).
Proof.
  intros [->|(e & sg & ds & -> & He & Hsg & Hne & Hd)] H1 H2.
  - specialize (H1 eq_refl). destruct t as [|y t]; [reflexivity|].
    cbn in *. unfold is_exp in H1. now rewrite H1.
  - specialize (H2 ltac:(discriminate)).
    cbn [app number_exp]. unfold is_exp in He. rewrite He.
    rewrite <- List.app_assoc.
    destruct ds as [|d ds]; [now destruct Hne|].
    assert (Hd0 : Decimal.is_digit d = true) by now inversion Hd.
    assert (Hnot : (d =? 43) || (d =? 45) = false).
    { unfold Decimal.is_digit in Hd0. apply andb_prop in Hd0 as [Ha Hb].
      apply N.leb_le in Ha, Hb.
      apply orb_false_intro; apply N.eqb_neq; lia. }
    pose proof (digits_app (d :: ds) t Hd H2) as Hdig.
    cbn [app] in Hdig.
    destruct Hsg as [->|[->| ->]]; cbn [app].
    + rewrite Hnot. now rewrite Hdig.
    + change ((43 =? 43) || (43 =? 45)) with true. cbv iota.
      now rewrite Hdig.
    + change ((45 =? 43) || (45 =? 45)) with true. cbv iota.
      now rewrite Hdig.
Qed.

(** An integer reads back from its decimal text. *)
Lemma parse_number_int z rest :
  stop rest -> parse_number (Decimal.of_Z z ++ rest) = Some (JInt z, rest).
Proof.
  intros Hs.
  assert (Hnd : next_not Decimal.is_digit rest)
    by (apply stop_next_not; auto).
  assert (Hdot : next_not is_dot rest) by (apply stop_next_not; auto).
  assert (Hexp : next_not is_exp rest) by (apply stop_next_not; auto).
  assert (G : forall n sg,
             sg = [] \/ sg = [45] ->
             parse_number (sg ++ Decimal.of_N n ++ rest)
             = Some (JInt (match sg with
                           | [] => Z.of_N n
                           | _ => - Z.of_N n
                           end)%Z, rest)).
  { intros n sg Hsg.
    destruct (DecimalFacts.of_N_spec n) as (Hne & Hd & Hv & Hh & H0).
    unfold parse_number.
    rewrite number_sign_app; auto.
    - rewrite number_int_app; auto.
      + destruct (Decimal.of_N n) as [|d ds] eqn:E; [now destruct Hne|].
        pose proof (number_frac_app [] rest (or_introl eq_refl)
                      (fun _ => Hdot) (fun _ => Hnd)) as Hf.
        pose proof (number_exp_app [] rest (or_introl eq_refl)
                      (fun _ => Hexp) (fun _ => Hnd)) as He.
        cbn [app] in Hf, He. rewrite Hf, He.
        now rewrite Hv.
      + intros H48. destruct (N.eq_dec n 0) as [->|Hn]; [now apply H0|].
        now destruct (Hh Hn).
    - destruct (Decimal.of_N n) as [|d ds]; [now destruct Hne|].
      cbn. inversion Hd as [|? ? Hd0 _]; subst.
      unfold is_minus. unfold Decimal.is_digit in Hd0.
      apply andb_prop in Hd0 as [Ha Hb]. apply N.leb_le in Ha, Hb.
      apply N.eqb_neq. lia. }
  destruct z as [|p|p]; cbn [Decimal.of_Z].
  - apply (G 0 []). now left.
  - change (Z.to_N (Z.pos p)) with (N.pos p).
    apply (G (N.pos p) []). now left.
  - apply (G (N.pos p) [45]). now right.
Qed.

(** A number literal with a fraction or an exponent, as the parser keeps
    it: it reads back as itself. *)
Definition real_lexeme (lex : list N) : Prop :=
  (exists x t, lex = x :: t /\ (x = 45 \/ Decimal.is_digit x = true)) /\
  forall rest, stop rest ->
               parse_number (lex ++ rest) = Some (JReal lex, rest).

Lemma number_sign_spec s :
  let (sg, s1) := number_sign s in
  s = sg ++ s1 /\ (sg = [] \/ sg = [45]).
Proof.
  destruct s as [|x s]; cbn; [auto|].
  destruct (N.eqb_spec x 45) as [->|]; cbn; auto.
Qed.

Lemma number_int_spec s :
  let (int, s2) := number_int s in
  s = int ++ s2 /\
  List.Forall (fun x => Decimal.is_digit x = true) int /\
  (List.hd 0 int = 48 -> int = [48]) /\
  (int = [48] \/ next_not Decimal.is_digit s2).
Proof.
  destruct s as [|x s]; cbn [number_int].
  - split; [reflexivity|]. split; [constructor|].
    split; [cbn; discriminate|]. now right.
  - destruct (N.eqb_spec x 48) as [->|Hx].
    + split; [reflexivity|]. split; [repeat constructor|].
      split; [auto|now left].
    + pose proof (digits_spec (x :: s)) as (E & Hd & Hn).
      destruct (digits (x :: s)) as [int s2]. cbn [fst snd] in *.
      repeat split; auto.
      intros H48. destruct int as [|i int]; [discriminate H48|].
      cbn in H48. subst i. injection E as -> _. now destruct Hx.
Qed.

Lemma number_frac_spec s fs s3 :
  number_frac s = Some (fs, s3) ->
  s = fs ++ s3 /\
  (fs = [] \/
   (exists ds, fs = 46 :: ds /\ ds <> [] /\
               List.Forall (fun x => Decimal.is_digit x = true) ds)).
Proof.
  destruct s as [|x s]; cbn [number_frac].
  - intros [= <- <-]. auto.
  - destruct (N.eqb_spec x 46) as [->|].
    + pose proof (digits_spec s) as (E & Hd & _).
      destruct (digits s) as [ds r]. cbn [fst snd] in *.
      destruct ds as [|d ds]; [discriminate|]. intros [= <- <-].
      split; [now rewrite E|]. right. exists (d :: ds).
      repeat split; auto; discriminate.
    + intros [= <- <-]. auto.
Qed.

Lemma number_exp_spec s es s4 :
  number_exp s = Some (es, s4) ->
  s = es ++ s4 /\
  (es = [] \/
   (exists e sg ds,
       es = e :: sg ++ ds /\ is_exp e = true /\
       (sg = [] \/ sg = [43] \/ sg = [45]) /\ ds <> [] /\
       List.Forall (fun x => Decimal.is_digit x = true) ds)).
Proof.
  destruct s as [|x s]; cbn [number_exp].
  - intros [= <- <-]. auto.
  - destruct ((x =? 101) || (x =? 69)) eqn:Ex.
    + assert (Hsg : exists sg s'',
                 (match s with
                  | y :: t => if (y =? 43) || (y =? 45) then ([y], t)
                              else ([], s)
                  | [] => ([], s)
                  end) = (sg, s'') /\ s = sg ++ s'' /\
                 (sg = [] \/ sg = [43] \/ sg = [45])).
      { destruct s as [|y t]; [exists [], []; auto|].
        destruct (N.eqb_spec y 43) as [->|]; cbn [orb].
        - exists [43], t. auto.
        - destruct (N.eqb_spec y 45) as [->|].
          + exists [45], t. auto.
          + exists [], (y :: t). auto. }
      destruct Hsg as (sg & s'' & -> & -> & Hsg).
      pose proof (digits_spec s'') as (E & Hd & _).
      destruct (digits s'') as [ds r]. cbn [fst snd] in *.
      destruct ds as [|d ds]; [discriminate|]. intros [= <- <-].
      split; [rewrite E; cbn [app]; now rewrite <- List.app_assoc|]. right.
      exists x, sg, (d :: ds). repeat split; auto; discriminate.
    + intros [= <- <-]. auto.
Qed.

Lemma next_not_app (f : N -> bool) a b :
  (a = [] -> next_not f b) ->
  (forall x t, a = x :: t -> f x = false) ->
  next_not f (a ++ b).
Proof.
  destruct a as [|x a]; cbn; intros H1 H2; [now apply H1|].
  now apply (H2 x a).
Qed.

(** What [parse_number] keeps as a literal reads back as that literal. *)
Lemma parse_number_real s lex r :
  parse_number s = Some (JReal lex, r) -> real_lexeme lex.
Proof.
  unfold parse_number.
  pose proof (number_sign_spec s) as Hsign.
  destruct (number_sign s) as [sg s1]. destruct Hsign as (_ & Hsg).
  pose proof (number_int_spec s1) as Hint.
  destruct (number_int s1) as [int s2].
  destruct Hint as (_ & Hd & Hz & _).
  destruct int as [|i int']; [discriminate|].
  set (int := i :: int') in *.
  destruct (number_frac s2) as [[fs s3]|] eqn:Ef; [|discriminate].
  destruct (number_exp s3) as [[es s4]|] eqn:Ee; [|discriminate].
  apply number_frac_spec in Ef as (_ & Hfs).
  apply number_exp_spec in Ee as (_ & Hes).
  intros Hlex.
  assert (E : lex = sg ++ int ++ fs ++ es /\ (fs <> [] \/ es <> [])).
  { destruct fs as [|f fs'].
    - destruct es as [|e es']; [discriminate Hlex|].
      injection Hlex as <- _. split; [reflexivity|right; discriminate].
    - destruct es as [|e es']; injection Hlex as <- _;
        (split; [reflexivity|left; discriminate]). }
  clear Hlex. destruct E as (-> & Hreal).
  assert (Hi : Decimal.is_digit i = true) by now inversion Hd.
  assert (Hi45 : i <> 45).
  { unfold Decimal.is_digit in Hi. apply andb_prop in Hi as [Ha Hb].
    apply N.leb_le in Ha, Hb. lia. }
  split.
  { destruct Hsg as [->| ->]; cbn; eauto. }
  intros rest Hs.
  assert (Hnd : next_not Decimal.is_digit rest)
    by (apply stop_next_not; auto).
  assert (Hdot : next_not is_dot rest) by (apply stop_next_not; auto).
  assert (Hexp : next_not is_exp rest) by (apply stop_next_not; auto).
  assert (Hes_nd : next_not Decimal.is_digit (es ++ rest)).
  { apply next_not_app; [auto|]. intros x t ->.
    destruct Hes as [?|(e & sg' & ds & [= -> _] & He & _)]; [discriminate|].
    unfold is_exp in He. unfold Decimal.is_digit.
    apply orb_prop in He as [He|He]; apply N.eqb_eq in He; now subst. }
  assert (Hes_dot : next_not is_dot (es ++ rest)).
  { apply next_not_app; [auto|]. intros x t ->.
    destruct Hes as [?|(e & sg' & ds & [= -> _] & He & _)]; [discriminate|].
    unfold is_exp in He. unfold is_dot.
    apply orb_prop in He as [He|He]; apply N.eqb_eq in He; now subst. }
  assert (Hfs_nd : next_not Decimal.is_digit (fs ++ es ++ rest)).
  { apply next_not_app; [auto|]. intros x t ->.
    destruct Hfs as [?|(ds & [= -> _] & _)]; [discriminate|reflexivity]. }
  rewrite <- !List.app_assoc. unfold parse_number.
  rewrite number_sign_app; auto.
  2:{ cbn. unfold is_minus. now apply N.eqb_neq. }
  rewrite number_int_app; auto; try discriminate.
  subst int. cbv iota.
  rewrite number_frac_app; auto.
  rewrite number_exp_app; auto.
  rewrite !List.app_assoc.
  destruct fs as [|f fs']; [destruct es as [|e es']|]; try reflexivity.
  now destruct Hreal.
Qed.

(** *** Values *)

Fixpoint encode_elements (l : list json) (first : bool) : list N :=
  match l with
  | [] => [93]
  | x :: l' => (if first then [] else [44]) ++ encode x
                 ++ encode_elements l' false
  end.

Fixpoint encode_members (m : props) (first : bool) : list N :=
  match m with
  | [] => [125]
  | (k, x) :: m' =>
      match x with
      | JUndefined => encode_members m' first
      | _ => (if first then [] else [44]) ++ quote k ++ [58] ++ encode x
               ++ encode_members m' false
      end
  end.

Lemma encode_arr l : encode (JArr l) = 91 :: encode_elements l true.
Proof. reflexivity. Qed.

Lemma encode_obj m : encode (JObj m) = 123 :: encode_members m true.
Proof. reflexivity. Qed.

(** The values that read back as themselves: no [undefined], number
    literals as the parser keeps them, no property twice. *)
Fixpoint wf (v : json) : Prop :=
  match v with
  | JUndefined => False
  | JNull | JBool _ | JInt _ | JStr _ => True
  | JReal lex => real_lexeme lex
  | JArr l =>
      (fix all (l : list json) : Prop :=
         match l with [] => True | x :: l' => wf x /\ all l' end) l
  | JObj m =>
      List.NoDup (List.map fst m) /\
      (fix all (m : props) : Prop :=
         match m with [] => True | kv :: m' => wf (snd kv) /\ all m' end) m
  end.

Lemma wf_arr l : wf (JArr l) <-> List.Forall wf l.
Proof.
  cbn [wf]. induction l as [|x l IH].
  - split; [constructor|tauto].
  - rewrite List.Forall_cons_iff, <- IH. tauto.
Qed.

Definition wf_props (m : props) : Prop :=
  List.NoDup (List.map fst m) /\ List.Forall (fun kv => wf (snd kv)) m.

Lemma wf_obj m : wf (JObj m) <-> wf_props m.
Proof.
  unfold wf_props. cbn [wf].
  assert (H : (fix all (m : props) : Prop :=
                 match m with [] => True | kv :: m' => wf (snd kv) /\ all m' end) m
              <-> List.Forall (fun kv => wf (snd kv)) m).
  { induction m as [|kv m IH].
    - split; [constructor|tauto].
    - rewrite List.Forall_cons_iff, <- IH. tauto. }
  tauto.
Qed.

(** The fuel a value needs. *)
Fixpoint size (v : json) : nat :=
  match v with
  | JArr l =>
      S ((fix sz (l : list json) : nat :=
            match l with [] => O | x :: l' => S (size x + sz l') end) l)
  | JObj m =>
      S ((fix sz (m : props) : nat :=
            match m with [] => O | kv :: m' => S (size (snd kv) + sz m') end) m)
  | _ => 1
  end.

Fixpoint size_elements (l : list json) : nat :=
  match l with [] => O | x :: l' => S (size x + size_elements l') end.

Fixpoint size_members (m : props) : nat :=
  match m with [] => O | kv :: m' => S (size (snd kv) + size_members m') end.

Lemma size_arr l : size (JArr l) = S (size_elements l).
Proof. reflexivity. Qed.

Lemma size_obj m : size (JObj m) = S (size_members m).
Proof. reflexivity. Qed.

Section Induction.
Variable P : json -> Prop.
Hypothesis Hundefined : P JUndefined.
Hypothesis Hnull : P JNull.
Hypothesis Hbool : forall b, P (JBool b).
Hypothesis Hint : forall z, P (JInt z).
Hypothesis Hreal : forall lex, P (JReal lex).
Hypothesis Hstr : forall s, P (JStr s).
Hypothesis Harr : forall l, List.Forall P l -> P (JArr l).
Hypothesis Hobj :
  forall m, List.Forall (fun kv => P (snd kv)) m -> P (JObj m).

Fixpoint json_induction (v : json) : P v :=
  match v with
  | JUndefined => Hundefined
  | JNull => Hnull
  | JBool b => Hbool b
  | JInt z => Hint z
  | JReal lex => Hreal lex
  | JStr s => Hstr s
  | JArr l =>
      Harr l ((fix all (l : list json) : List.Forall P l :=
                 match l with
                 | [] => @List.Forall_nil _ P
                 | x :: l' =>
                     @List.Forall_cons _ P x l' (json_induction x) (all l')
                 end) l)
  | JObj m =>
      Hobj m ((fix all (m : props) : List.Forall (fun kv => P (snd kv)) m :=
                 match m with
                 | [] => @List.Forall_nil _ _
                 | kv :: m' =>
                     @List.Forall_cons _ _ kv m' (json_induction (snd kv))
                       (all m')
                 end) m)
  end.
End Induction.

Lemma skip_ws_head x s : is_ws x = false -> skip_ws (x :: s) = x :: s.
Proof. intros H. cbn [skip_ws]. now rewrite H. Qed.

(** The text of a value starts with a code unit that is not white space and
    closes nothing. *)
Definition opens (x : N) : Prop :=
  is_ws x = false /\ x <> 93 /\ x <> 125.

Lemma digit_opens x : x = 45 \/ Decimal.is_digit x = true -> opens x.
Proof.
  unfold opens, is_ws, Decimal.is_digit.
  intros [->|H]; [repeat split; discriminate|].
  apply andb_prop in H as [Ha Hb]. apply N.leb_le in Ha, Hb.
  repeat split; try lia.
  repeat (apply orb_false_intro); apply N.eqb_neq; lia.
Qed.

Lemma of_Z_head z :
  exists x t, Decimal.of_Z z = x :: t /\ (x = 45 \/ Decimal.is_digit x = true).
Proof.
  assert (G : forall n, exists x t,
               Decimal.of_N n = x :: t /\ Decimal.is_digit x = true).
  { intros n. destruct (DecimalFacts.of_N_spec n) as (Hne & Hd & _).
    destruct (Decimal.of_N n) as [|x t]; [now destruct Hne|].
    exists x, t. split; [reflexivity|]. now inversion Hd. }
  destruct z as [|p|p]; cbn [Decimal.of_Z].
  - destruct (G 0) as (x & t & E & H). eauto.
  - destruct (G (Z.to_N (Z.pos p))) as (x & t & E & H). eauto.
  - eauto.
Qed.

Lemma encode_head v :
  wf v -> exists x t, encode v = x :: t /\ opens x.
Proof.
  destruct v as [| |[]|z|lex|str|l|m]; cbn [wf]; intros H;
    try (now destruct H);
    try (eexists _, _; split; [reflexivity|];
         repeat split; (reflexivity || discriminate)).
  - destruct (of_Z_head z) as (x & t & E & Hx).
    exists x, t. split; [exact E|now apply digit_opens].
  - destruct H as ((x & t & -> & Hx) & _).
    exists x, t. split; [reflexivity|now apply digit_opens].
Qed.

(** A text that starts like a number is parsed as a number. *)
Lemma parse_value_number fuel x s :
  x = 45 \/ Decimal.is_digit x = true ->
  parse_value (S fuel) (x :: s) = parse_number (x :: s).
Proof.
  intros Hx. destruct (digit_opens x Hx) as (Hws & _).
  cbn [parse_value]. rewrite (skip_ws_head x s Hws).
  assert (Hne : forall c, c = 123 \/ c = 91 \/ c = 34 \/ c = 116 \/
                          c = 102 \/ c = 110 -> (x =? c) = false).
  { intros c Hc. apply N.eqb_neq. destruct Hx as [->|H].
    - intuition (subst; discriminate).
    - unfold Decimal.is_digit in H. apply andb_prop in H as [Ha Hb].
      apply N.leb_le in Ha, Hb. intuition (subst; lia). }
  rewrite !Hne by tauto. reflexivity.
Qed.

Lemma stop_opens_elements l rest : stop (encode_elements l false ++ rest).
Proof. destruct l; cbn; auto. Qed.

Lemma stop_opens_members m rest :
  List.Forall (fun kv => wf (snd kv)) m ->
  stop (encode_members m false ++ rest).
Proof.
  destruct m as [|[k x] m]; cbn; auto.
  intros H. inversion H as [|? ? Hx _]; subst. cbn in Hx.
  destruct x; cbn; auto. now destruct Hx.
Qed.

Lemma encode_members_cons k x m first :
  wf x ->
  encode_members ((k, x) :: m) first
  = (if first then [] else [44]) ++ quote k ++ [58] ++ encode x
      ++ encode_members m false.
Proof. destruct x; cbn [wf encode_members]; intros H; tauto || reflexivity. Qed.

Definition reads_back (v : json) : Prop :=
  wf v ->
  forall fuel rest,
    (size v <= fuel)%nat -> stop rest ->
    parse_value fuel (encode v ++ rest) = Some (v, rest).

Lemma parse_elements_encode l :
  List.Forall reads_back l -> List.Forall wf l ->
  forall x, reads_back x -> wf x ->
  forall fuel rest acc,
    (size_elements (x :: l) <= fuel)%nat -> stop rest ->
    parse_elements fuel (encode x ++ encode_elements l false ++ rest) acc
    = Some (List.rev acc ++ x :: l, rest).
Proof.
  induction 1 as [|x2 l Hx2 _ IH]; intros Hwf x Hx Hwx fuel rest acc Hf Hs;
    (destruct fuel as [|fuel]; [cbn in Hf; lia|]); cbn [parse_elements].
  - rewrite (Hx Hwx fuel (encode_elements [] false ++ rest));
      [|cbn in Hf; lia|cbn; auto].
    cbn. reflexivity.
  - inversion Hwf as [|? ? Hw2 Hwl]; subst.
    rewrite (Hx Hwx fuel (encode_elements (x2 :: l) false ++ rest));
      [|cbn in Hf |- *; lia|apply stop_opens_elements].
    cbn [encode_elements app skip_ws]. change (is_ws 44) with false.
    cbv iota. change (44 =? 44) with true. cbv iota.
    rewrite <- !List.app_assoc.
    rewrite (IH Hwl x2 Hx2 Hw2 fuel rest (x :: acc)); [|cbn in Hf |- *; lia|auto].
    cbn [List.rev]. now rewrite <- List.app_assoc.
Qed.

Lemma parse_members_encode m :
  List.Forall (fun kv => reads_back (snd kv)) m ->
  List.Forall (fun kv => wf (snd kv)) m ->
  forall k x, reads_back x -> wf x ->
  forall fuel rest acc,
    (size_members ((k, x) :: m) <= fuel)%nat -> stop rest ->
    parse_members fuel
      (quote k ++ [58] ++ encode x ++ encode_members m false ++ rest) acc
    = Some (extend acc ((k, x) :: m), rest).
Proof.
  induction 1 as [|[k2 x2] m Hx2 _ IH];
    intros Hwf k x Hx Hwx fuel rest acc Hf Hs;
    (destruct fuel as [|fuel]; [cbn in Hf; lia|]); cbn [parse_members];
    unfold quote; cbn [app skip_ws]; change (is_ws 34) with false;
    cbv iota; change (34 =? 34) with true; cbv iota;
    rewrite <- List.app_assoc; cbn [app];
    rewrite parse_quote_chars; cbn [List.rev app skip_ws];
    change (is_ws 58) with false; cbv iota; change (58 =? 58) with true;
    cbv iota.
  - rewrite (Hx Hwx fuel (encode_members [] false ++ rest));
      [|cbn in Hf; lia|cbn; auto].
    cbn. reflexivity.
  - inversion Hwf as [|? ? Hw2 Hwl]; subst. cbn [snd] in *.
    rewrite (Hx Hwx fuel (encode_members ((k2, x2) :: m) false ++ rest));
      [|cbn in Hf |- *; lia|now apply stop_opens_members].
    rewrite (encode_members_cons k2 x2 m false Hw2).
    cbn [app skip_ws]. change (is_ws 44) with false.
    cbv iota. change (44 =? 44) with true. cbv iota.
    match goal with
    | |- parse_members _ ?t _ = _ =>
        replace t
          with (quote k2 ++ [58] ++ encode x2 ++ encode_members m false ++ rest)
          by (repeat (rewrite <- List.app_assoc || (progress cbn [app]));
              reflexivity)
    end.
    rewrite (IH Hwl k2 x2 Hx2 Hw2 fuel rest (set k x acc));
      [|cbn in Hf |- *; lia|auto].
    reflexivity.
Qed.

Lemma get_none_set k v m :
  ~ List.In k (List.map fst m) -> set k v m = m ++ [(k, v)].
Proof.
  induction m as [|[k0 v0] m IH]; cbn; intros H; [reflexivity|].
  rewrite bool_decide_eq_false_2 by tauto. now rewrite IH by tauto.
Qed.

Lemma extend_fresh m acc :
  List.NoDup (List.map fst m) ->
  (forall k, List.In k (List.map fst m) -> ~ List.In k (List.map fst acc)) ->
  extend acc m = acc ++ m.
Proof.
  unfold extend. revert acc.
  induction m as [|[k v] m IH]; intros acc Hnd Hdis; cbn.
  - now rewrite List.app_nil_r.
  - inversion Hnd as [|? ? Hk Hm]; subst.
    rewrite get_none_set by (apply Hdis; now left).
    change (fold_left (fun acc kv => set (fst kv) (snd kv) acc) m
              (acc ++ [(k, v)]))
      with (extend (acc ++ [(k, v)]) m).
    unfold extend in IH |- *. rewrite IH; auto.
    + now rewrite <- List.app_assoc.
    + intros k' Hin. rewrite List.map_app, List.in_app_iff. cbn.
      intros [H|[H|[]]].
      * apply (Hdis k'); [now right|exact H].
      * subst. contradiction.
Qed.

(** A well-formed value reads back from its text. *)
Lemma reads_back_all v : reads_back v.
Proof.
  induction v as [| |b|z|lex|str|l IH|m IH] using json_induction;
    intros Hwf fuel rest Hf Hs;
    (destruct fuel as [|fuel]; [cbn in Hf; lia|]).
  - destruct Hwf.
  - reflexivity.
  - destruct b; reflexivity.
  - cbn [encode]. destruct (of_Z_head z) as (x & t & E & Hx).
    pose proof (parse_number_int z rest Hs) as Hp.
    rewrite E in *. cbn [app] in *.
    now rewrite parse_value_number.
  - cbn [encode wf] in *. destruct Hwf as ((x & t & -> & Hx) & Hp).
    specialize (Hp rest Hs). cbn [app] in *.
    now rewrite parse_value_number.
  - cbn [encode parse_value]. unfold quote. cbn [app skip_ws].
    change (is_ws 34) with false. cbv iota.
    change (34 =? 123) with false. change (34 =? 91) with false.
    change (34 =? 34) with true. cbv iota.
    rewrite <- List.app_assoc. cbn [app].
    now rewrite parse_quote_chars.
  - rewrite encode_arr. apply wf_arr in Hwf. rewrite size_arr in Hf.
    cbn [app parse_value skip_ws]. change (is_ws 91) with false. cbv iota.
    change (91 =? 123) with false. change (91 =? 91) with true. cbv iota.
    destruct l as [|x l].
    + reflexivity.
    + inversion IH as [|? ? Hx IHl]; subst.
      inversion Hwf as [|? ? Hwx Hwl]; subst.
      cbn [encode_elements app].
      destruct (encode_head x Hwx) as (h & t & E & Hws & H93 & _).
      rewrite E. cbn [app]. rewrite (skip_ws_head h _ Hws).
      apply N.eqb_neq in H93. rewrite H93.
      match goal with
      | |- context [parse_elements _ ?u _] =>
          replace u with (encode x ++ encode_elements l false ++ rest)
            by (rewrite E;
                repeat (rewrite <- List.app_assoc || (progress cbn [app]));
                reflexivity)
      end.
      rewrite (parse_elements_encode l IHl Hwl x Hx Hwx fuel rest []);
        [reflexivity|lia|exact Hs].
  - rewrite encode_obj. apply wf_obj in Hwf as [Hnd Hwm].
    rewrite size_obj in Hf.
    cbn [app parse_value skip_ws]. change (is_ws 123) with false. cbv iota.
    change (123 =? 123) with true. cbv iota.
    destruct m as [|[k x] m].
    + reflexivity.
    + inversion IH as [|? ? Hx IHm]; subst.
      inversion Hwm as [|? ? Hwx Hwl]; subst. cbn [snd] in *.
      rewrite (encode_members_cons k x m true Hwx).
      unfold quote at 1. cbn [app skip_ws]. change (is_ws 34) with false.
      cbv iota. change (34 =? 125) with false. cbv iota.
      match goal with
      | |- context [parse_members _ ?u _] =>
          replace u
            with (quote k ++ [58] ++ encode x ++ encode_members m false ++ rest)
            by (unfold quote;
                repeat (rewrite <- List.app_assoc || (progress cbn [app]));
                reflexivity)
      end.
      rewrite (parse_members_encode m IHm Hwl k x Hx Hwx fuel rest []);
        [|lia|exact Hs].
      rewrite (extend_fresh ((k, x) :: m) []); [reflexivity|exact Hnd|].
      intros ? _ [].
Qed.

Lemma size_le_encode v :
  wf v -> (size v + 1 <= 2 * length (encode v))%nat.
Proof.
  induction v as [| |b|z|lex|str|l IH|m IH] using json_induction;
    intros Hwf.
  - destruct Hwf.
  - cbn. lia.
  - destruct b; cbn; lia.
  - cbn [encode size]. destruct (of_Z_head z) as (x & t & -> & _). cbn. lia.
  - cbn [encode size wf] in *. destruct Hwf as ((x & t & -> & _) & _).
    cbn. lia.
  - cbn [encode size]. unfold quote. cbn [length].
    rewrite List.length_app. cbn. lia.
  - rewrite encode_arr, size_arr. apply wf_arr in Hwf. cbn [length].
    assert (G : forall first,
               (size_elements l + 1
                <= 2 * length (encode_elements l first))%nat).
    { induction l as [|x l IHl]; intros first; [cbn; lia|].
      inversion IH as [|? ? Hx IHf]; subst.
      inversion Hwf as [|? ? Hwx Hwl]; subst.
      cbn [size_elements encode_elements]. rewrite !List.length_app.
      specialize (IHl IHf Hwl false). specialize (Hx Hwx). lia. }
    specialize (G true). lia.
  - rewrite encode_obj, size_obj. apply wf_obj in Hwf as [_ Hwm].
    cbn [length].
    assert (G : forall first,
               (size_members m + 1
                <= 2 * length (encode_members m first))%nat).
    { induction m as [|[k x] m IHm]; intros first; [cbn; lia|].
      inversion IH as [|? ? Hx IHf]; subst.
      inversion Hwm as [|? ? Hwx Hwl]; subst. cbn [snd] in *.
      rewrite (encode_members_cons k x m first Hwx).
      cbn [size_members snd]. rewrite !List.length_app.
      specialize (IHm IHf Hwl false). specialize (Hx Hwx). lia. }
    specialize (G true). lia.
Qed.

(** [JSON.parse(JSON.stringify(v))] is [v] for a well-formed value. *)
Lemma parse_encode v : wf v -> Json.parse (encode v) = Some v.
Proof.
  intros Hwf. unfold Json.parse.
  pose proof (reads_back_all v Hwf (2 * length (encode v) + 2)%nat []) as H.
  rewrite List.app_nil_r in H. rewrite H; [reflexivity| |exact I].
  pose proof (size_le_encode v Hwf). lia.
Qed.

(** *** What the parser returns is well formed *)

Lemma in_set_keys a k v m :
  List.In a (List.map fst (set k v m)) ->
  a = k \/ List.In a (List.map fst m).
Proof.
  induction m as [|[k0 v0] m IH]; cbn.
  - intros [<-|[]]. now left.
  - destruct (bool_decide_reflect (k0 = k)) as [->|Hne]; cbn.
    + tauto.
    + intros [<-|H]; [tauto|]. destruct (IH H); tauto.
Qed.

Lemma set_wf k v m : wf_props m -> wf v -> wf_props (set k v m).
Proof.
  intros [Hnd Hall] Hv. split.
  - induction m as [|[k0 v0] m IH]; cbn.
    + repeat constructor. intros [].
    + cbn in Hnd. inversion Hnd as [|? ? Hk Hm]; subst.
      inversion Hall as [|? ? _ Hall']; subst.
      destruct (bool_decide_reflect (k0 = k)) as [->|Hne]; cbn.
      * now constructor.
      * constructor; [|now apply IH].
        intros Hin. apply in_set_keys in Hin as [->|Hin]; tauto.
  - induction m as [|[k0 v0] m IH]; cbn.
    + now repeat constructor.
    + inversion Hall as [|? ? Hv0 Hall']; subst.
      cbn in Hnd. inversion Hnd as [|? ? Hk Hm]; subst.
      destruct (bool_decide (k0 = k)); constructor; auto.
Qed.


Lemma wf_props_nil : wf_props [].
Proof. split; constructor. Qed.

Lemma parse_number_wf s v r : parse_number s = Some (v, r) -> wf v.
Proof.
  intros H. destruct v; try exact I.
  - exfalso. revert H. unfold parse_number.
    destruct (number_sign s) as [sg s1].
    destruct (number_int s1) as [[|i int] s2]; [discriminate|].
    destruct (number_frac s2) as [[fs s3]|]; [|discriminate].
    destruct (number_exp s3) as [[es s4]|]; [|discriminate].
    destruct fs, es; discriminate.
  - cbn [wf]. now apply (parse_number_real s lexeme r).
  - exfalso. revert H. unfold parse_number.
    destruct (number_sign s) as [sg s1].
    destruct (number_int s1) as [[|i int] s2]; [discriminate|].
    destruct (number_frac s2) as [[fs s3]|]; [|discriminate].
    destruct (number_exp s3) as [[es s4]|]; [|discriminate].
    destruct fs, es; discriminate.
  - exfalso. revert H. unfold parse_number.
    destruct (number_sign s) as [sg s1].
    destruct (number_int s1) as [[|i int] s2]; [discriminate|].
    destruct (number_frac s2) as [[fs s3]|]; [|discriminate].
    destruct (number_exp s3) as [[es s4]|]; [|discriminate].
    destruct fs, es; discriminate.
Qed.

Lemma literal_wf (v : json) lit s x r :
  wf v -> option_map (pair v) (strip_prefix lit s) = Some (x, r) -> wf x.
Proof.
  intros Hv. destruct (strip_prefix lit s); [|discriminate].
  now intros [= <- _].
Qed.

Lemma parse_wf_fuel fuel :
  (forall s v r, parse_value fuel s = Some (v, r) -> wf v) /\
  (forall s acc l r,
      List.Forall wf acc -> parse_elements fuel s acc = Some (l, r) ->
      List.Forall wf l) /\
  (forall s acc m r,
      wf_props acc -> parse_members fuel s acc = Some (m, r) -> wf_props m).
Proof.
  induction fuel as [|fuel (IHv & IHe & IHm)].
  { repeat split; intros; discriminate. }
  split; [|split].
  - intros s v r. cbn [parse_value].
    destruct (skip_ws s) as [|x s1]; [discriminate|].
    destruct (x =? 123).
    { destruct (skip_ws s1) as [|y s2]; [discriminate|].
      destruct (y =? 125).
      - intros [= <- _]. apply wf_obj, wf_props_nil.
      - destruct (parse_members fuel s1 []) as [[m r']|] eqn:E;
          [|discriminate].
        intros [= <- _]. apply wf_obj. apply (IHm _ _ _ _ wf_props_nil E). }
    destruct (x =? 91).
    { destruct (skip_ws s1) as [|y s2]; [discriminate|].
      destruct (y =? 93).
      - intros [= <- _]. apply wf_arr. constructor.
      - destruct (parse_elements fuel s1 []) as [[l r']|] eqn:E;
          [|discriminate].
        intros [= <- _]. apply wf_arr.
        apply (IHe _ _ _ _ (List.Forall_nil _) E). }
    destruct (x =? 34).
    { destruct (parse_chars s1 []) as [[str r']|]; [|discriminate].
      now intros [= <- _]. }
    destruct (x =? 116); [now apply literal_wf|].
    destruct (x =? 102); [now apply literal_wf|].
    destruct (x =? 110); [now apply literal_wf|].
    apply parse_number_wf.
  - intros s acc l r Hacc. cbn [parse_elements].
    destruct (parse_value fuel s) as [[v s1]|] eqn:E; [|discriminate].
    apply IHv in E.
    destruct (skip_ws s1) as [|y s2]; [discriminate|].
    destruct (y =? 44).
    + apply IHe. now constructor.
    + destruct (y =? 93); [|discriminate]. intros [= <- _].
      change (List.Forall wf (List.rev (v :: acc))).
      apply List.Forall_rev. now constructor.
  - intros s acc m r Hacc. cbn [parse_members].
    destruct (skip_ws s) as [|q s1]; [discriminate|].
    destruct (q =? 34); [|discriminate].
    destruct (parse_chars s1 []) as [[k s2]|]; [|discriminate].
    destruct (skip_ws s2) as [|c s3]; [discriminate|].
    destruct (c =? 58); [|discriminate].
    destruct (parse_value fuel s3) as [[v s4]|] eqn:E; [|discriminate].
    apply IHv in E.
    destruct (skip_ws s4) as [|y s5]; [discriminate|].
    destruct (y =? 44).
    + apply IHm. now apply set_wf.
    + destruct (y =? 125); [|discriminate]. intros [= <- _].
      now apply set_wf.
Qed.

Lemma parse_wf text v : Json.parse text = Some v -> wf v.
Proof.
  unfold Json.parse.
  destruct (parse_value _ text) as [[v' r]|] eqn:E; [|discriminate].
  destruct (skip_ws r); [|discriminate]. intros [= <-].
  now apply (proj1 (parse_wf_fuel _) _ _ _ E).
Qed.

(** What was parsed survives being written and read again. *)
Lemma parse_stable text v :
  Json.parse text = Some v -> Json.parse (encode v) = Some v.
Proof. intros H. apply parse_encode. now apply (parse_wf text). Qed.

End JsonFacts.

(** ** The cache: a stored result is served again *)

Module CacheFacts.
Import Json JsString Effects GeminiService GeminiFacts AdapterFacts JsonFacts.

(** The object [saveToCache] writes for a result at a time. *)
Definition entry (result : json) (t : Z) : json :=
  JObj (extend (spread result)
          [(js "cachedAt", JStr (Date.toISOString t));
           (js "expiresAt", JStr (Date.toISOString (t + CACHE_TTL CONFIG)))]).

Lemma saveToCache_run env hash result w :
  writable w = true ->
  saveToCache env hash result w
  = (Ok tt,
     MkWorld (now w)
       (<[getCachePath env hash
          := MkFile (now w) (Json.encode (entry result (now w)))]> (files w))
       (writable w)
       ((events w ++ [Mkdir (CACHE_DIR env)])
          ++ [WriteFile (getCachePath env hash)])).
Proof.
  intros Hw.
  unfold saveToCache, try_catch, fs_mkdir, fs_writeFile, toISOString,
    bind, tell, Date_now, ret.
  cbn [now files writable events]. rewrite Hw. reflexivity.
Qed.




End CacheFacts.

Module CacheSpec.
Import Json JsString Effects GeminiService GeminiFacts AdapterFacts JsonFacts.
Import CacheFacts AdapterSpec RegExp.


Definition answer_value : json :=
  obj [(js "issueType", JStr (js "Crash"));
       (js "rootCause", JStr (js "null pointer"));
       (js "suggestedFix", JArr [JStr (js "restart")]);
       (js "severity", JStr (js "High"));
       (js "category", JStr (js "application"));
       (js "confidence", JInt 90)].


End CacheSpec.

(** ** The matcher against a declarative reading of patterns *)

Module RegExpFacts.
Import CharClass RegExp.

(** The previous code unit after the code units [b] have been consumed. *)
Definition after (p : option N) (b : list N) : option N :=
  fold_left (fun _ x => Some x) b p.

Section Iter.
Variable R : option N -> list N -> option N -> list N -> Prop.

(** The iterations of a quantifier, with the rule of the matcher that an
    iteration past the minimum must consume something. *)
Inductive Iter
  : nat -> option nat -> option N -> list N -> option N -> list N -> Prop :=
| Iter_max lo p s : Iter lo (Some O) p s p s
| Iter_stop hi p s : Iter O hi p s p s
| Iter_step lo hi p s p1 s1 p2 s2 :
    hi <> Some O ->
    R p s p1 s1 ->
    (lo = O -> length s1 <> length s) ->
    Iter (Nat.pred lo) (option_map Nat.pred hi) p1 s1 p2 s2 ->
    Iter lo hi p s p2 s2.
End Iter.

(** [M ic r p s p' s']: the pattern [r] can match from the position
    [(p, s)] to the position [(p', s')]. *)
Fixpoint M (ic : bool) (r : regex) (p : option N) (s : list N)
           (p' : option N) (s' : list N) {struct r} : Prop :=
  match r with
  | Eps => p' = p /\ s' = s
  | Chr c => exists x, s = x :: s' /\ matches ic c x = true /\ p' = Some x
  | Seq a b => exists p1 s1, M ic a p s p1 s1 /\ M ic b p1 s1 p' s'
  | Alt a b => M ic a p s p' s' \/ M ic b p s p' s'
  | WordB => at_boundary p s = true /\ p' = p /\ s' = s
  | Rep _ lo hi a => Iter (M ic a) lo hi p s p' s'
  end.

Lemma after_app p a b : after p (a ++ b) = after (after p a) b.
Proof. unfold after. apply fold_left_app. Qed.

Lemma Iter_split R lo hi p s p' s' :
  (forall p s p' s', R p s p' s' -> exists b, s = b ++ s' /\ p' = after p b) ->
  Iter R lo hi p s p' s' -> exists b, s = b ++ s' /\ p' = after p b.
Proof.
  intros HR H. induction H as [lo p s|hi p s|lo hi p s p1 s1 p2 s2 _ H1 _ _ IH].
  - exists []; auto.
  - exists []; auto.
  - destruct (HR _ _ _ _ H1) as (b1 & -> & ->).
    destruct IH as (b2 & -> & ->).
    exists (b1 ++ b2). rewrite after_app, <- List.app_assoc. auto.
Qed.

(** A match consumes a prefix of the input. *)
Lemma M_split ic r : forall p s p' s',
  M ic r p s p' s' -> exists b, s = b ++ s' /\ p' = after p b.
Proof.
  induction r as [|c|a IHa b IHb|a IHa b IHb|g lo hi a IHa|];
    intros p s p' s' H; cbn [M] in H.
  - destruct H as [-> ->]. exists []; auto.
  - destruct H as (x & -> & _ & ->). exists [x]; auto.
  - destruct H as (p1 & s1 & H1 & H2).
    destruct (IHa _ _ _ _ H1) as (b1 & -> & ->).
    destruct (IHb _ _ _ _ H2) as (b2 & -> & ->).
    exists (b1 ++ b2). rewrite after_app, <- List.app_assoc. auto.
  - destruct H as [H|H]; eauto.
  - eapply Iter_split; eauto.
  - destruct H as (_ & -> & ->). exists []; auto.
Qed.

Lemma M_length ic r p s p' s' :
  M ic r p s p' s' -> (length s' <= length s)%nat.
Proof.
  intros H. destruct (M_split _ _ _ _ _ _ H) as (b & -> & _).
  rewrite List.length_app. lia.
Qed.

Section Engine.
Context {X : Type}.
Variable ic : bool.
Implicit Types (k : @cont X) (body : @matcher X).

Lemma rep_loop_sound body R g k :
  (forall p s k res, body p s k = Some res ->
     exists p' s', R p s p' s' /\ k p' s' = Some res) ->
  forall fuel lo hi p s res,
    rep_loop body g k fuel lo hi p s = Some res ->
    exists p' s', Iter R lo hi p s p' s' /\ k p' s' = Some res.
Proof.
  intros Hb. induction fuel as [|fuel IH]; intros lo hi p s res H;
    [discriminate|].
  cbn [rep_loop] in H.
  assert (Hstep : forall hi', hi' <> Some O ->
    body p s (fun p' s' =>
      if Nat.eqb lo 0 && Nat.eqb (length s') (length s) then None
      else rep_loop body g k fuel (Nat.pred lo) (option_map Nat.pred hi') p' s')
      = Some res ->
    exists p' s', Iter R lo hi' p s p' s' /\ k p' s' = Some res).
  { intros hi' Hhi E. destruct (Hb _ _ _ _ E) as (p1 & s1 & H1 & E1).
    destruct (Nat.eqb lo 0 && Nat.eqb (length s1) (length s)) eqn:Ec;
      [discriminate|].
    destruct (IH _ _ _ _ _ E1) as (p2 & s2 & H2 & E2).
    exists p2, s2. split; auto.
    eapply Iter_step; eauto.
    intros ->. cbn in Ec. apply Nat.eqb_neq in Ec. exact Ec. }
  assert (Hstop : lo = O -> k p s = Some res ->
    exists p' s', Iter R lo hi p s p' s' /\ k p' s' = Some res).
  { intros -> E. exists p, s. split; auto. apply Iter_stop. }
  destruct hi as [[|n]|].
  - exists p, s. split; auto. apply Iter_max.
  - destruct (Nat.eqb lo 0) eqn:El; cbn [negb] in H.
    + apply Nat.eqb_eq in El. subst lo. destruct g.
      * match type of H with match ?b with _ => _ end = _ =>
          destruct b eqn:E end.
        -- injection H as <-. apply Hstep; [discriminate|exact E].
        -- auto.
      * destruct (k p s) eqn:E.
        -- injection H as <-. auto.
        -- apply Hstep; [discriminate|exact H].
    + apply Hstep; [discriminate|]. exact H.
  - destruct (Nat.eqb lo 0) eqn:El; cbn [negb] in H.
    + apply Nat.eqb_eq in El. subst lo. destruct g.
      * match type of H with match ?b with _ => _ end = _ =>
          destruct b eqn:E end.
        -- injection H as <-. apply Hstep; [discriminate|exact E].
        -- auto.
      * destruct (k p s) eqn:E.
        -- injection H as <-. auto.
        -- apply Hstep; [discriminate|exact H].
    + apply Hstep; [discriminate|]. exact H.
Qed.

Lemma rep_loop_complete body R g k :
  (forall p s k, body p s k = None ->
     forall p' s', R p s p' s' -> k p' s' = None) ->
  (forall p s p' s', R p s p' s' -> (length s' <= length s)%nat) ->
  forall fuel lo hi p s,
    (lo + length s < fuel)%nat ->
    rep_loop body g k fuel lo hi p s = None ->
    forall p' s', Iter R lo hi p s p' s' -> k p' s' = None.
Proof.
  intros Hb Hlen. induction fuel as [|fuel IH]; intros lo hi p s Hf H p' s' Hi;
    [lia|].
  cbn [rep_loop] in H.
  assert (Hstep : 
    body p s (fun p' s' =>
      if Nat.eqb lo 0 && Nat.eqb (length s') (length s) then None
      else rep_loop body g k fuel (Nat.pred lo) (option_map Nat.pred hi) p' s')
      = None ->
    forall p1 s1, R p s p1 s1 -> (lo = O -> length s1 <> length s) ->
    Iter R (Nat.pred lo) (option_map Nat.pred hi) p1 s1 p' s' ->
    k p' s' = None).
  { intros E p1 s1 H1 Hne H2. specialize (Hb _ _ _ E _ _ H1). cbn beta in Hb.
    pose proof (Hlen _ _ _ _ H1) as Hl.
    assert (Ec : Nat.eqb lo 0 && Nat.eqb (length s1) (length s) = false).
    { destruct lo; [|reflexivity]. cbn. apply Nat.eqb_neq. auto. }
    rewrite Ec in Hb. eapply IH; [|exact Hb|exact H2].
    destruct lo; [specialize (Hne eq_refl)|]; cbn; lia. }
  destruct Hi as [lo p s|hi p s|lo hi p s p1 s1 p2 s2 Hhi H1 Hne H2].
  - exact H.
  - destruct hi as [[|n]|]; [exact H| |]; cbn in H.
    + destruct g.
      * match type of H with match ?b with _ => _ end = _ =>
          destruct b end; [discriminate|exact H].
      * destruct (k p s); [discriminate|reflexivity].
    + destruct g.
      * match type of H with match ?b with _ => _ end = _ =>
          destruct b end; [discriminate|exact H].
      * destruct (k p s); [discriminate|reflexivity].
  - assert (E : body p s (fun p' s' =>
      if Nat.eqb lo 0 && Nat.eqb (length s') (length s) then None
      else rep_loop body g k fuel (Nat.pred lo) (option_map Nat.pred hi) p' s')
      = None).
    { destruct hi as [[|n]|]; [congruence| |].
      - destruct (Nat.eqb lo 0); cbn [negb] in H; [|exact H].
        destruct g.
        + match type of H with match ?b with _ => _ end = _ =>
            destruct b eqn:E end; [discriminate|reflexivity].
        + destruct (k p s); [discriminate|exact H].
      - destruct (Nat.eqb lo 0); cbn [negb] in H; [|exact H].
        destruct g.
        + match type of H with match ?b with _ => _ end = _ =>
            destruct b eqn:E end; [discriminate|reflexivity].
        + destruct (k p s); [discriminate|exact H]. }
    eapply Hstep; eauto.
Qed.

(** The matcher finds only matches of the declarative reading... *)
Lemma m_sound r : forall p s k res,
  m ic r p s k = Some res ->
  exists p' s', M ic r p s p' s' /\ k p' s' = Some res.
Proof.
  induction r as [|c|a IHa b IHb|a IHa b IHb|g lo hi a IHa|];
    intros p s k res H; cbn [m] in H; cbn [M].
  - eauto.
  - destruct s as [|x s]; [discriminate|].
    destruct (matches ic c x) eqn:E; [|discriminate]. eauto 10.
  - destruct (IHa _ _ _ _ H) as (p1 & s1 & H1 & E1).
    destruct (IHb _ _ _ _ E1) as (p2 & s2 & H2 & E2). eauto 10.
  - destruct (m ic a p s k) eqn:E.
    + inversion H; subst. destruct (IHa _ _ _ _ E) as (? & ? & ? & ?).
      eauto 10.
    + destruct (IHb _ _ _ _ H) as (? & ? & ? & ?). eauto 10.
  - eapply rep_loop_sound; eauto.
  - destruct (at_boundary p s) eqn:E; [|discriminate]. eauto 10.
Qed.

(** ... and it finds one whenever there is one. *)
Lemma m_complete r : forall p s k,
  m ic r p s k = None ->
  forall p' s', M ic r p s p' s' -> k p' s' = None.
Proof.
  induction r as [|c|a IHa b IHb|a IHa b IHb|g lo hi a IHa|];
    intros p s k H p' s' HM; cbn [m] in H; cbn [M] in HM.
  - destruct HM as [-> ->]. exact H.
  - destruct HM as (x & -> & E & ->). rewrite E in H. exact H.
  - destruct HM as (p1 & s1 & H1 & H2).
    eapply IHb; [|exact H2]. eapply (IHa _ _ _ H); eauto.
  - destruct (m ic a p s k) eqn:E; [discriminate|].
    destruct HM as [HM|HM]; eauto.
  - refine (rep_loop_complete _ _ _ _ IHa _ _ _ _ _ _ _ H _ _ HM);
      [intros; eapply M_length; eauto|lia].
  - destruct HM as (E & -> & ->). rewrite E in H. exact H.
Qed.

End Engine.

Lemma match_at_sound ic r p s p' s' :
  match_at ic r p s = Some (p', s') -> M ic r p s p' s'.
Proof.
  unfold match_at. intros H.
  destruct (m_sound ic r _ _ _ _ H) as (p1 & s1 & H1 & E).
  inversion E; subst. exact H1.
Qed.

Lemma match_at_complete ic r p s :
  match_at ic r p s = None -> forall p' s', ~ M ic r p s p' s'.
Proof.
  unfold match_at. intros H p' s' HM.
  pose proof (m_complete ic r _ _ _ H _ _ HM). discriminate.
Qed.

(** *** What the syntax of a pattern says about its matches *)

Definition is_zero (hi : option nat) : bool :=
  match hi with Some O => true | _ => false end.

(** Every match consumes a code unit of a class that satisfies [f]. *)
Fixpoint anchored (f : cls -> bool) (r : regex) : bool :=
  match r with
  | Eps | WordB => false
  | Chr c => f c
  | Seq a b => anchored f a || anchored f b
  | Alt a b => anchored f a && anchored f b
  | Rep _ lo hi a => negb (Nat.eqb lo 0) && negb (is_zero hi) && anchored f a
  end.

(** No match is empty. *)
Definition consumes (r : regex) : bool := anchored (fun _ => true) r.

(** Every class of the pattern satisfies [f]. *)
Fixpoint classes (f : cls -> bool) (r : regex) : bool :=
  match r with
  | Eps | WordB => true
  | Chr c => f c
  | Seq a b | Alt a b => classes f a && classes f b
  | Rep _ _ _ a => classes f a
  end.

(** The first code unit of a match is of a class that satisfies [f]. *)
Fixpoint firsts (f : cls -> bool) (r : regex) : bool :=
  match r with
  | Eps | WordB => true
  | Chr c => f c
  | Seq a b => firsts f a && (consumes a || firsts f b)
  | Alt a b => firsts f a && firsts f b
  | Rep _ _ _ a => firsts f a
  end.

(** The pattern has no [\b]. *)
Fixpoint nob (r : regex) : bool :=
  match r with
  | WordB => false
  | Eps | Chr _ => true
  | Seq a b | Alt a b => nob a && nob b
  | Rep _ _ _ a => nob a
  end.

(** The pattern starts with, ends with [\b]. *)
Fixpoint starts_b (r : regex) : bool :=
  match r with
  | WordB => true
  | Seq a _ => starts_b a
  | _ => false
  end.
Fixpoint ends_b (r : regex) : bool :=
  match r with
  | WordB => true
  | Seq _ b => ends_b b
  | _ => false
  end.

(** A class without complement whose ranges lie within [good]. *)
Definition within (good : list (N * N)) (c : cls) : bool :=
  negb (negated c) &&
  forallb (fun r =>
    existsb (fun g => (fst g <=? fst r) && (snd r <=? snd g)) good)
    (ranges c).

(** A class that has none of the code units [l]. *)
Definition lacks (ic : bool) (l : list N) (c : cls) : bool :=
  forallb (fun x => negb (matches ic c x)) l.

Lemma within_mem good c x :
  within good c = true -> mem c x = true -> in_ranges good x = true.
Proof.
  unfold within, mem. destruct (negated c); [discriminate|]. cbn.
  intros H Hx. unfold in_ranges in *.
  apply existsb_exists in Hx as ([lo hi] & Hin & Hr).
  rewrite forallb_forall in H. specialize (H _ Hin).
  apply existsb_exists in H as ([glo ghi] & Hg & Hgr).
  apply existsb_exists. exists (glo, ghi). split; auto.
  cbn in *. apply andb_true_iff in Hr as [? ?], Hgr as [? ?].
  apply andb_true_iff. split; apply N.leb_le; apply N.leb_le in H, H0, H1, H2; lia.
Qed.

Lemma lacks_not_in ic l c x :
  lacks ic l c = true -> matches ic c x = true -> ~ In x l.
Proof.
  unfold lacks. rewrite forallb_forall. intros H Hx Hin.
  specialize (H _ Hin). rewrite Hx in H. discriminate.
Qed.

Section Syntax.
Variable ic : bool.
Variable f : cls -> bool.
Variable Q : N -> Prop.
Hypothesis fQ : forall c x, f c = true -> matches ic c x = true -> Q x.

Lemma anchored_Exists r : anchored f r = true ->
  forall p s p' s', M ic r p s p' s' ->
  forall b, s = b ++ s' -> Exists Q b.
Proof.
  induction r as [|c|a IHa b IHb|a IHa b IHb|g lo hi a IHa|];
    intros Hr p s p' s' H bb E; cbn [anchored] in Hr; try discriminate;
    cbn [M] in H.
  - destruct H as (x & -> & Hx & ->).
    assert (bb = [x]) as ->.
    { apply (app_inv_tail s'). rewrite <- E. reflexivity. }
    constructor. eauto.
  - destruct H as (p1 & s1 & H1 & H2).
    destruct (M_split _ _ _ _ _ _ H1) as (b1 & E1 & _).
    destruct (M_split _ _ _ _ _ _ H2) as (b2 & E2 & _).
    assert (bb = b1 ++ b2) as ->.
    { apply (app_inv_tail s'). rewrite <- E, <- List.app_assoc. congruence. }
    apply Exists_app. apply orb_true_iff in Hr as [Hr|Hr]; eauto.
  - apply andb_true_iff in Hr as [Ha Hb]. destruct H; eauto.
  - apply andb_true_iff in Hr as [Hr Ha].
    apply andb_true_iff in Hr as [Hlo Hhi].
    apply negb_true_iff, Nat.eqb_neq in Hlo.
    destruct H as [lo p s|hi p s|lo hi p s p1 s1 p2 s2 _ H1 _ H2];
      [discriminate|congruence|].
    destruct (M_split _ _ _ _ _ _ H1) as (b1 & E1 & _).
    destruct (Iter_split _ _ _ _ _ _ _ (M_split ic a) H2) as (b2 & E2 & _).
    assert (bb = b1 ++ b2) as ->.
    { apply (app_inv_tail s2). rewrite <- E, <- List.app_assoc. congruence. }
    apply Exists_app. eauto.
Qed.

Lemma classes_Forall r : classes f r = true ->
  forall p s p' s', M ic r p s p' s' ->
  forall b, s = b ++ s' -> Forall Q b.
Proof.
  induction r as [|c|a IHa b IHb|a IHa b IHb|g lo hi a IHa|];
    intros Hr p s p' s' H bb E; cbn [classes] in Hr; cbn [M] in H.
  - destruct H as [-> ->].
    assert (bb = []) as -> by (apply (app_inv_tail s); rewrite <- E; auto).
    constructor.
  - destruct H as (x & -> & Hx & ->).
    assert (bb = [x]) as ->.
    { apply (app_inv_tail s'). rewrite <- E. reflexivity. }
    repeat constructor. eauto.
  - apply andb_true_iff in Hr as [Ha Hb].
    destruct H as (p1 & s1 & H1 & H2).
    destruct (M_split _ _ _ _ _ _ H1) as (b1 & E1 & _).
    destruct (M_split _ _ _ _ _ _ H2) as (b2 & E2 & _).
    assert (bb = b1 ++ b2) as ->.
    { apply (app_inv_tail s'). rewrite <- E, <- List.app_assoc. congruence. }
    apply Forall_app. split; eauto.
  - apply andb_true_iff in Hr as [Ha Hb]. destruct H; eauto.
  - revert bb E.
    induction H as [lo p s|hi p s|lo hi p s p1 s1 p2 s2 _ H1 _ H2 IH];
      intros bb E.
    + assert (bb = []) as -> by (apply (app_inv_tail s); rewrite <- E; auto).
      constructor.
    + assert (bb = []) as -> by (apply (app_inv_tail s); rewrite <- E; auto).
      constructor.
    + destruct (M_split _ _ _ _ _ _ H1) as (b1 & E1 & _).
      destruct (Iter_split _ _ _ _ _ _ _ (M_split ic a) H2) as (b2 & E2 & _).
      assert (bb = b1 ++ b2) as ->.
      { apply (app_inv_tail s2). rewrite <- E, <- List.app_assoc. congruence. }
      apply Forall_app. split; eauto.
  - destruct H as (_ & -> & ->).
    assert (bb = []) as -> by (apply (app_inv_tail s); rewrite <- E; auto).
    constructor.
Qed.

End Syntax.

Lemma consumes_lt ic r p s p' s' :
  consumes r = true -> M ic r p s p' s' -> (length s' < length s)%nat.
Proof.
  intros Hr H. destruct (M_split _ _ _ _ _ _ H) as (b & -> & _).
  assert (Hb : Exists (fun _ => True) b).
  { eapply (anchored_Exists ic (fun _ => true)); eauto. }
  destruct Hb; rewrite List.length_app; cbn; lia.
Qed.

Lemma firsts_head ic f (Q : N -> Prop) r :
  (forall c x, f c = true -> matches ic c x = true -> Q x) ->
  firsts f r = true ->
  forall p s p' s', M ic r p s p' s' ->
  s = s' \/ exists x t, s = x :: t /\ Q x.
Proof.
  intros fQ.
  induction r as [|c|a IHa b IHb|a IHa b IHb|g lo hi a IHa|];
    intros Hr p s p' s' H; cbn [firsts] in Hr; cbn [M] in H.
  - destruct H as [-> ->]. auto.
  - destruct H as (x & -> & Hx & ->). right. eauto.
  - apply andb_true_iff in Hr as [Ha Hb].
    destruct H as (p1 & s1 & H1 & H2).
    destruct (IHa Ha _ _ _ _ H1) as [->|?]; auto.
    apply orb_true_iff in Hb as [Hb|Hb]; eauto.
    pose proof (consumes_lt _ _ _ _ _ _ Hb H1). lia.
  - apply andb_true_iff in Hr as [Ha Hb]. destruct H; eauto.
  - induction H as [lo p s|hi p s|lo hi p s p1 s1 p2 s2 _ H1 _ H2 IH]; auto.
    destruct (IHa Hr _ _ _ _ H1) as [->|?]; auto.
  - destruct H as (_ & -> & ->). auto.
Qed.

Lemma starts_b_boundary ic r : starts_b r = true ->
  forall p s p' s', M ic r p s p' s' -> at_boundary p s = true.
Proof.
  induction r; intros Hr p s p' s' H; cbn in Hr; try discriminate;
    cbn [M] in H.
  - destruct H as (p1 & s1 & H1 & _). eauto.
  - tauto.
Qed.

Lemma ends_b_boundary ic r : ends_b r = true ->
  forall p s p' s', M ic r p s p' s' -> at_boundary p' s' = true.
Proof.
  induction r; intros Hr p s p' s' H; cbn in Hr; try discriminate;
    cbn [M] in H.
  - destruct H as (p1 & s1 & _ & H2). eauto.
  - destruct H as (H & -> & ->). exact H.
Qed.

(** *** Moving a match to another context *)

(** A match depends on its context only through [\b]: it stays a match
    when the code units around it change, if the pattern has no [\b] or
    the word character tests on both sides give the same result. *)
Definition agree (free : bool) (q p : option N) (t' t : list N) : Prop :=
  free = true \/
  (word_before q = word_before p /\ word_after t' = word_after t).

Lemma word_before_after q p b :
  word_before q = word_before p ->
  word_before (after q b) = word_before (after p b).
Proof.
  destruct b; auto.
Qed.

Lemma word_after_app b t' t :
  word_after t' = word_after t -> word_after (b ++ t') = word_after (b ++ t).
Proof. destruct b; auto. Qed.

Lemma agree_mid free q p t' t b c :
  agree free q p t' t -> agree free q p (c ++ t') (c ++ t) /\
  agree free (after q b) (after p b) t' t.
Proof.
  intros [?|[? ?]]; split; try (left; assumption); right; split; auto.
  - apply word_after_app; auto.
  - apply word_before_after; auto.
Qed.

Lemma M_transport ic r :
  forall p s p' s', M ic r p s p' s' ->
  forall b, s = b ++ s' ->
  forall q t', agree (nob r) q p t' s' ->
  M ic r q (b ++ t') (after q b) t'.
Proof.
  induction r as [|c|a IHa b IHb|a IHa b IHb|g lo hi a IHa|];
    intros p s p' s' H bb E q t' Hag; cbn [M] in H |- *.
  - destruct H as [-> ->].
    assert (bb = []) as -> by (apply (app_inv_tail s); rewrite <- E; auto).
    auto.
  - destruct H as (x & -> & Hx & ->).
    assert (bb = [x]) as ->.
    { apply (app_inv_tail s'). rewrite <- E. reflexivity. }
    exists x. auto.
  - destruct H as (p1 & s1 & H1 & H2).
    destruct (M_split _ _ _ _ _ _ H1) as (b1 & E1 & ->).
    destruct (M_split _ _ _ _ _ _ H2) as (b2 & E2 & ->).
    assert (bb = b1 ++ b2) as ->.
    { apply (app_inv_tail s'). rewrite <- E, <- List.app_assoc. congruence. }
    assert (Ha : agree (nob a) q p t' s' /\ agree (nob b) q p t' s').
    { destruct Hag as [Hn|?]; [|split; right; auto].
      cbn in Hn. apply andb_true_iff in Hn as [? ?]. split; left; auto. }
    destruct Ha as [Ha Hb].
    exists (after q b1), (b2 ++ t'). split.
    + rewrite <- List.app_assoc.
      apply (IHa _ _ _ _ H1 b1 E1 q (b2 ++ t')). subst s1.
      apply (agree_mid _ _ _ _ _ [] b2 Ha).
    + rewrite after_app.
      apply (IHb _ _ _ _ H2 b2 E2). 
      apply (agree_mid _ _ _ _ _ b1 [] Hb).
  - assert (Ha : agree (nob a) q p t' s' /\ agree (nob b) q p t' s').
    { destruct Hag as [Hn|?]; [|split; right; auto].
      cbn in Hn. apply andb_true_iff in Hn as [? ?]. split; left; auto. }
    destruct Ha as [Ha Hb]. destruct H; [left|right]; eauto.
  - cbn [nob] in Hag. revert bb E q Hag.
    induction H as [lo p s|hi p s|lo hi p s p1 s1 p2 s2 Hhi H1 Hne H2 IH];
      intros bb E q Hag.
    + assert (bb = []) as -> by (apply (app_inv_tail s); rewrite <- E; auto).
      apply Iter_max.
    + assert (bb = []) as -> by (apply (app_inv_tail s); rewrite <- E; auto).
      apply Iter_stop.
    + destruct (M_split _ _ _ _ _ _ H1) as (b1 & E1 & ->).
      destruct (Iter_split _ _ _ _ _ _ _ (M_split ic a) H2) as (b2 & E2 & ->).
      assert (bb = b1 ++ b2) as ->.
      { apply (app_inv_tail s2). rewrite <- E, <- List.app_assoc. congruence. }
      apply (Iter_step _ _ _ _ _ (after q b1) (b2 ++ t')); auto.
      * rewrite <- List.app_assoc.
        apply (IHa _ _ _ _ H1 b1 E1 q (b2 ++ t')). subst s1.
        apply (agree_mid _ _ _ _ _ [] b2 Hag).
      * intros Hlo. specialize (Hne Hlo). subst s s1.
        rewrite !List.length_app in *. lia.
      * rewrite after_app. apply (IH b2 E2).
        apply (agree_mid _ _ _ _ _ b1 [] Hag).
  - destruct H as (Hb & -> & ->).
    assert (bb = []) as -> by (apply (app_inv_tail s); rewrite <- E; auto).
    cbn. repeat split; auto.
    destruct Hag as [?|[Hq Ht]]; [discriminate|].
    unfold at_boundary in *. rewrite Hq, Ht. exact Hb.
Qed.

(** *** Occurrences and global replacement *)

(** [r] has a match that starts somewhere in [s], whose previous code
    unit is [p]. *)
Inductive Occ (ic : bool) (r : regex) : option N -> list N -> Prop :=
| Occ_here p s p' s' : M ic r p s p' s' -> Occ ic r p s
| Occ_later p x s : Occ ic r (Some x) s -> Occ ic r p (x :: s).

Lemma Occ_app ic r b : forall p s,
  Occ ic r (after p b) s -> Occ ic r p (b ++ s).
Proof.
  induction b as [|x b IH]; intros p s H; auto.
  cbn. apply Occ_later. apply IH. exact H.
Qed.

(** Without an occurrence the replacement changes nothing. *)
Lemma replace_loop_fix ic r by_ : forall fuel p s,
  ~ Occ ic r p s -> replace_loop fuel ic r by_ p s = s.
Proof.
  induction fuel as [|fuel IH]; intros p s H; auto.
  cbn [replace_loop]. destruct (match_at ic r p s) as [[p' s']|] eqn:E.
  - destruct H. eapply Occ_here. eapply match_at_sound. exact E.
  - destruct s as [|x s]; auto. f_equal. apply IH.
    intros H'. apply H. apply Occ_later. exact H'.
Qed.

Lemma search_none ic r : forall s p,
  ~ Occ ic r p s -> search ic r p s = None.
Proof.
  induction s as [|x s IH]; intros p H; cbn [search];
    destruct (match_at ic r p _) as [[p' s']|] eqn:E; auto;
    try (destruct H; eapply Occ_here, match_at_sound; exact E).
  rewrite IH; auto. intros H'. apply H. apply Occ_later. exact H'.
Qed.

(** The way the replacement rewrites its input: a code unit where no match
    starts is copied, a match is replaced by [by_]. *)
Inductive Rewrites (ic : bool) (r : regex) (by_ : list N)
  : option N -> list N -> list N -> Prop :=
| Rw_nil p : Rewrites ic r by_ p [] []
| Rw_copy p x s out :
    (forall p' s', ~ M ic r p (x :: s) p' s') ->
    Rewrites ic r by_ (Some x) s out ->
    Rewrites ic r by_ p (x :: s) (x :: out)
| Rw_match p s p' s' out :
    M ic r p s p' s' ->
    Rewrites ic r by_ p' s' out ->
    Rewrites ic r by_ p s (by_ ++ out).

Lemma replace_loop_Rewrites ic r by_ : consumes r = true ->
  forall fuel p s, (length s < fuel)%nat ->
  Rewrites ic r by_ p s (replace_loop fuel ic r by_ p s).
Proof.
  intros Hr. induction fuel as [|fuel IH]; intros p s Hf; [lia|].
  cbn [replace_loop]. destruct (match_at ic r p s) as [[p' s']|] eqn:E.
  - apply match_at_sound in E.
    pose proof (consumes_lt _ _ _ _ _ _ Hr E) as Hl.
    apply Nat.ltb_lt in Hl as Hl'. rewrite Hl'.
    eapply Rw_match; eauto. apply IH. lia.
  - pose proof (match_at_complete _ _ _ _ E) as Hn.
    destruct s as [|x s]; [apply Rw_nil|].
    apply Rw_copy; auto. apply IH. cbn in Hf. lia.
Qed.

(** The output up to the first placeholder is the input. *)
Lemma Rewrites_prefix ic r y tok : forall b p s out t,
  Rewrites ic r (y :: tok) p s out ->
  out = b ++ t -> ~ In y b ->
  exists t', s = b ++ t' /\ Rewrites ic r (y :: tok) (after p b) t' t.
Proof.
  induction b as [|x b IH]; intros p s out t H E Hy.
  - exists s. subst out. auto.
  - subst out.
    inversion H as [?|? ? s0 out0 Hn Hr|? ? ? ? out0 Hm Hr]; subst.
    + destruct (IH _ _ _ _ Hr eq_refl) as (t' & -> & Ht).
      { intros Hin. apply Hy. right. exact Hin. }
      exists t'. auto.
    + destruct Hy. left. reflexivity.
Qed.

(** *** One pass seen from another pattern *)

Section Pass.
Variables (ic ic' : bool) (r r' : regex) (by_ : list N) (z : N).
(** [C q p s]: the context [q] in the output can stand for the context
    [p] in the input, before the remaining input [s]. *)
Variable C : option N -> option N -> list N -> Prop.
Hypothesis C_refl : forall p s, C p p s.
Hypothesis C_match :
  forall p s p' s', M ic' r' p s p' s' -> C (Some z) p' s'.
Hypothesis avoid :
  forall q out, Occ ic r q (by_ ++ out) -> Occ ic r (Some z) out.
Hypothesis transfer :
  forall p s out q, Rewrites ic' r' by_ p s out -> C q p s ->
  forall p1 s1, M ic r q out p1 s1 -> exists p2 s2, M ic r p s p2 s2.

(** An occurrence of [r] after the pass of [r'] was one before it. *)
Lemma pass_keeps p s out :
  Rewrites ic' r' by_ p s out ->
  forall q, C q p s -> Occ ic r q out -> Occ ic r p s.
Proof.
  induction 1 as [p|p x s out Hn H IH|p s p' s' out Hm H IH];
    intros q HC HO.
  - inversion HO as [? ? p1 s1 H1|]; subst.
    destruct (transfer _ _ _ _ (Rw_nil ic' r' by_ p) HC _ _ H1)
      as (p2 & s2 & H2).
    eapply Occ_here; eauto.
  - inversion HO as [? ? p1 s1 H1|? ? ? H1]; subst.
    + destruct (transfer _ _ _ _ (Rw_copy _ _ _ _ _ _ _ Hn H) HC _ _ H1)
        as (p2 & s2 & H2).
      eapply Occ_here; eauto.
    + apply Occ_later. eapply IH; eauto.
  - apply avoid in HO.
    destruct (M_split _ _ _ _ _ _ Hm) as (b & -> & ->).
    apply Occ_app. apply (IH (Some z)); eauto.
Qed.

End Pass.

Section OwnPass.
Variables (ic : bool) (r : regex) (by_ : list N) (z : N).
Variable C : option N -> option N -> list N -> Prop.
Hypothesis C_refl : forall p s, C p p s.
Hypothesis C_match :
  forall p s p' s', M ic r p s p' s' -> C (Some z) p' s'.
Hypothesis avoid :
  forall q out, Occ ic r q (by_ ++ out) -> Occ ic r (Some z) out.
Hypothesis transfer :
  forall p s out q, Rewrites ic r by_ p s out -> C q p s ->
  forall p1 s1, M ic r q out p1 s1 -> exists p2 s2, M ic r p s p2 s2.
Hypothesis nonempty : consumes r = true.

(** The pass of [r] leaves no occurrence of [r]. *)
Lemma pass_cleans p s out :
  Rewrites ic r by_ p s out ->
  forall q, C q p s -> ~ Occ ic r q out.
Proof.
  induction 1 as [p|p x s out Hn H IH|p s p' s' out Hm H IH];
    intros q HC HO.
  - inversion HO as [? ? p1 s1 H1|]; subst.
    pose proof (consumes_lt _ _ _ _ _ _ nonempty H1). cbn in *. lia.
  - inversion HO as [? ? p1 s1 H1|? ? ? H1]; subst.
    + destruct (transfer _ _ _ _ (Rw_copy _ _ _ _ _ _ _ Hn H) HC _ _ H1)
        as (p2 & s2 & H2).
      eapply Hn; eauto.
    + eapply IH; eauto.
  - apply avoid in HO. apply (IH (Some z)); eauto.
Qed.

End OwnPass.

(** *** Patterns that cannot match on a placeholder *)

Lemma prefix_without (y : N) : forall (b s' w out : list N),
  b ++ s' = w ++ y :: out -> ~ In y b -> exists c, w = b ++ c.
Proof.
  induction b as [|x b IH]; intros s' w out E Hy; [eauto|].
  destruct w as [|x' w]; cbn in E; injection E as -> E.
  - destruct Hy. left. reflexivity.
  - destruct (IH _ _ _ E) as (c & ->).
    { intros Hin. apply Hy. right. exact Hin. }
    exists c. reflexivity.
Qed.

Section Avoid.
Variables (ic : bool) (r h : regex) (o z : N) (w : list N).
(** Every match of [r] starts with a match of [h]; the matches of [h]
    have neither bracket and have a code unit that is not in [w]. *)
Hypothesis head : forall q s p' s',
  M ic r q s p' s' -> exists p1 s1, M ic h q s p1 s1.
Hypothesis plain : classes (lacks ic [o; z]) h = true.
Hypothesis key : anchored (lacks ic w) h = true.

Lemma no_match_inside w' out q p' s' :
  incl w' w -> ~ M ic r q (w' ++ z :: out) p' s'.
Proof.
  intros Hw H. destruct (head _ _ _ _ H) as (p1 & s1 & H1).
  destruct (M_split _ _ _ _ _ _ H1) as (b & E & _).
  pose proof (classes_Forall ic _ (fun x => ~ In x [o; z])
                (lacks_not_in ic [o; z]) _ plain _ _ _ _ H1 _ E) as Hb.
  pose proof (anchored_Exists ic _ (fun x => ~ In x w)
                (lacks_not_in ic w) _ key _ _ _ _ H1 _ E) as Hk.
  symmetry in E. apply prefix_without in E as (c & ->).
  - apply List.Exists_exists in Hk as (x & Hx & Hn).
    apply Hn, Hw, in_or_app. left. exact Hx.
  - intros Hin. rewrite List.Forall_forall in Hb.
    apply (Hb _ Hin). right. left. reflexivity.
Qed.

Lemma avoid_inside out : forall w' q,
  incl w' w -> Occ ic r q (w' ++ z :: out) -> Occ ic r (Some z) out.
Proof.
  induction w' as [|x w' IH]; intros q Hw H.
  - inversion H as [? ? p1 s1 H1|? ? ? H1]; subst; auto.
    destruct (no_match_inside [] out _ _ _ Hw H1).
  - inversion H as [? ? p1 s1 H1|? ? ? H1]; subst.
    + destruct (no_match_inside _ out _ _ _ Hw H1).
    + eapply IH; eauto. intros y Hy. apply Hw. right. exact Hy.
Qed.

(** No occurrence of [r] overlaps a placeholder. *)
Lemma avoid_token q out :
  Occ ic r q ((o :: w ++ [z]) ++ out) -> Occ ic r (Some z) out.
Proof.
  cbn. rewrite <- List.app_assoc. cbn. intros H.
  inversion H as [? ? p0 s0 H0|? ? ? H0]; subst.
  - destruct (head _ _ _ _ H0) as (p1 & s1 & H1).
    destruct (M_split _ _ _ _ _ _ H1) as (b & E & _).
    pose proof (classes_Forall ic _ (fun x => ~ In x [o; z])
                  (lacks_not_in ic [o; z]) _ plain _ _ _ _ H1 _ E) as Hb.
    pose proof (anchored_Exists ic _ (fun x => ~ In x w)
                  (lacks_not_in ic w) _ key _ _ _ _ H1 _ E) as Hk.
    destruct b as [|x b]; [inversion Hk|].
    cbn in E. injection E as <- _. inversion Hb as [|? ? Hx _]; subst.
    destruct Hx. left. reflexivity.
  - eapply avoid_inside; eauto. intros y Hy. exact Hy.
Qed.

End Avoid.

(** *** Moving a match of the output back to the input *)

(** A pattern without [\b] whose matches have no opening bracket. *)
Lemma transfer_free ic ic' r r' o tok :
  nob r = true -> classes (lacks ic [o]) r = true ->
  forall p s out q, Rewrites ic' r' (o :: tok) p s out ->
  forall p1 s1, M ic r q out p1 s1 -> exists p2 s2, M ic r p s p2 s2.
Proof.
  intros Hn Hc p s out q Hrw p1 s1 H.
  destruct (M_split _ _ _ _ _ _ H) as (b & E & _).
  pose proof (classes_Forall ic _ (fun x => ~ In x [o])
                (lacks_not_in ic [o]) _ Hc _ _ _ _ H _ E) as Hb.
  destruct (Rewrites_prefix _ _ _ _ _ _ _ _ _ Hrw E) as (t' & -> & _).
  { intros Hin. rewrite List.Forall_forall in Hb. apply (Hb _ Hin).
    left. reflexivity. }
  exists (after p b), t'.
  apply (M_transport _ _ _ _ _ _ H b E). left. exact Hn.
Qed.

(** The context relation of the patterns between word boundaries. *)
Definition ctx_ok (q p : option N) (s : list N) : Prop :=
  word_before q = word_before p \/ word_after s = false.

Lemma is_word_in x : in_ranges word_r x = true -> is_word x = true.
Proof. intros H. unfold is_word, mem. cbn [negated ranges word]. rewrite H. auto. Qed.

(** A pattern between word boundaries, after the pass of such a
    pattern. *)
Lemma transfer_bounded r r' o tok :
  classes (lacks false [o]) r = true ->
  firsts (within word_r) r = true -> consumes r = true ->
  ends_b r = true ->
  starts_b r' = true -> firsts (within word_r) r' = true ->
  consumes r' = true ->
  is_word o = false ->
  forall p s out q, Rewrites false r' (o :: tok) p s out -> ctx_ok q p s ->
  forall p1 s1, M false r q out p1 s1 -> exists p2 s2, M false r p s p2 s2.
Proof.
  intros Hc Hf Hne He Hs' Hf' Hne' Ho p s out q Hrw HC p1 s1 H.
  assert (HW : forall c x, within word_r c = true ->
                 matches false c x = true -> is_word x = true).
  { intros c x Hw Hx. apply is_word_in. eapply within_mem; eauto.
    unfold matches in Hx. rewrite orb_false_r in Hx. exact Hx. }
  destruct (M_split _ _ _ _ _ _ H) as (b & E & Ep).
  pose proof (classes_Forall false _ (fun x => ~ In x [o])
                (lacks_not_in false [o]) _ Hc _ _ _ _ H _ E) as Hb.
  destruct (Rewrites_prefix _ _ _ _ _ _ _ _ _ Hrw E) as (t' & -> & Ht).
  { intros Hin. rewrite List.Forall_forall in Hb. apply (Hb _ Hin).
    left. reflexivity. }
  exists (after p b), t'.
  apply (M_transport _ _ _ _ _ _ H b E). right.
  pose proof (consumes_lt _ _ _ _ _ _ Hne H) as Hl.
  destruct (firsts_head false _ _ _ HW Hf _ _ _ _ H) as [->|(x & t & Ex & Hx)];
    [lia|].
  destruct b as [|x' b].
  { cbn in E. subst out. lia. }
  assert (x' = x) as -> by (cbn in E; congruence).
  split.
  - destruct HC as [HC|HC]; [symmetry; exact HC|].
    cbn [word_after app] in HC. congruence.
  - pose proof (ends_b_boundary _ _ He _ _ _ _ H) as Hend.
    inversion Ht as [?|? ? s0 out0 Hn Hr|? ? p3 s3 out0 H0 Hr]; subst; auto.
    pose proof (starts_b_boundary _ _ Hs' _ _ _ _ H0) as Hst.
    pose proof (consumes_lt _ _ _ _ _ _ Hne' H0) as Hl'.
    destruct (firsts_head false _ _ _ HW Hf' _ _ _ _ H0)
      as [->|(x0 & t0 & -> & Hx0)]; [lia|].
    unfold at_boundary in *. cbn [word_after app] in *.
    cbn [after fold_left] in *. unfold after in *.
    rewrite Ho in Hend. rewrite Hx0 in Hst.
    destruct (word_before (fold_left (fun _ x1 => Some x1) b (Some x)));
      discriminate.
Qed.

Lemma ctx_ok_match r' z : ends_b r' = true -> is_word z = false ->
  forall p s p' s', M false r' p s p' s' -> ctx_ok (Some z) p' s'.
Proof.
  intros He Hz p s p' s' H.
  pose proof (ends_b_boundary _ _ He _ _ _ _ H) as Hend.
  unfold ctx_ok, at_boundary in *. cbn [word_before]. rewrite Hz.
  destruct (word_before p'), (word_after s'); auto; discriminate.
Qed.

End RegExpFacts.

(** ** The redactor of the Gemini service *)

Module RedactorFacts.
Import CharClass RegExp Redactor RegExpFacts.

(** The placeholder is a word between brackets. *)
Definition letters : list N := js "REDACTED".

Lemma REDACTED_eq : REDACTED = 91 :: letters ++ [93].
Proof. reflexivity. Qed.

(** [s] has no match of the pattern. *)
Definition clean (re : RegExp.t) (s : list N) : Prop :=
  ~ Occ (ignoreCase re) (pattern re) None s.

(** The pass of [rep] creates no match of [obs]; its own pass leaves no
    match of [obs]. *)
Definition keeps (obs rep : RegExp.t) : Prop :=
  forall s, clean obs s -> clean obs (RegExp.replace rep REDACTED s).
Definition cleans (obs : RegExp.t) : Prop :=
  forall s, clean obs (RegExp.replace obs REDACTED s).

(** A pattern whose matches have no bracket and have a code unit that
    the placeholder lacks. *)
Definition plain (re : RegExp.t) : bool :=
  classes (lacks (ignoreCase re) [91; 93]) (pattern re) &&
  classes (lacks (ignoreCase re) [91]) (pattern re) &&
  anchored (lacks (ignoreCase re) letters) (pattern re) &&
  consumes (pattern re).

(** Such a pattern without [\b], and such a pattern between two [\b]
    whose matches start with a word character. *)
Definition free (re : RegExp.t) : bool :=
  plain re && nob (pattern re).
Definition bounded (re : RegExp.t) : bool :=
  plain re && negb (ignoreCase re) &&
  starts_b (pattern re) && ends_b (pattern re) &&
  firsts (within word_r) (pattern re).

(** The code units from [!] to [~]: none is white space. *)
Definition printable : list (N * N) := [(33, 126)].
Definition visible (re : RegExp.t) : bool :=
  negb (ignoreCase re) && consumes (pattern re) &&
  firsts (within printable) (pattern re).

Lemma replace_Rewrites re s : consumes (pattern re) = true ->
  Rewrites (ignoreCase re) (pattern re) REDACTED None s
    (RegExp.replace re REDACTED s).
Proof. intros H. apply replace_loop_Rewrites; auto. Qed.

Lemma replace_clean re s :
  clean re s -> RegExp.replace re REDACTED s = s.
Proof. intros H. apply replace_loop_fix. exact H. Qed.

Ltac split_bools :=
  repeat match goal with
         | H : _ && _ = true |- _ => apply andb_true_iff in H as [? H]
         | H : negb _ = true |- _ => apply negb_true_iff in H
         end.

Lemma plain_consumes re : plain re = true -> consumes (pattern re) = true.
Proof. unfold plain. intros H. split_bools. exact H. Qed.

Lemma bounded_plain re : bounded re = true -> plain re = true.
Proof. unfold bounded. intros H. split_bools. assumption. Qed.

Lemma plain_avoid re : plain re = true ->
  forall q out,
    Occ (ignoreCase re) (pattern re) q (REDACTED ++ out) ->
    Occ (ignoreCase re) (pattern re) (Some 93) out.
Proof.
  unfold plain. intros H q out. split_bools. rewrite REDACTED_eq.
  apply (avoid_token _ _ (pattern re)); eauto.
Qed.

Lemma keeps_free obs rep :
  free obs = true -> consumes (pattern rep) = true -> keeps obs rep.
Proof.
  unfold free. intros Ho Hr s Hs HO. apply andb_true_iff in Ho as [Hp Hn].
  apply Hs.
  refine (pass_keeps _ _ _ _ REDACTED 93 (fun _ _ _ => True)
            (fun _ _ => I) (fun _ _ _ _ _ => I) (plain_avoid _ Hp) _
            None s _ (replace_Rewrites rep s Hr) None I HO).
  intros p s0 out q Hrw _. revert Hrw. rewrite REDACTED_eq.
  unfold plain in Hp. split_bools. apply transfer_free; auto.
Qed.

Lemma cleans_free obs : free obs = true -> cleans obs.
Proof.
  unfold free. intros Ho s. apply andb_true_iff in Ho as [Hp Hn].
  pose proof (plain_consumes _ Hp) as Hc.
  refine (pass_cleans _ _ REDACTED 93 (fun _ _ _ => True)
            (fun _ _ => I) (fun _ _ _ _ _ => I) (plain_avoid _ Hp) _ Hc
            None s _ (replace_Rewrites obs s Hc) None I).
  intros p s0 out q Hrw _. revert Hrw. rewrite REDACTED_eq.
  unfold plain in Hp. split_bools. apply transfer_free; auto.
Qed.

Lemma bounded_ctx re : bounded re = true ->
  forall p s p' s', M (ignoreCase re) (pattern re) p s p' s' ->
  ctx_ok (Some 93) p' s'.
Proof.
  destruct re as [r i g]. unfold bounded. cbn [ignoreCase pattern].
  intros H. split_bools. subst i. apply ctx_ok_match; auto.
Qed.

Lemma bounded_transfer obs rep :
  bounded obs = true -> bounded rep = true ->
  forall p s out q,
    Rewrites (ignoreCase rep) (pattern rep) REDACTED p s out ->
    ctx_ok q p s ->
    forall p1 s1, M (ignoreCase obs) (pattern obs) q out p1 s1 ->
    exists p2 s2, M (ignoreCase obs) (pattern obs) p s p2 s2.
Proof.
  destruct obs as [ro io go], rep as [rr ir gr].
  unfold bounded, plain. cbn [ignoreCase pattern]. intros Ho Hr.
  split_bools. subst io ir.
  rewrite REDACTED_eq. apply transfer_bounded; auto.
Qed.

Lemma keeps_bounded obs rep :
  bounded obs = true -> bounded rep = true -> keeps obs rep.
Proof.
  intros Ho Hr s Hs HO. apply Hs.
  pose proof (bounded_plain _ Ho) as Hp.
  pose proof (plain_consumes _ (bounded_plain _ Hr)) as Hc.
  refine (pass_keeps _ _ _ _ REDACTED 93 ctx_ok
            (fun _ _ => or_introl eq_refl) (bounded_ctx _ Hr)
            (plain_avoid _ Hp) (bounded_transfer _ _ Ho Hr)
            None s _ (replace_Rewrites rep s Hc) None (or_introl eq_refl) HO).
Qed.

Lemma cleans_bounded obs : bounded obs = true -> cleans obs.
Proof.
  intros Ho s.
  pose proof (bounded_plain _ Ho) as Hp.
  pose proof (plain_consumes _ Hp) as Hc.
  refine (pass_cleans _ _ REDACTED 93 ctx_ok
            (fun _ _ => or_introl eq_refl) (bounded_ctx _ Ho)
            (plain_avoid _ Hp) (bounded_transfer _ _ Ho Ho) Hc
            None s _ (replace_Rewrites obs s Hc) None (or_introl eq_refl)).
Qed.

(** *** The URL pattern *)

(** Its last class has the brackets, so a match can run over a
    placeholder, but not start on one: it starts with [http]. *)
Definition scheme : regex :=
  Seq (lit "http") (Seq (opt (c "s")) (lit "://")).

Lemma URL_split q s p' s' :
  M false (pattern URL) q s p' s' <->
  exists p1 s1, M false scheme q s p1 s1 /\
                M false (plus (Chr nonspace)) p1 s1 p' s'.
Proof.
  unfold URL, re_g, pattern, scheme. cbn [seqs]. cbn [M]. split.
  - intros (pa & sa & Ha & pb & sb & Hb & pc & sc & Hc & Hd).
    exists pc, sc. split; auto. exists pa, sa. split; auto.
    exists pb, sb. auto.
  - intros (pc & sc & (pa & sa & Ha & pb & sb & Hb & Hc) & Hd).
    exists pa, sa. split; auto. exists pb, sb. split; auto.
    exists pc, sc. auto.
Qed.

Lemma plus_first ic cl p s p' s' :
  M ic (plus (Chr cl)) p s p' s' ->
  exists x t, s = x :: t /\ matches ic cl x = true.
Proof.
  unfold plus. cbn [M]. intros H.
  inversion H as [| |? ? ? ? p1 s1 ? ? _ H1 _ _]; subst.
  cbn [M] in H1. destruct H1 as (x & -> & Hx & _). eauto.
Qed.

Lemma plus_one ic cl p x t :
  matches ic cl x = true -> M ic (plus (Chr cl)) p (x :: t) (Some x) t.
Proof.
  intros Hx. unfold plus. cbn [M].
  apply (Iter_step _ _ _ _ _ (Some x) t); try discriminate.
  - cbn [M]. eauto.
  - apply Iter_stop.
Qed.

Lemma printable_nonspace x :
  in_ranges printable x = true -> matches false nonspace x = true.
Proof.
  unfold printable, in_ranges. cbn [existsb fst snd].
  rewrite orb_false_r, andb_true_iff, !N.leb_le. intros [H1 H2].
  unfold matches. cbn [andb]. rewrite orb_false_r.
  unfold mem, nonspace, space_r, in_ranges.
  cbn [negated ranges existsb fst snd xorb].
  repeat match goal with
         | |- context [?a <=? ?b] => destruct (N.leb_spec a b); try lia
         end;
    reflexivity.
Qed.

Lemma URL_avoid q out :
  Occ false (pattern URL) q (REDACTED ++ out) ->
  Occ false (pattern URL) (Some 93) out.
Proof.
  rewrite REDACTED_eq.
  apply (avoid_token _ _ (lit "http")); try reflexivity.
  intros q0 s p' s' H. apply URL_split in H as (p1 & s1 & H & _).
  unfold scheme in H. cbn [M] in H. destruct H as (pa & sa & Ha & _).
  eauto.
Qed.

Lemma URL_transfer rep : visible rep = true ->
  forall p s out q,
    Rewrites (ignoreCase rep) (pattern rep) REDACTED p s out ->
    forall p1 s1, M false (pattern URL) q out p1 s1 ->
    exists p2 s2, M false (pattern URL) p s p2 s2.
Proof.
  destruct rep as [rr ir gr]. unfold visible. cbn [ignoreCase pattern].
  intros Hv p s out q Hrw p1 s1 H. split_bools. subst ir.
  rename Hv into Hf.
  apply URL_split in H as (pc & sc & Hs & Hp).
  destruct (plus_first _ _ _ _ _ _ Hp) as (y & t & -> & Hy).
  destruct (M_split _ _ _ _ _ _ Hs) as (b & E & _).
  pose proof (classes_Forall false _ (fun x => ~ In x [91])
                (lacks_not_in false [91]) scheme eq_refl _ _ _ _ Hs _ E)
    as Hb.
  rewrite REDACTED_eq in Hrw.
  destruct (Rewrites_prefix _ _ _ _ _ _ _ _ _ Hrw E) as (t' & -> & Ht).
  { intros Hin. rewrite List.Forall_forall in Hb. apply (Hb _ Hin).
    left. reflexivity. }
  assert (Hs' : M false scheme p (b ++ t') (after p b) t').
  { apply (M_transport _ _ _ _ _ _ Hs b E). left. reflexivity. }
  assert (Hx : exists x t0, t' = x :: t0 /\ matches false nonspace x = true).
  { inversion Ht as [?|? ? s0 out0 Hn Hr|? ? p3 s3 out0 Hm3 Hr]; subst.
    - eauto.
    - match goal with Hc : consumes _ = true |- _ =>
        pose proof (consumes_lt _ _ _ _ _ _ Hc Hm3) as Hl end.
      destruct (firsts_head false _ (fun x => in_ranges printable x = true)
                  rr
                  ltac:(intros c0 x0 Hw Hm; eapply within_mem; eauto;
                        unfold matches in Hm; rewrite orb_false_r in Hm;
                        exact Hm)
                  Hf _ _ _ _ Hm3) as [->|(x0 & t0 & -> & Hx0)]; [lia|].
      exists x0, t0. split; auto. apply printable_nonspace. exact Hx0. }
  destruct Hx as (x & t0 & -> & Hx).
  exists (Some x), t0. apply URL_split.
  exists (after p b), (x :: t0). split; auto. apply plus_one. exact Hx.
Qed.

Lemma keeps_URL rep : visible rep = true -> keeps URL rep.
Proof.
  intros Hv s Hs HO. apply Hs.
  assert (Hc : consumes (pattern rep) = true)
    by (unfold visible in Hv; split_bools; auto).
  refine (pass_keeps _ _ _ _ REDACTED 93 (fun _ _ _ => True)
            (fun _ _ => I) (fun _ _ _ _ _ => I) URL_avoid _
            None s _ (replace_Rewrites rep s Hc) None I HO).
  intros p s0 out q Hrw _. eapply URL_transfer; eauto.
Qed.

Lemma cleans_URL : cleans URL.
Proof.
  intros s.
  refine (pass_cleans _ _ REDACTED 93 (fun _ _ _ => True)
            (fun _ _ => I) (fun _ _ _ _ _ => I) URL_avoid _ eq_refl
            None s _ (replace_Rewrites URL s eq_refl) None I).
  intros p s0 out q Hrw _. apply (URL_transfer URL eq_refl _ _ _ _ Hrw).
Qed.

(** *** The passes in sequence *)

Definition pass (redacted : list N) (re : RegExp.t) : list N :=
  RegExp.replace re REDACTED redacted.

(** Each pattern cleans up after itself and is not disturbed by the
    passes that follow. *)
Fixpoint chain (l : list RegExp.t) : Prop :=
  match l with
  | [] => True
  | re :: l' => cleans re /\ Forall (keeps re) l' /\ chain l'
  end.

Lemma keeps_fold re l : Forall (keeps re) l ->
  forall y, clean re y -> clean re (fold_left pass l y).
Proof.
  induction 1 as [|rep l Hk _ IH]; intros y Hy; auto.
  cbn [fold_left]. apply IH. apply Hk. exact Hy.
Qed.

Lemma chain_clean l : chain l ->
  forall x, Forall (fun obs => clean obs (fold_left pass l x)) l.
Proof.
  induction l as [|re l IH]; intros Hc x; [constructor|].
  destruct Hc as (Hown & Hk & Hc). cbn [fold_left]. constructor.
  - apply keeps_fold; auto. apply Hown.
  - apply IH. exact Hc.
Qed.

Lemma clean_fix l : forall y,
  Forall (fun obs => clean obs y) l -> fold_left pass l y = y.
Proof.
  induction l as [|re l IH]; intros y H; auto.
  inversion H as [|? ? Hre Hl]; subst. cbn [fold_left].
  unfold pass at 2. rewrite (replace_clean _ _ Hre). auto.
Qed.

Lemma chain_REDACT_PATTERNS : chain REDACT_PATTERNS.
Proof.
  unfold REDACT_PATTERNS. cbn [chain].
  repeat match goal with
         | |- _ /\ _ => split
         | |- Forall _ _ => constructor
         | |- True => exact I
         | |- cleans URL => exact cleans_URL
         | |- cleans _ =>
             first [apply cleans_free; vm_compute; reflexivity
                   |apply cleans_bounded; vm_compute; reflexivity]
         | |- keeps URL _ => apply keeps_URL; vm_compute; reflexivity
         | |- keeps _ _ =>
             first [apply keeps_free; vm_compute; reflexivity
                   |apply keeps_bounded; vm_compute; reflexivity]
         end.
Qed.

Lemma redactSensitiveInfo_clean x :
  Forall (fun re => clean re (redactSensitiveInfo x)) REDACT_PATTERNS.
Proof. apply (chain_clean _ chain_REDACT_PATTERNS). Qed.

Lemma redactSensitiveInfo_fix y :
  Forall (fun re => clean re y) REDACT_PATTERNS -> redactSensitiveInfo y = y.
Proof. apply clean_fix. Qed.

End RedactorFacts.

Module RedactorSpec.
Import CharClass RegExp Redactor.

(** The claim of C3 as it is worded, for a redaction function. *)
Definition idempotent (redact : list N -> list N) : Prop :=
  forall x, redact (redact x) = redact x.

(** C3, counterexample: [redactSensitive] applies its IP rule first and
    that rule asks for a word boundary before the address. In
    [x@y.com1.2.3.4] the address follows a letter, so the first pass only
    replaces the e-mail address; the placeholder ends with a bracket,
    which puts the address at a word boundary, and a second pass replaces
    it as well. *)
Lemma redactSensitive_not_idempotent :
  redactSensitive (js "x@y.com1.2.3.4") = js "[REDACTED_EMAIL]1.2.3.4" /\
  redactSensitive (js "[REDACTED_EMAIL]1.2.3.4")
    = js "[REDACTED_EMAIL][REDACTED_IP]" /\
  ~ (idempotent redactSensitiveInfo /\ idempotent redactSensitive).
Proof.
  assert (E1 : redactSensitive (js "x@y.com1.2.3.4")
               = js "[REDACTED_EMAIL]1.2.3.4") by (vm_compute; reflexivity).
  assert (E2 : redactSensitive (js "[REDACTED_EMAIL]1.2.3.4")
               = js "[REDACTED_EMAIL][REDACTED_IP]")
    by (vm_compute; reflexivity).
  repeat split; auto.
  intros [_ H]. specialize (H (js "x@y.com1.2.3.4")).
  rewrite E1, E2 in H. vm_compute in H. discriminate H.
Qed.

(** C3, amended: [redactSensitiveInfo], the redactor with the single
    placeholder, is idempotent. For every input, none of its eight
    patterns has a match in the redacted text, so that a second
    application changes nothing. [redactSensitive], the redactor with one
    placeholder per category, is not idempotent. *)
Theorem redactSensitiveInfo_idempotent :
  (forall x,
     redactSensitiveInfo (redactSensitiveInfo x) = redactSensitiveInfo x /\
     Forall (fun re => RegExp.test re (redactSensitiveInfo x) = false)
       REDACT_PATTERNS) /\
  ~ idempotent redactSensitive.
Proof.
  split.
  - intros x.
    pose proof (RedactorFacts.redactSensitiveInfo_clean x) as H. split.
    + apply RedactorFacts.redactSensitiveInfo_fix. exact H.
    + eapply List.Forall_impl; [|exact H].
      intros re Hre. unfold RegExp.test.
      rewrite (RegExpFacts.search_none _ _ _ _ Hre). reflexivity.
  - intros H. specialize (H (js "x@y.com1.2.3.4")).
    vm_compute in H. discriminate H.
Qed.

End RedactorSpec.

(** ** The Gemini-backed service, branch by branch *)

Module ServiceFacts.
Import CharClass RegExp Json JsString Effects GeminiService.
Import GeminiFacts Extraction AdapterFacts JsonFacts CacheFacts.

(** What a cache lookup finds, and the file operations it makes. *)
Definition lookup (env : Env) (w : World) (hash : list N)
  : json * list Event :=
  let path := getCachePath env hash in
  match files w !! path with
  | None => (JNull, [Stat path])
  | Some f =>
      if (now w - mtimeMs f >? CACHE_TTL CONFIG)%Z then (JNull, [Stat path])
      else match Json.parse (data f) with
           | Some v => (v, [Stat path; ReadFile path])
           | None => (JNull, [Stat path; ReadFile path])
           end
  end.

Definition logged (w : World) (l : list Event) : World :=
  MkWorld (now w) (files w) (writable w) (events w ++ l).

Lemma getCachedResult_run env hash w :
  getCachedResult env hash w
  = (Ok (fst (lookup env w hash)), logged w (snd (lookup env w hash))).
Proof.
  unfold getCachedResult, lookup, logged, try_catch, fs_stat, fs_readFile,
    JSON_parse, bind, tell, Date_now, ret, throw.
  cbn [now files writable events].
  destruct (files w !! getCachePath env hash) as [f|] eqn:Hf;
    cbn [now files writable events fst snd]; [|reflexivity].
  destruct (now w - mtimeMs f >? CACHE_TTL CONFIG)%Z;
    cbn [now files writable events fst snd]; [reflexivity|].
  rewrite Hf. cbn [now files writable events fst snd].
  destruct (Json.parse (data f));
    cbn [fst snd]; rewrite <- List.app_assoc; reflexivity.
Qed.

(** The object returned on a cache hit. *)
Definition served (cached : json) : json :=
  JObj (set (js "cached") (JBool true) (spread cached)).

Definition fingerprint (log : list N) : list N :=
  generateContentHash (redactSensitiveInfo log).

Definition promptFor (log : list N) : list N :=
  prompt_head ++ redactSensitiveInfo log ++ prompt_tail.

(** The lookup of a call: skipped when [force] is set. *)
Definition consulted (env : Env) (w : World) (log : list N) (force : bool)
  : json * list Event :=
  if force then (JNull, []) else lookup env w (fingerprint log).

(** What becomes of the answer of the generative model. *)
Definition respond (env : Env) (startTime : Z) (log : list N) (w : World)
           (g : Generation) : Outcome json * World :=
  caught env startTime
    match g with
    | Raises msg c => (Thrown (MkError msg c), w)
    | NoResponse =>
        (Thrown (MkError (js "No valid response from AI service") None), w)
    | Text text =>
        parseAndStore env startTime log (redactSensitiveInfo log)
          (fingerprint log) text w
    end.

(** A text that passes validation: the lookup, then either the entry or
    the call of the model. *)
Lemma analyzeWithAI_run env w log force :
  forallb CharClass.is_space log = false ->
  Utf8.byteLength log <= MAX_LOG_SIZE CONFIG ->
  let cached := fst (consulted env w log force) in
  let w1 :=
    logged w ([Redacted; Fingerprinted] ++ snd (consulted env w log force)) in
  analyzeWithAI env (Value.Str log) force w
  = if Json.truthy cached then (Ok (served cached), w1)
    else
      let g := generateContent env (now w) (promptFor log) in
      respond env (now w) log
        (MkWorld (now w + fst g) (files w) (writable w)
           (events w1 ++ [Generate (promptFor log)]))
        (snd g).
Proof.
  intros Hnb Hsize cached w1.
  unfold analyzeWithAI. unfold bind at 1. unfold Date_now at 1.
  unfold try_catch at 1. rewrite (not_blank log Hnb).
  apply N.le_ngt in Hsize.
  destruct (MAX_LOG_SIZE CONFIG <? Utf8.byteLength log) eqn:E;
    [now apply N.ltb_lt in E|].
  unfold bind at 1. unfold tell at 1.
  unfold bind at 1. unfold tell at 1.
  unfold bind at 1. cbn [now files writable events].
  assert (Hc : (if force then ret JNull
                else getCachedResult env
                       (generateContentHash (redactSensitiveInfo log)))
                 (MkWorld (now w) (files w) (writable w)
                    ((events w ++ [Redacted]) ++ [Fingerprinted]))
               = (Ok cached, w1)).
  { subst cached w1. unfold consulted. destruct force.
    - unfold ret, logged. cbn [fst snd app]. now rewrite <- List.app_assoc.
    - rewrite getCachedResult_run. unfold logged, lookup, fingerprint.
      cbn [now files writable events].
      rewrite <- !List.app_assoc. reflexivity. }
  rewrite Hc. destruct (Json.truthy cached) eqn:Ht.
  - reflexivity.
  - subst w1. unfold logged.
    unfold bind at 1. unfold generate at 1.
    unfold bind at 1. unfold tell at 1.
    unfold bind at 1. unfold Date_now at 1.
    cbn [now files writable events].
    fold (promptFor log).
    destruct (generateContent env (now w) (promptFor log)) as [latency g].
    unfold bind at 1. unfold elapse at 1.
    cbn [now files writable events fst snd].
    unfold respond, caught, fingerprint.
    destruct g as [msg c| |text].
    + reflexivity.
    + reflexivity.
    + unfold ret at 1.
      match goal with
      | |- context [parseAndStore ?a ?b ?c ?d ?e ?f ?g] =>
          destruct (parseAndStore a b c d e f g) as [[v|e0] w2]
      end; reflexivity.
Qed.

(** What [saveToCache] leaves behind: the entry, or nothing but the
    attempt when the directory cannot be written. *)
Definition stored (env : Env) (hash : list N) (result : json) (w : World)
  : World :=
  if writable w
  then MkWorld (now w)
         (<[getCachePath env hash
            := MkFile (now w) (Json.encode (entry result (now w)))]> (files w))
         (writable w)
         (events w ++ [Mkdir (CACHE_DIR env); WriteFile (getCachePath env hash)])
  else logged w [Mkdir (CACHE_DIR env)].

Lemma saveToCache_stored env hash result w :
  saveToCache env hash result w = (Ok tt, stored env hash result w).
Proof.
  unfold stored. destruct (writable w) eqn:Hw.
  - rewrite saveToCache_run by exact Hw. rewrite Hw.
    now rewrite <- List.app_assoc.
  - unfold saveToCache, try_catch, fs_mkdir, bind, tell, ret, logged.
    cbn [now files writable events]. rewrite Hw. reflexivity.
Qed.


Lemma caught_failed env startTime e w :
  exists v, caught env startTime (Thrown e, w) = (Ok v, w) /\
            prop (js "success") v = JBool false /\
            prop (js "message") (prop (js "error") v) = JStr (message e) /\
            prop (js "code") (prop (js "error") v)
            = JStr (match code e with
                    | Some (x :: c) => x :: c
                    | _ => js "AI_SERVICE_ERROR"
                    end) /\
            prop (js "processingTimeMs") (prop (js "error") v)
            = JInt (now w - startTime) /\
            prop (js "processingTimeMs") (prop (js "metadata") v)
            = JInt (now w - startTime).
Proof.
  unfold caught. eexists. split; [reflexivity|].
  repeat split; try reflexivity.
  destruct (code e) as [[|x c]|]; reflexivity.
Qed.


(** The inner block gives a fresh result or an exception, and writes at
    most the entry of the fingerprint. *)
Lemma parseAndStore_cases env startTime log redactedLog logHash text w :
  (exists parsed,
      parseAndStore env startTime log redactedLog logHash text w
      = (Ok (analysisResult startTime (now w) log redactedLog logHash parsed),
         stored env logHash
           (analysisResult startTime (now w) log redactedLog logHash parsed)
           w)) \/
  (exists reason,
      parseAndStore env startTime log redactedLog logHash text w
      = (Thrown (failed_to_parse reason), w)).
Proof.
  rewrite parseAndStore_run.
  destruct (match_ jsonPattern text) as [jsonMatch|]; [|right; eauto].
  destruct (Json.parse jsonMatch) as [parsed|]; [|right; eauto].
  destruct (missingFields parsed) as [|f fs]; [|right; eauto].
  left. exists parsed. cbv zeta. now rewrite saveToCache_stored.
Qed.

Lemma now_stored env hash result w : now (stored env hash result w) = now w.
Proof. unfold stored. now destruct (writable w). Qed.

(** A text the validation lets through. *)
Definition valid (log : list N) : Prop :=
  forallb CharClass.is_space log = false /\
  Utf8.byteLength log <= MAX_LOG_SIZE CONFIG.

(** The message of the validation error of an argument, if it has one. *)
Definition problem (log : Value.value) : option (list N) :=
  match log with
  | Value.Str s =>
      if forallb CharClass.is_space s
      then Some (js "Log content is empty or invalid")
      else if MAX_LOG_SIZE CONFIG <? Utf8.byteLength s
           then Some (js "Log exceeds maximum size of 5MB")
           else None
  | _ => Some (js "Log content is empty or invalid")
  end.

Lemma problem_none log :
  problem log = None <-> exists s, log = Value.Str s /\ valid s.
Proof.
  unfold problem, valid. split.
  - destruct log as [| | | |s|]; try discriminate.
    destruct (forallb CharClass.is_space s) eqn:Hb; [discriminate|].
    destruct (MAX_LOG_SIZE CONFIG <? Utf8.byteLength s) eqn:E; [discriminate|].
    intros _. exists s. split; [reflexivity|]. split; [exact Hb|].
    apply N.ltb_ge. exact E.
  - intros (s & -> & Hb & Hs). rewrite Hb.
    apply N.ltb_ge in Hs. now rewrite Hs.
Qed.

Lemma analyzeWithAI_problem env log force w msg :
  problem log = Some msg ->
  analyzeWithAI env log force w = (Ok (rejection env msg 0), w).
Proof.
  unfold problem. intros H.
  assert (G : forall m,
    try_catch (throw m)
      (fun error =>
         bind Date_now (fun t =>
           ret (obj [(js "success", JBool false);
                     (js "error",
                      obj [(js "message", JStr (message error));
                           (js "code",
                            JStr (match code error with
                                  | Some c => if Json.truthy (JStr c) then c
                                              else js "AI_SERVICE_ERROR"
                                  | None => js "AI_SERVICE_ERROR"
                                  end));
                           (js "stack",
                            if development env
                            then JStr (stackOf env (message error))
                            else JUndefined);
                           (js "processingTimeMs", JInt (t - now w))]);
                     (js "metadata",
                      obj [(js "processingTimeMs", JInt (t - now w))])])))
      w
    = (Ok (rejection env m 0), w)).
  { intros m. unfold try_catch, throw, bind, Date_now, ret, rejection.
    cbn [message code]. now rewrite Z.sub_diag. }
  unfold analyzeWithAI. unfold bind at 1. unfold Date_now at 1.
  destruct log as [| |b|f sh|s|r]; try (injection H as <-; apply G).
  destruct (forallb CharClass.is_space s) eqn:Hb.
  - injection H as <-.
    replace (negb (Value.truthy (Value.Str s)) || bool_decide (trim s = []))
      with true; [apply G|].
    symmetry. apply trim_nil in Hb.
    rewrite (bool_decide_eq_true_2 _ Hb). apply orb_true_r.
  - rewrite (not_blank s Hb).
    destruct (MAX_LOG_SIZE CONFIG <? Utf8.byteLength s); [|discriminate].
    injection H as <-. apply G.
Qed.

(** The world when the model has answered. *)
Definition answered (env : Env) (w : World) (log : list N) (force : bool)
  : World :=
  MkWorld (now w + fst (generateContent env (now w) (promptFor log)))
    (files w) (writable w)
    (events w ++ [Redacted; Fingerprinted]
       ++ snd (consulted env w log force) ++ [Generate (promptFor log)]).

Lemma analyzeWithAI_miss env w log force :
  valid log ->
  Json.truthy (fst (consulted env w log force)) = false ->
  analyzeWithAI env (Value.Str log) force w
  = respond env (now w) log (answered env w log force)
      (snd (generateContent env (now w) (promptFor log))).
Proof.
  intros [Hb Hs] Ht. rewrite (analyzeWithAI_run env w log force Hb Hs).
  cbv zeta. rewrite Ht. unfold answered, logged.
  cbn [now files writable events]. now rewrite <- !List.app_assoc.
Qed.

Lemma analyzeWithAI_served env w log force :
  valid log ->
  Json.truthy (fst (consulted env w log force)) = true ->
  analyzeWithAI env (Value.Str log) force w
  = (Ok (served (fst (consulted env w log force))),
     logged w ([Redacted; Fingerprinted] ++ snd (consulted env w log force))).
Proof.
  intros [Hb Hs] Ht. rewrite (analyzeWithAI_run env w log force Hb Hs).
  cbv zeta. now rewrite Ht.
Qed.

(** A response that passes the validation, on a miss. *)
Lemma analyzeWithAI_success env w log force text jsonMatch parsed :
  valid log ->
  Json.truthy (fst (consulted env w log force)) = false ->
  snd (generateContent env (now w) (promptFor log)) = Text text ->
  match_ jsonPattern text = Some jsonMatch ->
  Json.parse jsonMatch = Some parsed ->
  missingFields parsed = [] ->
  let w2 := answered env w log force in
  let result :=
    analysisResult (now w) (now w2) log (redactSensitiveInfo log)
      (fingerprint log) parsed in
  analyzeWithAI env (Value.Str log) force w
  = (Ok result, stored env (fingerprint log) result w2).
Proof.
  intros Hv Ht Hg Hm Hp Hmf w2 result.
  rewrite (analyzeWithAI_miss env w log force Hv Ht), Hg.
  unfold respond. rewrite parseAndStore_run, Hm, Hp, Hmf. cbv zeta.
  now rewrite saveToCache_stored.
Qed.

(** *** The trace of a call *)

Definition is_read (e : Event) : bool :=
  match e with Stat _ | ReadFile _ => true | _ => false end.
Definition is_write (e : Event) : bool :=
  match e with Mkdir _ | WriteFile _ => true | _ => false end.

Lemma consulted_reads env w log force :
  forallb is_read (snd (consulted env w log force)) = true /\
  (force = true -> snd (consulted env w log force) = []).
Proof.
  unfold consulted, lookup. destruct force; [now split|].
  split; [|discriminate].
  destruct (files w !! _) as [f|]; [|reflexivity].
  destruct (_ >? _)%Z; [reflexivity|].
  now destruct (Json.parse (data f)).
Qed.

Lemma stored_writes env hash result w :
  exists saves,
    events (stored env hash result w) = events w ++ saves /\
    forallb is_write saves = true.
Proof.
  unfold stored, logged. destruct (writable w); eexists; split;
    reflexivity.
Qed.

(** After the answer of the model: the result, and the entry written
    for it, or a failure and nothing written. *)
Lemma respond_cases env startTime log w g :
  (exists parsed,
      let result :=
        analysisResult startTime (now w) log (redactSensitiveInfo log)
          (fingerprint log) parsed in
      respond env startTime log w g
      = (Ok result, stored env (fingerprint log) result w)) \/
  (exists e, respond env startTime log w g
             = caught env startTime (Thrown e, w)).
Proof.
  unfold respond. destruct g as [msg c| |text]; [right; eauto..|].
  destruct (parseAndStore_cases env startTime log (redactSensitiveInfo log)
              (fingerprint log) text w) as [[parsed E]|[reason E]];
    rewrite E; [left|right]; eauto.
Qed.

(** The events of a call: none when the argument is refused; else the
    redaction and the fingerprint, the reads of the lookup, and on a miss
    the call of the model followed by the writes of the store. *)
Lemma analyzeWithAI_trace env log force w :
  let r := analyzeWithAI env log force w in
  events (snd r) = events w \/
  exists s reads,
    log = Value.Str s /\ valid s /\
    forallb is_read reads = true /\ (force = true -> reads = []) /\
    (events (snd r) = events w ++ [Redacted; Fingerprinted] ++ reads \/
     exists saves,
       forallb is_write saves = true /\
       events (snd r)
       = events w ++ [Redacted; Fingerprinted] ++ reads
           ++ [Generate (promptFor s)] ++ saves).
Proof.
  cbv zeta. destruct (problem log) as [msg|] eqn:Hp.
  - rewrite (analyzeWithAI_problem env log force w msg Hp). now left.
  - apply problem_none in Hp as (s & -> & Hv). right.
    destruct (consulted_reads env w s force) as [Hr Hf].
    exists s, (snd (consulted env w s force)).
    split; [reflexivity|]. split; [exact Hv|]. split; [exact Hr|].
    split; [exact Hf|].
    destruct (Json.truthy (fst (consulted env w s force))) eqn:Ht.
    + rewrite (analyzeWithAI_served env w s force Hv Ht). now left.
    + rewrite (analyzeWithAI_miss env w s force Hv Ht). right.
      destruct (respond_cases env (now w) s (answered env w s force)
                  (snd (generateContent env (now w) (promptFor s))))
        as [[parsed E]|[e E]]; rewrite E.
      * cbn [snd].
        destruct (stored_writes env (fingerprint s)
                    (analysisResult (now w) (now (answered env w s force)) s
                       (redactSensitiveInfo s) (fingerprint s) parsed)
                    (answered env w s force)) as (saves & Es & Hs).
        exists saves. split; [exact Hs|]. rewrite Es.
        unfold answered. cbn [events]. now rewrite <- !List.app_assoc.
      * destruct (caught_failed env (now w) e (answered env w s force))
          as (v & -> & _).
        exists []. split; [reflexivity|]. cbn [snd answered events].
        now rewrite List.app_nil_r.
Qed.

(** A text that passes the validation is redacted and fingerprinted
    first. *)
Lemma analyzeWithAI_starts env w s force :
  valid s ->
  exists rest,
    events (snd (analyzeWithAI env (Value.Str s) force w))
    = events w ++ Redacted :: Fingerprinted :: rest.
Proof.
  intros Hv.
  destruct (analyzeWithAI_trace env (Value.Str s) force w)
    as [E|(s' & reads & _ & _ & _ & _ & [E|(saves & _ & E)])];
    cbv zeta in E.
  - exfalso.
    destruct (Json.truthy (fst (consulted env w s force))) eqn:Ht.
    + rewrite (analyzeWithAI_served env w s force Hv Ht) in E.
      unfold logged in E. cbn [snd events] in E.
      rewrite <- (List.app_nil_r (events w)) in E at 2.
      apply List.app_inv_head in E. discriminate E.
    + rewrite (analyzeWithAI_miss env w s force Hv Ht) in E.
      destruct (respond_cases env (now w) s (answered env w s force)
                  (snd (generateContent env (now w) (promptFor s))))
        as [[parsed E']|[e E']]; rewrite E' in E.
      * cbn [snd] in E.
        destruct (stored_writes env (fingerprint s)
                    (analysisResult (now w) (now (answered env w s force)) s
                       (redactSensitiveInfo s) (fingerprint s) parsed)
                    (answered env w s force)) as (saves & Es & _).
        rewrite Es in E. cbn [answered events] in E.
        rewrite <- List.app_assoc in E.
        rewrite <- (List.app_nil_r (events w)) in E at 2.
        apply List.app_inv_head in E. discriminate E.
      * unfold caught in E. cbn [snd answered events] in E.
        rewrite <- (List.app_nil_r (events w)) in E at 2.
        apply List.app_inv_head in E. discriminate E.
  - eexists. exact E.
  - eexists. exact E.
Qed.

End ServiceFacts.

Module ServiceSpec.
Import CharClass RegExp Json JsString Effects GeminiService.
Import GeminiFacts Extraction AdapterFacts JsonFacts CacheFacts ServiceFacts.


(** The only file a call ever writes is the entry of the fingerprint of
    its text, and only a fresh result with [success: true] is written: a
    failed call and a call served from the cache leave the files as they
    are. *)
Theorem only_the_entry_is_written
        (env : Env) (log : Value.value) (force : bool) (w : World) :
  let r := analyzeWithAI env log force w in
  files (snd r) = files w \/
  exists s v text,
    log = Value.Str s /\ fst r = Ok v /\
    prop (js "success") v = JBool true /\
    prop (js "cached") v = JUndefined /\
    files (snd r)
    = <[getCachePath env (fingerprint s) := MkFile (now (snd r)) text]>
        (files w).
Proof.
  cbv zeta. destruct (problem log) as [msg|] eqn:Hp.
  - rewrite (analyzeWithAI_problem env log force w msg Hp). now left.
  - apply problem_none in Hp as (s & -> & Hv).
    destruct (Json.truthy (fst (consulted env w s force))) eqn:Ht.
    + rewrite (analyzeWithAI_served env w s force Hv Ht). now left.
    + rewrite (analyzeWithAI_miss env w s force Hv Ht).
      destruct (respond_cases env (now w) s (answered env w s force)
                  (snd (generateContent env (now w) (promptFor s))))
        as [[parsed E]|[e E]]; rewrite E.
      * cbn [fst snd]. unfold stored.
        destruct (writable (answered env w s force)); [|now left].
        right. eexists s, _, _. repeat split.
      * destruct (caught_failed env (now w) e (answered env w s force))
          as (v & -> & _). now left.
Qed.

(** What leaves for the generative model is the prompt around the
    redacted text: whenever a call sends a prompt, the argument is a text,
    the prompt is the fixed wording with the redaction of that text in it,
    and none of the redaction patterns has a match in that redaction. *)
Theorem only_redacted_text_is_sent
        (env : Env) (log : Value.value) (force : bool) (w : World)
        (l : list Event) (prompt : list N) :
  events (snd (analyzeWithAI env log force w)) = events w ++ l ->
  List.In (Generate prompt) l ->
  exists s,
    log = Value.Str s /\
    prompt = prompt_head ++ Redactor.redactSensitiveInfo s ++ prompt_tail /\
    Forall (fun re => RegExp.test re (Redactor.redactSensitiveInfo s) = false)
      Redactor.REDACT_PATTERNS.
Proof.
  intros El Hin.
  assert (Hno : forall (f : Event -> bool) (es : list Event),
             forallb f es = true -> f (Generate prompt) = false ->
             ~ List.In (Generate prompt) es).
  { intros f es Hf Hg H. rewrite List.forallb_forall in Hf.
    rewrite (Hf _ H) in Hg. discriminate. }
  destruct (analyzeWithAI_trace env log force w)
    as [E|(s & reads & -> & _ & Hr & _ & [E|(saves & Hs & E)])];
    cbv zeta in E; rewrite E in El.
  - rewrite <- (List.app_nil_r (events w)) in El at 1.
    apply List.app_inv_head in El. subst l. destruct Hin.
  - apply List.app_inv_head in El. subst l.
    destruct Hin as [H|[H|H]]; try discriminate.
    now destruct (Hno is_read reads Hr eq_refl).
  - apply List.app_inv_head in El. subst l.
    destruct Hin as [H|[H|H]]; try discriminate.
    cbn [app] in H. apply List.in_app_or in H as [H|[H|H]].
    + now destruct (Hno is_read reads Hr eq_refl).
    + injection H as <-. exists s. split; [reflexivity|].
      split; [reflexivity|].
      eapply List.Forall_impl;
        [|exact (RedactorFacts.redactSensitiveInfo_clean s)].
      intros re Hre. unfold RegExp.test.
      now rewrite (RegExpFacts.search_none _ _ _ _ Hre).
    + now destruct (Hno is_write saves Hs eq_refl).
Qed.

(** A service that answers with a text without asking for the cache,
    and the log line of the examples. *)
Definition incident : list N := js "db down at 10.0.0.1".

Lemma incident_valid : valid incident.
Proof. split; [vm_compute; reflexivity|vm_compute; discriminate]. Qed.

Lemma empty_world_misses env s force :
  Json.truthy (fst (consulted env empty_world s force)) = false.
Proof.
  unfold consulted, lookup. destruct force; [reflexivity|].
  cbn [files empty_world]. now rewrite lookup_empty.
Qed.

Lemma only_redacted_text_is_sent_witness :
  exists s,
    Value.Str incident = Value.Str s /\
    promptFor incident
    = prompt_head ++ Redactor.redactSensitiveInfo s ++ prompt_tail /\
    Forall (fun re => RegExp.test re (Redactor.redactSensitiveInfo s) = false)
      Redactor.REDACT_PATTERNS.
Proof.
  apply (only_redacted_text_is_sent (AdapterSpec.replies AdapterSpec.answer)
           (Value.Str incident) true empty_world
           (events (snd (analyzeWithAI (AdapterSpec.replies AdapterSpec.answer)
                           (Value.Str incident) true empty_world)))
           (promptFor incident)).
  - reflexivity.
  - rewrite (analyzeWithAI_miss _ _ _ _ incident_valid
               (empty_world_misses _ _ _)).
    destruct (respond_cases (AdapterSpec.replies AdapterSpec.answer)
                (now empty_world) incident
                (answered (AdapterSpec.replies AdapterSpec.answer)
                   empty_world incident true)
                (snd (generateContent (AdapterSpec.replies AdapterSpec.answer)
                        (now empty_world) (promptFor incident))))
      as [[parsed E]|[e E]]; rewrite E.
    + cbn [snd]. unfold stored. cbn [writable answered empty_world events].
      cbn [consulted snd app]. right; right; left; reflexivity.
    + unfold caught. cbn [snd answered events empty_world consulted app].
      right; right; left; reflexivity.
Defined.

(** With [force] the cache is not read: right after the fingerprint the
    model is called, whatever the cache holds, and nothing follows but the
    writes of the store. A result that passes the validation replaces the
    entry of the fingerprint, with the time of the answer as its time. *)
Theorem force_skips_the_lookup (env : Env) (w : World) (s : list N) :
  valid s ->
  let r := analyzeWithAI env (Value.Str s) true w in
  (exists saves,
      forallb is_write saves = true /\
      events (snd r)
      = events w ++ [Redacted; Fingerprinted; Generate (promptFor s)] ++ saves) /\
  (forall text jsonMatch parsed,
      snd (generateContent env (now w) (promptFor s)) = Text text ->
      match_ jsonPattern text = Some jsonMatch ->
      Json.parse jsonMatch = Some parsed ->
      missingFields parsed = [] ->
      writable w = true ->
      exists v,
        fst r = Ok v /\ prop (js "success") v = JBool true /\
        files (snd r) !! getCachePath env (fingerprint s)
        = Some (MkFile (now (snd r))
                  (Json.encode (entry v (now (snd r)))))).
Proof.
  intros Hv r. subst r. split.
  - rewrite (analyzeWithAI_miss env w s true Hv eq_refl).
    destruct (respond_cases env (now w) s (answered env w s true)
                (snd (generateContent env (now w) (promptFor s))))
      as [[parsed E]|[e E]]; rewrite E.
    + cbn [snd].
      destruct (stored_writes env (fingerprint s)
                  (analysisResult (now w) (now (answered env w s true)) s
                     (redactSensitiveInfo s) (fingerprint s) parsed)
                  (answered env w s true)) as (saves & Es & Hs).
      exists saves. split; [exact Hs|]. rewrite Es.
      cbn [answered events consulted snd app].
      now rewrite <- List.app_assoc.
    + exists []. split; [reflexivity|]. unfold caught.
      cbn [snd answered events consulted app]. reflexivity.
  - intros text jsonMatch parsed Hg Hm Hp Hmf Hw.
    rewrite (analyzeWithAI_success env w s true text jsonMatch parsed
               Hv eq_refl Hg Hm Hp Hmf).
    cbv zeta. eexists. split; [reflexivity|]. split; [reflexivity|].
    cbn [snd]. rewrite now_stored. unfold stored.
    replace (writable (answered env w s true)) with true by (symmetry; exact Hw).
    cbn [files]. apply lookup_insert_eq.
Qed.


Lemma force_skips_the_lookup_witness :
  exists saves,
    forallb is_write saves = true /\
    events (snd (analyzeWithAI (AdapterSpec.replies AdapterSpec.answer)
                   (Value.Str incident) true empty_world))
    = events empty_world
        ++ [Redacted; Fingerprinted; Generate (promptFor incident)] ++ saves.
Proof.
  exact (proj1 (force_skips_the_lookup
                  (AdapterSpec.replies AdapterSpec.answer) empty_world incident
                  incident_valid)).
Defined.

(** A store that fails does not fail the call: when the cache directory
    cannot be written, a response that passes the validation is still
    returned with [success: true], and no file is touched. *)
Theorem cache_failure_is_not_fatal
        (env : Env) (w : World) (s : list N) (force : bool)
        (text jsonMatch : list N) (parsed : json) :
  valid s ->
  Json.truthy (fst (consulted env w s force)) = false ->
  snd (generateContent env (now w) (promptFor s)) = Text text ->
  match_ jsonPattern text = Some jsonMatch ->
  Json.parse jsonMatch = Some parsed ->
  missingFields parsed = [] ->
  writable w = false ->
  let r := analyzeWithAI env (Value.Str s) force w in
  exists v,
    fst r = Ok v /\ prop (js "success") v = JBool true /\
    (forall field,
        List.In field requiredFields ->
        prop field (prop (js "analysis") v) = prop field parsed) /\
    files (snd r) = files w /\
    exists l, events (snd r) = events w ++ l ++ [Mkdir (CACHE_DIR env)].
Proof.
  intros Hv Ht Hg Hm Hp Hmf Hw r. subst r.
  rewrite (analyzeWithAI_success env w s force text jsonMatch parsed
             Hv Ht Hg Hm Hp Hmf).
  cbv zeta. eexists. split; [reflexivity|]. split; [reflexivity|].
  assert (Hobj : exists m, parsed = JObj m).
  { rewrite match_json in Hm.
    destruct (extract text) as [[[pre mt] post]|] eqn:E; [|discriminate].
    injection Hm as ->. apply extract_split in E as (_ & [mid ->] & _).
    now apply (parse_object _ _ Hp). }
  destruct Hobj as [m ->].
  split.
  { intros field Hin.
    change (prop (js "analysis")
              (analysisResult (now w) (now (answered env w s force)) s
                 (redactSensitiveInfo s) (fingerprint s) (JObj m)))
      with (JObj (extend m
                    [(js "logHash", JStr (fingerprint s));
                     (js "analyzedAt",
                      JStr (Date.toISOString (now (answered env w s force))));
                     (js "processingTimeMs",
                      JInt (now (answered env w s force) - now w))])).
    cbn [prop]. rewrite (analysis_keeps field m); [reflexivity|now right]. }
  cbn [snd]. unfold stored.
  replace (writable (answered env w s force)) with false
    by (symmetry; exact Hw).
  split; [reflexivity|].
  unfold logged, answered. cbn [events].
  exists ([Redacted; Fingerprinted] ++ snd (consulted env w s force)
            ++ [Generate (promptFor s)]).
  now rewrite <- !List.app_assoc.
Qed.

Definition read_only : World := MkWorld 1700000000000 ∅ false [].

Lemma cache_failure_is_not_fatal_witness :
  exists v,
    fst (analyzeWithAI (AdapterSpec.replies AdapterSpec.answer)
           (Value.Str incident) false read_only) = Ok v /\
    prop (js "success") v = JBool true /\
    files (snd (analyzeWithAI (AdapterSpec.replies AdapterSpec.answer)
                  (Value.Str incident) false read_only)) = files read_only.
Proof.
  destruct (cache_failure_is_not_fatal
              (AdapterSpec.replies AdapterSpec.answer) read_only incident false
              AdapterSpec.answer AdapterSpec.answer CacheSpec.answer_value
              incident_valid)
    as (v & H1 & H2 & _ & H3 & _).
  - unfold consulted, lookup. cbn [files read_only]. now rewrite lookup_empty.
  - reflexivity.
  - vm_compute; reflexivity.
  - vm_compute; reflexivity.
  - vm_compute; reflexivity.
  - reflexivity.
  - exists v. auto.
Defined.







(** An error of the Gemini client is reported with its own message and
    code (or [AI_SERVICE_ERROR] when it has none), the time the call took
    is reported twice, and no file is touched. *)
Theorem client_errors_are_reported
        (env : Env) (w : World) (s : list N) (force : bool)
        (latency : Z) (msg : list N) (c : option (list N)) :
  valid s ->
  Json.truthy (fst (consulted env w s force)) = false ->
  generateContent env (now w) (promptFor s) = (latency, Raises msg c) ->
  let r := analyzeWithAI env (Value.Str s) force w in
  exists v,
    fst r = Ok v /\ prop (js "success") v = JBool false /\
    prop (js "message") (prop (js "error") v) = JStr msg /\
    prop (js "code") (prop (js "error") v)
    = JStr (match c with
            | Some (x :: c') => x :: c'
            | _ => js "AI_SERVICE_ERROR"
            end) /\
    prop (js "processingTimeMs") (prop (js "error") v) = JInt latency /\
    prop (js "processingTimeMs") (prop (js "metadata") v) = JInt latency /\
    files (snd r) = files w.
Proof.
  intros Hv Ht Hg r. subst r.
  rewrite (analyzeWithAI_miss env w s force Hv Ht), Hg.
  unfold respond. cbn [fst snd].
  destruct (caught_failed env (now w) (MkError msg c)
              (answered env w s force))
    as (v & -> & H1 & H2 & H3 & H4 & H5).
  exists v. cbn [fst snd message code] in *.
  unfold answered in H4, H5. rewrite Hg in H4, H5.
  cbn [now fst] in H4, H5.
  replace (now w + latency - now w)%Z with latency in H4, H5 by lia.
  repeat split; assumption.
Qed.

Definition unreachable : Env :=
  MkEnv (js "/srv/app")
    (fun _ _ => (250%Z, Raises (js "fetch failed") (Some (js "ECONNRESET"))))
    (fun _ => js "Unexpected token") false (fun m => m).

Lemma client_errors_are_reported_witness :
  exists v,
    fst (analyzeWithAI unreachable (Value.Str incident) false empty_world)
    = Ok v /\
    prop (js "code") (prop (js "error") v) = JStr (js "ECONNRESET") /\
    prop (js "processingTimeMs") (prop (js "error") v) = JInt 250.
Proof.
  destruct (client_errors_are_reported unreachable empty_world incident false
              250 (js "fetch failed") (Some (js "ECONNRESET"))
              incident_valid (empty_world_misses _ _ _) eq_refl)
    as (v & H1 & _ & _ & H2 & H3 & _).
  exists v. auto.
Defined.

End ServiceSpec.

(** ** Properties of the route *)

Module RouteFacts.
Import Json JsString Effects AnalyzeRoute UploadPipeline.

(** The ways the handler answers. *)
Inductive Answered (env : Env) (file : option Upload) : Response -> Prop :=
| No_file :
    file = None ->
    Answered env file (bad_request (js "No file uploaded"))
| Blank f logText :
    file = Some f -> readFile env (filePath env f) = Ok logText ->
    forallb CharClass.is_space logText = true ->
    Answered env file (bad_request (js "The uploaded file is empty"))
| Crashed err :
    Answered env file (internal_error env err)
| Fallback f aiResult :
    file = Some f ->
    Answered env file
      (MkResponse 200
         (obj [(js "success", JBool true);
               (js "analysis",
                fallback_analysis (opt_prop (js "error") aiResult));
               (js "metadata",
                or_else (opt_prop (js "metadata") aiResult) (JObj []));
               (js "filename", JStr (originalname f));
               (js "fallback", JBool true)]))
| Analysed f logText aiResult :
    file = Some f -> readFile env (filePath env f) = Ok logText ->
    forallb CharClass.is_space logText = false ->
    analyzeWithAI env logText = Ok aiResult ->
    truthy aiResult = true ->
    is_false (prop (js "success") aiResult) = false ->
    Answered env file
      (MkResponse 200
         (obj [(js "success", JBool true);
               (js "analysis", prop (js "analysis") aiResult);
               (js "metadata", prop (js "metadata") aiResult);
               (js "filename", JStr (originalname f))])).

Lemma blank_test logText :
  negb (truthy (JStr logText)) || bool_decide (trim logText = [])
  = forallb CharClass.is_space logText.
Proof.
  destruct (forallb CharClass.is_space logText) eqn:H.
  - apply GeminiFacts.trim_nil in H.
    rewrite (bool_decide_eq_true_2 _ H). apply orb_true_r.
  - rewrite bool_decide_eq_false_2.
    + destruct logText; [discriminate H|reflexivity].
    + intros E. apply GeminiFacts.trim_nil in E. congruence.
Qed.

Lemma analyze_Answered env file : Answered env file (analyze env file).
Proof.
  unfold analyze. destruct file as [f|]; [|now apply No_file].
  destruct (filePath env f) as [|x p] eqn:Ep.
  { now destruct (AnalyzeRouteSpec.filePath_nonempty env f). }
  rewrite <- Ep.
  destruct (readFile env (filePath env f)) as [logText|err] eqn:Hr;
    [|apply Crashed].
  rewrite blank_test.
  destruct (forallb CharClass.is_space logText) eqn:Hb.
  { eapply Blank; eauto. }
  destruct (analyzeWithAI env logText) as [aiResult|err] eqn:Ha;
    [|apply Crashed].
  destruct (truthy aiResult) eqn:Ht; cbn [negb orb].
  - destruct (is_false (prop (js "success") aiResult)) eqn:Hs.
    + now apply Fallback.
    + eapply Analysed; eauto.
  - now apply Fallback.
Qed.

(** An answer is sound when its status is 200, 400 or 500, [success] says
    whether it is 200, and a failure carries an error text. *)
Definition sound (r : Response) : Prop :=
  (status r = 200 \/ status r = 400 \/ status r = 500)%Z /\
  (prop (js "success") (body r) = JBool true <-> status r = 200%Z) /\
  (status r <> 200%Z ->
   prop (js "success") (body r) = JBool false /\
   exists e, prop (js "error") (body r) = JStr e /\ e <> []).

Lemma bad_request_sound e : e <> [] -> sound (bad_request e).
Proof.
  intros He. unfold sound, bad_request. cbn [status body].
  split; [auto|]. split.
  - split; intros H; discriminate H.
  - intros _. split; [reflexivity|]. exists e. split; [reflexivity|exact He].
Qed.

Lemma internal_error_sound env e : sound (internal_error env e).
Proof.
  unfold sound, internal_error. cbn [status body].
  split; [auto|]. split; [split; intros H; discriminate H|].
  intros _. split; [reflexivity|].
  exists (match message e with [] => js "Internal server error" | m => m end).
  split; [|destruct (message e); discriminate].
  unfold or_else. cbn [truthy]. destruct (message e); reflexivity.
Qed.

Lemma analyze_sound env file : sound (analyze env file).
Proof.
  destruct (analyze_Answered env file)
    as [Hf|f logText Hf Hr Hb|e|f aiResult Hf|f logText aiResult Hf Hr Hb Ha Ht Hs].
  - now apply bad_request_sound.
  - now apply bad_request_sound.
  - apply internal_error_sound.
  - unfold sound. cbn [status body]. split; [auto|].
    split; [split; reflexivity|]. intros H; now destruct H.
  - unfold sound. cbn [status body]. split; [auto|].
    split; [split; reflexivity|]. intros H; now destruct H.
Qed.

(** The answer of the error handler to an error. *)
Lemma handleMulterError_answer err :
  exists e, e <> [] /\ handleMulterError (Some err) = Answer (bad_request e).
Proof.
  unfold handleMulterError. destruct err as [code message|message].
  - destruct (bool_decide _); eexists; (split; [|reflexivity]); discriminate.
  - eexists. split; [|reflexivity].
    destruct message as [| | | | |m| |]; try discriminate.
    destruct (truthy (JStr (trim m))) eqn:Ht; [|discriminate].
    intros ->. discriminate Ht.
Qed.

End RouteFacts.

Module RouteSpec.
Import Json JsString Effects AnalyzeRoute UploadPipeline RouteFacts.

(** Every answer of the pipeline has status 200, 400 or 500, and
    [success] is [true] exactly in the answers with status 200; every
    other answer carries an error text that is not empty. An upload error
    is always answered with 400. *)
Theorem status_and_success_agree
        (env : Env) (err : option UploadError) (file : option Upload) :
  let r := post env err file in
  (status r = 200 \/ status r = 400 \/ status r = 500)%Z /\
  (prop (js "success") (body r) = JBool true <-> status r = 200%Z) /\
  (status r <> 200%Z ->
   prop (js "success") (body r) = JBool false /\
   exists e, prop (js "error") (body r) = JStr e /\ e <> []) /\
  (err <> None -> status r = 400%Z).
Proof.
  cbv zeta. unfold post.
  destruct err as [err|].
  - destruct (handleMulterError_answer err) as (e & He & ->).
    destruct (bad_request_sound e He) as (H1 & H2 & H3).
    repeat split; auto; apply H2 || apply H3; auto.
  - destruct (analyze_sound env file) as (H1 & H2 & H3).
    cbn [handleMulterError].
    repeat split; auto; try (apply H2 || apply H3; auto).
    intros H; now destruct H.
Qed.

(** A failure to read the upload and an exception of the classifier are
    answered with status 500 and the message of the error ([Internal
    server error] when it is empty). The stack of the error is in the
    answer in development only: elsewhere no answer has a [stack]. *)
Theorem crashes_are_answered_500
        (env : Env) (err : option UploadError) (file : option Upload) :
  (development env = false ->
   prop (js "stack") (body (post env err file)) = JUndefined) /\
  (forall f e,
      err = None -> file = Some f ->
      readFile env (filePath env f) = Thrown e \/
      (exists logText,
          readFile env (filePath env f) = Ok logText /\
          forallb CharClass.is_space logText = false /\
          analyzeWithAI env logText = Thrown e) ->
      let r := post env err file in
      status r = 500%Z /\
      prop (js "success") (body r) = JBool false /\
      prop (js "error") (body r)
      = JStr (match message e with
              | [] => js "Internal server error"
              | m => m
              end) /\
      prop (js "stack") (body r)
      = if development env then JStr (stackOf env (message e))
        else JUndefined).
Proof.
  split.
  - intros Hdev. unfold post. destruct err as [err|].
    + destruct (handleMulterError_answer err) as (e & _ & ->). reflexivity.
    + cbn [handleMulterError].
      destruct (analyze_Answered env file)
        as [Hf|f logText Hf Hr Hb|e|f aiResult Hf
           |f logText aiResult Hf Hr Hb Ha Ht Hs];
        try reflexivity.
      unfold internal_error. rewrite Hdev. reflexivity.
  - intros f e -> -> Hcrash r. subst r. unfold post.
    cbn [handleMulterError].
    assert (E : analyze env (Some f) = internal_error env e).
    { unfold analyze. destruct (filePath env f) as [|x p] eqn:Ep.
      { now destruct (AnalyzeRouteSpec.filePath_nonempty env f). }
      destruct Hcrash as [->|(logText & -> & Hb & ->)]; [reflexivity|].
      now rewrite blank_test, Hb. }
    rewrite E. unfold internal_error. cbn [status body].
    split; [reflexivity|]. split; [reflexivity|]. split.
    + unfold or_else. cbn [truthy]. destruct (message e); reflexivity.
    + destruct (development env); reflexivity.
Qed.

(** An upload whose file cannot be read. *)
Definition unreadable : Env :=
  MkEnv (js "/srv/uploads")
    (fun _ => Thrown (MkError (js "EACCES: permission denied") None))
    (fun _ => Ok JNull) false (fun m => m).

Lemma crashes_are_answered_500_witness :
  status (post unreadable None (Some AnalyzeRouteSpec.sample_upload)) = 500%Z /\
  prop (js "error")
    (body (post unreadable None (Some AnalyzeRouteSpec.sample_upload)))
  = JStr (js "EACCES: permission denied") /\
  prop (js "stack")
    (body (post unreadable None (Some AnalyzeRouteSpec.sample_upload)))
  = JUndefined.
Proof.
  destruct (crashes_are_answered_500 unreadable None
              (Some AnalyzeRouteSpec.sample_upload)) as [H1 H2].
  destruct (H2 AnalyzeRouteSpec.sample_upload
              (MkError (js "EACCES: permission denied") None)
              eq_refl eq_refl (or_introl eq_refl)) as (S1 & _ & S2 & _).
  split; [exact S1|]. split; [exact S2|]. exact (H1 eq_refl).
Defined.

(** Wired to the pattern-based classifier, the route never takes its
    fallback branch: an upload with a text that is not blank is answered
    200 with the record the classifier gives for that text, the name of
    the model, the time and the name of the file, and no [fallback]
    flag. *)
Theorem shipped_classifier_never_falls_back
        (now : Z) (env : Env) (f : Upload) (logText : list N) :
  readFile env (filePath env f) = Ok logText ->
  forallb CharClass.is_space logText = false ->
  let r := post (with_pattern_service now env) None (Some f) in
  status r = 200%Z /\
  prop (js "success") (body r) = JBool true /\
  prop (js "fallback") (body r) = JUndefined /\
  prop (js "analysis") (body r)
  = AiService.analysis_json (AiService.classify logText) /\
  prop (js "metadata") (body r)
  = obj [(js "model", JStr (js "pattern-based-log-analyzer"));
         (js "timestamp", JStr (Date.toISOString now))] /\
  prop (js "filename") (body r) = JStr (originalname f).
Proof.
  intros Hr Hb r. subst r. unfold post. cbn [handleMulterError].
  unfold analyze.
  change (filePath (with_pattern_service now env) f) with (filePath env f).
  destruct (filePath env f) as [|x p] eqn:Ep.
  { now destruct (AnalyzeRouteSpec.filePath_nonempty env f). }
  change (readFile (with_pattern_service now env)) with (readFile env).
  rewrite Hr, blank_test, Hb.
  cbn [with_pattern_service analyzeWithAI].
  unfold AiService.analyzeWithAI.
  assert (Hne : logText <> []) by (intros ->; discriminate Hb).
  replace (Value.toString (Value.or_else (Value.Str logText) (Value.Str [])))
    with (Value.Returns logText)
    by (destruct logText; [now destruct Hne|reflexivity]).
  cbn [AiService.to_json]. repeat split; reflexivity.
Qed.

(** An upload of one log line. *)
Definition one_line : Env :=
  MkEnv (js "/srv/uploads") (fun _ => Ok (js "GET /health HTTP 500"))
    (fun _ => Ok JNull) false (fun m => m).

Lemma shipped_classifier_never_falls_back_witness :
  status (post (with_pattern_service 1700000000000 one_line) None
            (Some AnalyzeRouteSpec.sample_upload)) = 200%Z /\
  prop (js "issueType")
    (prop (js "analysis")
       (body (post (with_pattern_service 1700000000000 one_line) None
                (Some AnalyzeRouteSpec.sample_upload))))
  = JStr (js "HTTP 5xx server error").
Proof.
  destruct (shipped_classifier_never_falls_back 1700000000000 one_line
              AnalyzeRouteSpec.sample_upload (js "GET /health HTTP 500")
              eq_refl eq_refl) as (H1 & _ & _ & H2 & _).
  split; [exact H1|]. rewrite H2. vm_compute. reflexivity.
Defined.

End RouteSpec.

(** ** Properties of the upload form *)

Module UiSpec.
Import Json JsString Effects AnalyzeRoute UploadPipeline FileUploadUi.
Import RouteFacts.

(** A submit with a file switches the loading state on, clears the error,
    reports either the result or an error message, and switches the
    loading state off last, however the request ends. The message is never
    empty: it is the [error] of the response data, else the message of the
    error, else a fixed text. *)
Theorem submit_always_ends_loading
        {File : Type} (file : File) (request : File -> Settled) :
  exists outcome,
    handleSubmit app_props (Some file) request
    = [OnLoadingChange true; OnErrorChange JNull; outcome;
       OnLoadingChange false] /\
    match request file with
    | Resolved data => outcome = OnResult data
    | Rejected err =>
        exists message,
          outcome = OnErrorChange message /\ truthy message = true /\
          (truthy (opt_prop (js "error")
                     (opt_prop (js "data") (opt_prop (js "response") err)))
           = true ->
           message = opt_prop (js "error")
                       (opt_prop (js "data") (opt_prop (js "response") err)))
    end.
Proof.
  unfold handleSubmit, app_props, call. cbn [onResult onLoadingChange onErrorChange].
  destruct (request file) as [data|err].
  - eexists. split; reflexivity.
  - eexists. split; [reflexivity|]. eexists. split; [reflexivity|].
    unfold or_else.
    destruct (truthy (opt_prop (js "error") _)) eqn:H1.
    + rewrite H1. auto.
    + destruct (truthy (opt_prop (js "message") err)) eqn:H2.
      * rewrite H2. split; [reflexivity|discriminate].
      * split; [reflexivity|discriminate].
Qed.

(** End to end: the form in front of the route. Whatever the upload and
    the classifier do, and whatever the transport makes of the body as
    long as it keeps the [error] property, the user is given the data of
    the answer when its status is 200 (the fallback record included), and
    otherwise the error text of the route, which is not empty. *)
Theorem route_errors_reach_the_user
        {File : Type} (file : File) (env : Env)
        (err : option UploadError) (upload : option Upload) (data : json) :
  let r := post env err upload in
  prop (js "error") data = prop (js "error") (body r) ->
  let calls :=
    handleSubmit app_props (Some file)
      (analyzeLogFile (fun _ => Some (MkResponse (status r) data))) in
  (status r = 200%Z /\
   calls = [OnLoadingChange true; OnErrorChange JNull; OnResult data;
            OnLoadingChange false]) \/
  (status r <> 200%Z /\
   exists e,
     e <> [] /\ prop (js "error") (body r) = JStr e /\
     calls = [OnLoadingChange true; OnErrorChange JNull;
              OnErrorChange (JStr e); OnLoadingChange false]).
Proof.
  cbv zeta. intros Hdata.
  assert (Hs : sound (post env err upload)).
  { unfold post. destruct err as [err|].
    - destruct (handleMulterError_answer err) as (e & He & ->).
      now apply bad_request_sound.
    - apply analyze_sound. }
  destruct Hs as (Hst & _ & Herr).
  unfold handleSubmit, app_props, call, analyzeLogFile.
  cbn [onResult onLoadingChange onErrorChange status body].
  destruct Hst as [E|E].
  - left. split; [exact E|]. rewrite E. reflexivity.
  - right.
    assert (Hne : status (post env err upload) <> 200%Z)
      by (destruct E as [E|E]; rewrite E; discriminate).
    split; [exact Hne|].
    destruct (Herr Hne) as (_ & e & He & Hn).
    exists e. split; [exact Hn|]. split; [exact He|].
    rewrite He in Hdata.
    replace ((200 <=? status (post env err upload))
             && (status (post env err upload) <? 300))%Z with false
      by (destruct E as [E|E]; rewrite E; reflexivity).
    cbv zeta.
    match goal with
    | |- context [or_else (or_else ?a ?b) ?c] =>
        replace a with (JStr e)
    end.
    + unfold or_else. cbn [truthy]. destruct e; [now destruct Hn|reflexivity].
    + rewrite <- Hdata. unfold obj, opt_prop, prop.
      cbn [extend fold_left fst snd set get bool_decide].
      symmetry.
      change (get (js "response")
                (set (js "response")
                   (JObj (set (js "data") data
                            (set (js "status")
                               (JInt (status (post env err upload))) [])))
                   (set (js "message")
                      (JStr (js "Request failed with status code "
                               ++ Decimal.of_Z (status (post env err upload))))
                      [])))
        with (Some (JObj [(js "status", JInt (status (post env err upload)));
                          (js "data", data)])).
      cbv iota.
      change (get (js "data")
                [(js "status", JInt (status (post env err upload)));
                 (js "data", data)])
        with (Some data).
      cbv iota.
      destruct data; try reflexivity; discriminate Hdata.
Qed.

(** An upload without a file, answered with the body as it was sent. *)
Lemma route_errors_reach_the_user_witness :
  handleSubmit app_props (Some tt)
    (analyzeLogFile
       (fun _ => Some (post GeminiSpec.blank_upload None None)))
  = [OnLoadingChange true; OnErrorChange JNull;
     OnErrorChange (JStr (js "No file uploaded")); OnLoadingChange false].
Proof.
  destruct (route_errors_reach_the_user tt GeminiSpec.blank_upload None None
              (body (post GeminiSpec.blank_upload None None)) eq_refl)
    as [[H _]|(_ & e & _ & He & Hc)]; [discriminate H|].
  cbv zeta in Hc. injection He as <-. exact Hc.
Defined.

End UiSpec.

(** ** Redaction changes a text exactly when a pattern matches *)

Module RewriteFacts.
Import CharClass RegExp RegExpFacts.

(** [search] finds a match exactly when there is an occurrence. *)
Lemma search_some ic r : forall s p,
  Occ ic r p s -> search ic r p s <> None.
Proof.
  intros s p H. induction H as [p s p' s' H|p x s H IH].
  - destruct s; cbn [search];
      destruct (match_at ic r p _) as [y|] eqn:E; try discriminate;
      destruct (match_at_complete _ _ _ _ E _ _ H).
  - cbn [search]. destruct (match_at ic r p (x :: s)); [discriminate|].
    destruct (search ic r (Some x) s) as [[n y]|]; [discriminate|].
    now destruct IH.
Qed.

Lemma search_Occ ic r : forall s p y,
  search ic r p s = Some y -> Occ ic r p s.
Proof.
  induction s as [|x s IH]; intros p y E; cbn [search] in E.
  - destruct (match_at ic r p []) as [[p' s']|] eqn:M; [|discriminate].
    eapply Occ_here, match_at_sound, M.
  - destruct (match_at ic r p (x :: s)) as [[p' s']|] eqn:M.
    + eapply Occ_here, match_at_sound, M.
    + destruct (search ic r (Some x) s) as [[n z]|] eqn:S; [|discriminate].
      apply Occ_later. eapply IH. exact S.
Qed.

Lemma test_Occ re s :
  RegExp.test re s = true <-> Occ (ignoreCase re) (pattern re) None s.
Proof.
  unfold RegExp.test. split.
  - destruct (search (ignoreCase re) (pattern re) None s) eqn:E;
      [|discriminate].
    intros _. eapply search_Occ, E.
  - intros H. apply search_some in H.
    destruct (search (ignoreCase re) (pattern re) None s); [reflexivity|].
    now destruct H.
Qed.

Lemma test_clean re s :
  RegExp.test re s = false <-> ~ Occ (ignoreCase re) (pattern re) None s.
Proof.
  rewrite <- test_Occ. destruct (RegExp.test re s); split; congruence.
Qed.

(** *** The weight of a text: its code units outside a set *)

Definition light_unit (light : list N) (x : N) : bool :=
  existsb (N.eqb x) light.

Definition weight (light : list N) (s : list N) : nat :=
  length (List.filter (fun x => negb (light_unit light x)) s).

Lemma weight_app light a b :
  weight light (a ++ b) = (weight light a + weight light b)%nat.
Proof. unfold weight. now rewrite List.filter_app, List.length_app. Qed.

Lemma weight_heavy light b :
  Exists (fun x => ~ In x light) b -> (0 < weight light b)%nat.
Proof.
  induction 1 as [x b Hx|x b _ IH].
  - unfold weight. cbn [List.filter].
    replace (light_unit light x) with false; [cbn; lia|].
    symmetry. apply not_true_is_false. intros H. apply Hx.
    unfold light_unit in H. apply existsb_exists in H as (y & Hy & E).
    apply N.eqb_eq in E. now subst y.
  - change (x :: b) with ([x] ++ b). rewrite weight_app. lia.
Qed.

Section Lighter.
Variables (ic : bool) (r : regex) (by_ light : list N).
(** The replacement text is made of light code units and every match has
    a code unit that is not. *)
Hypothesis light_token : weight light by_ = 0%nat.
Hypothesis heavy_match : anchored (lacks ic light) r = true.

Lemma match_heavy p s p' s' :
  M ic r p s p' s' -> exists b, s = b ++ s' /\ (0 < weight light b)%nat.
Proof.
  intros H. destruct (M_split _ _ _ _ _ _ H) as (b & E & _).
  exists b. split; [exact E|]. apply weight_heavy.
  exact (anchored_Exists ic _ (fun x => ~ In x light) (lacks_not_in ic light)
           _ heavy_match _ _ _ _ H _ E).
Qed.

(** A pass either finds nothing and copies its input, or makes the text
    lighter. *)
Lemma Rewrites_lighter p s out :
  Rewrites ic r by_ p s out ->
  (out = s /\ ~ Occ ic r p s) \/ (weight light out < weight light s)%nat.
Proof.
  induction 1 as [p|p x s out Hn H IH|p s p' s' out Hm H IH].
  - left. split; [reflexivity|]. intros HO.
    inversion HO as [? ? p1 s1 H1|]; subst.
    destruct (match_heavy _ _ _ _ H1) as (b & E & Hb).
    destruct b; [cbn in Hb; lia|discriminate E].
  - destruct IH as [[-> Hc]|Hlt].
    + left. split; [reflexivity|]. intros HO.
      inversion HO as [? ? p1 s1 H1|? ? ? H1]; subst.
      * exact (Hn _ _ H1).
      * exact (Hc H1).
    + right. change (x :: out) with ([x] ++ out).
      change (x :: s) with ([x] ++ s). rewrite !weight_app. lia.
  - right. destruct (match_heavy _ _ _ _ Hm) as (b & -> & Hb).
    rewrite !weight_app, light_token.
    destruct IH as [[-> _]|Hlt]; lia.
Qed.

End Lighter.

Lemma anchored_consumes f r : anchored f r = true -> consumes r = true.
Proof.
  unfold consumes.
  induction r as [|c|a IHa b IHb|a IHa b IHb|g lo hi a IHa|];
    cbn [anchored]; intros H; try discriminate.
  - reflexivity.
  - apply orb_true_iff in H as [H|H]; apply orb_true_iff; auto.
  - apply andb_true_iff in H as [Ha Hb]. apply andb_true_iff. auto.
  - apply andb_true_iff in H as [H Ha]. apply andb_true_iff. auto.
Qed.

(** *** A sequence of passes *)

(** A rule is a pattern and its replacement text. *)
Definition rule : Type := RegExp.t * list N.

Definition apply_rule (s : list N) (ru : rule) : list N :=
  RegExp.replace (fst ru) (snd ru) s.

Definition fits (light : list N) (ru : rule) : bool :=
  Nat.eqb (weight light (snd ru)) 0 &&
  anchored (lacks (ignoreCase (fst ru)) light) (pattern (fst ru)).

Lemma apply_rule_lighter light ru s :
  fits light ru = true ->
  (apply_rule s ru = s /\ RegExp.test (fst ru) s = false) \/
  (weight light (apply_rule s ru) < weight light s)%nat.
Proof.
  unfold fits. intros H. apply andb_true_iff in H as [Ht Ha].
  apply Nat.eqb_eq in Ht.
  pose proof (anchored_consumes _ _ Ha) as Hc.
  destruct (Rewrites_lighter _ _ _ light Ht Ha _ _ _
              (replace_loop_Rewrites (ignoreCase (fst ru)) (pattern (fst ru))
                 (snd ru) Hc (S (length s)) None s (Nat.lt_succ_diag_r _)))
    as [[E Hn]|Hlt].
  - left. split; [exact E|]. now apply test_clean.
  - right. exact Hlt.
Qed.

Lemma rules_lighter light rules : forall s,
  forallb (fits light) rules = true ->
  (weight light (fold_left apply_rule rules s) <= weight light s)%nat.
Proof.
  induction rules as [|ru rules IH]; intros s H; [cbn [fold_left]; lia|].
  cbn [forallb] in H. apply andb_true_iff in H as [Hr Hrs].
  cbn [fold_left]. specialize (IH (apply_rule s ru) Hrs).
  destruct (apply_rule_lighter light ru s Hr) as [[E _]|Hlt].
  - rewrite E in *. exact IH.
  - lia.
Qed.

(** The passes leave a text as it is exactly when no pattern has a match
    in it. *)
Lemma rules_fixed light rules : forall s,
  forallb (fits light) rules = true ->
  fold_left apply_rule rules s = s <->
  Forall (fun ru => RegExp.test (fst ru) s = false) rules.
Proof.
  induction rules as [|ru rules IH]; intros s H.
  - cbn. split; [constructor|reflexivity].
  - cbn [forallb] in H. apply andb_true_iff in H as [Hr Hrs].
    cbn [fold_left]. split.
    + intros E.
      destruct (apply_rule_lighter light ru s Hr) as [[E1 Ht]|Hlt].
      * rewrite E1 in E. constructor; [exact Ht|]. now apply IH.
      * pose proof (rules_lighter light rules (apply_rule s ru) Hrs) as Hle.
        rewrite E in Hle. lia.
    + intros Hall. inversion Hall as [|? ? Ht Hts]; subst.
      assert (E1 : apply_rule s ru = s).
      { unfold apply_rule, RegExp.replace. apply replace_loop_fix.
        now apply test_clean. }
      rewrite E1. now apply IH.
Qed.

End RewriteFacts.

Module FixedPointSpec.
Import CharClass RegExp Redactor RegExpFacts RewriteFacts.

(** The code units of the placeholders of both redactors. *)
Definition placeholder_units : list N := js "[REDACTED_IPATHKYML]".

(** The rules of [redactSensitiveInfo]: every pattern with the one
    placeholder. *)
Definition rules : list rule :=
  List.map (fun re => (re, REDACTED)) REDACT_PATTERNS.



(** The rules of [redactSensitive], in the order they are applied. *)
Definition rules' : list rule :=
  [(IP', js "[REDACTED_IP]"); (PATH', js "[REDACTED_PATH]");
   (KEY', js "[REDACTED_KEY]"); (EMAIL', js "[REDACTED_EMAIL]");
   (TIME', js "[REDACTED_TIME]")].

Lemma redactSensitive_rules x :
  redactSensitive x = fold_left apply_rule rules' x.
Proof.
  unfold redactSensitive, rules'. cbn [fold_left]. unfold apply_rule.
  cbn [fst snd]. reflexivity.
Qed.

(** [redactSensitive] returns its argument unchanged exactly when none of
    its five patterns has a match in it. *)
Theorem redactSensitive_changes_what_matches (x : list N) :
  redactSensitive x = x <->
  Forall (fun re => RegExp.test re x = false) [IP'; PATH'; KEY'; EMAIL'; TIME'].
Proof.
  rewrite redactSensitive_rules.
  rewrite (rules_fixed placeholder_units) by (vm_compute; reflexivity).
  unfold rules'. split; intros H;
    repeat match goal with
           | H : Forall _ (_ :: _) |- _ =>
               let a := fresh in let b := fresh in
               inversion H as [|? ? a b]; subst; clear H
           end;
    repeat constructor; assumption.
Qed.

End FixedPointSpec.

(** ** The classifier and the case of letters *)

Module CaseFacts.
Import CharClass RegExp RegExpFacts RewriteFacts.

(** Two code units that differ at most by the case of an ASCII letter. *)
Definition alike (x y : N) : Prop := y = x \/ y = swapcase x.

Lemma swapcase_involutive x : swapcase (swapcase x) = x.
Proof.
  unfold swapcase.
  destruct ((65 <=? x) && (x <=? 90)) eqn:U.
  - apply andb_true_iff in U as [U1 U2]. apply N.leb_le in U1, U2.
    replace ((65 <=? x + 32) && (x + 32 <=? 90)) with false
      by (symmetry; apply andb_false_iff; right; apply N.leb_gt; lia).
    replace ((97 <=? x + 32) && (x + 32 <=? 122)) with true
      by (symmetry; apply andb_true_iff; split; apply N.leb_le; lia).
    lia.
  - destruct ((97 <=? x) && (x <=? 122)) eqn:L.
    + apply andb_true_iff in L as [L1 L2]. apply N.leb_le in L1, L2.
      replace ((65 <=? x - 32) && (x - 32 <=? 90)) with true
        by (symmetry; apply andb_true_iff; split; apply N.leb_le; lia).
      lia.
    + now rewrite U, L.
Qed.

Lemma alike_sym x y : alike x y -> alike y x.
Proof.
  intros [->| ->]; [now left|]. right. now rewrite swapcase_involutive.
Qed.

Lemma matches_alike c x y :
  alike x y -> matches true c y = matches true c x.
Proof.
  unfold matches. intros [->| ->]; [reflexivity|].
  rewrite swapcase_involutive. cbn [andb]. apply orb_comm.
Qed.

Lemma alike_same_length s t :
  Forall2 alike s t -> length s = length t.
Proof. induction 1; cbn; congruence. Qed.

Lemma alike_refl s : Forall2 alike s s.
Proof. induction s; constructor; auto. now left. Qed.

Lemma alike_symmetric s t : Forall2 alike s t -> Forall2 alike t s.
Proof. induction 1; constructor; auto using alike_sym. Qed.

Lemma alike_swapcase s : Forall2 alike s (List.map swapcase s).
Proof. induction s; constructor; auto. now right. Qed.

(** A match of a pattern with the [i] flag and without [\b] is a match on
    every text that differs by the case of letters only. *)
Lemma M_alike r : nob r = true ->
  forall p s p' s', M true r p s p' s' ->
  forall q t, Forall2 alike s t ->
  exists q' t', M true r q t q' t' /\ Forall2 alike s' t'.
Proof.
  induction r as [|c|a IHa b IHb|a IHa b IHb|g lo hi a IHa|];
    intros Hr p s p' s' H q t Hst; cbn [nob] in Hr; try discriminate;
    cbn [M] in H |- *.
  - destruct H as [-> ->]. eauto.
  - destruct H as (x & -> & Hx & ->).
    inversion Hst as [|? y ? t' Hxy Ht]; subst.
    exists (Some y), t'. split; [|exact Ht].
    exists y. rewrite (matches_alike c x y Hxy). auto.
  - apply andb_true_iff in Hr as [Ha Hb].
    destruct H as (p1 & s1 & H1 & H2).
    destruct (IHa Ha _ _ _ _ H1 q t Hst) as (q1 & t1 & G1 & Hst1).
    destruct (IHb Hb _ _ _ _ H2 q1 t1 Hst1) as (q2 & t2 & G2 & Hst2).
    eauto 10.
  - apply andb_true_iff in Hr as [Ha Hb].
    destruct H as [H|H].
    + destruct (IHa Ha _ _ _ _ H q t Hst) as (q1 & t1 & G1 & Hst1). eauto.
    + destruct (IHb Hb _ _ _ _ H q t Hst) as (q1 & t1 & G1 & Hst1). eauto.
  - revert q t Hst.
    induction H as [lo p s|hi p s|lo hi p s p1 s1 p2 s2 Hhi H1 Hne H2 IH];
      intros q t Hst.
    + exists q, t. split; [apply Iter_max|exact Hst].
    + exists q, t. split; [apply Iter_stop|exact Hst].
    + destruct (IHa Hr _ _ _ _ H1 q t Hst) as (q1 & t1 & G1 & Hst1).
      destruct (IH q1 t1 Hst1) as (q2 & t2 & G2 & Hst2).
      exists q2, t2. split; [|exact Hst2].
      eapply Iter_step; eauto.
      intros Hlo. specialize (Hne Hlo).
      rewrite <- (alike_same_length _ _ Hst), <- (alike_same_length _ _ Hst1).
      exact Hne.
Qed.

Lemma Occ_alike r : nob r = true ->
  forall p s, Occ true r p s ->
  forall q t, Forall2 alike s t -> Occ true r q t.
Proof.
  intros Hr p s H. induction H as [p s p' s' H|p x s H IH]; intros q t Hst.
  - destruct (M_alike r Hr _ _ _ _ H q t Hst) as (q' & t' & G & _).
    eapply Occ_here, G.
  - inversion Hst as [|? y ? t' Hxy Ht]; subst.
    apply Occ_later. now apply IH.
Qed.

Lemma test_alike re s t :
  ignoreCase re = true -> nob (pattern re) = true ->
  Forall2 alike s t -> RegExp.test re s = RegExp.test re t.
Proof.
  intros Hi Hr Hst.
  assert (G : forall s t, Forall2 alike s t ->
                RegExp.test re s = true -> RegExp.test re t = true).
  { intros s0 t0 H0 H. apply test_Occ. apply test_Occ in H.
    rewrite Hi in *. eapply Occ_alike; eauto. }
  destruct (RegExp.test re s) eqn:Es.
  - symmetry. eapply G; eauto.
  - destruct (RegExp.test re t) eqn:Et; [|reflexivity].
    rewrite (G t s (alike_symmetric _ _ Hst) Et) in Es. discriminate.
Qed.

(** A literal matches itself. *)
Lemma one_matches_itself ic x : matches ic (one x) x = true.
Proof.
  unfold matches, mem, one, in_ranges. cbn. now rewrite N.leb_refl.
Qed.

Lemma M_lit ic x w p b :
  M ic (seqs (List.map (fun y => Chr (one y)) (x :: w))) p ((x :: w) ++ b)
    (after p (x :: w)) b.
Proof.
  revert x p. induction w as [|y w IH]; intros x p.
  - cbn. exists x. auto using one_matches_itself.
  - change (seqs (List.map (fun y => Chr (one y)) (x :: y :: w)))
      with (Seq (Chr (one x))
              (seqs (List.map (fun y => Chr (one y)) (y :: w)))).
    cbn [M]. exists (Some x), ((y :: w) ++ b). split.
    + exists x. auto using one_matches_itself.
    + apply IH.
Qed.

End CaseFacts.

Module ClassifierSpec.
Import CharClass RegExp Value AiService AiServiceFacts.
Import RegExpFacts RewriteFacts CaseFacts.

Lemma patterns_ignore_case :
  forallb (fun p => ignoreCase (match_ p) && nob (pattern (match_ p)))
    (MkPattern [] error_keyword (fun a => a) :: patterns) = true.
Proof. vm_compute. reflexivity. Qed.

(** The classifier does not look at the case of ASCII letters: two texts
    that differ by the case of letters only are given the same record. *)
Theorem classification_ignores_case (s t : list N) :
  Forall2 alike s t -> classify s = classify t.
Proof.
  intros Hst. pose proof patterns_ignore_case as H.
  cbn [forallb] in H. apply andb_true_iff in H as [He Hp].
  cbn [match_] in He. apply andb_true_iff in He as [He1 He2].
  unfold classify.
  rewrite (test_alike error_keyword s t He1 He2 Hst).
  replace (List.find (fun p => RegExp.test (match_ p) s) patterns)
    with (List.find (fun p => RegExp.test (match_ p) t) patterns);
    [reflexivity|].
  revert Hp. generalize patterns. intros l Hl.
  induction l as [|p l IH]; [reflexivity|].
  cbn [forallb] in Hl. apply andb_true_iff in Hl as [Hp Hl].
  apply andb_true_iff in Hp as [Hp1 Hp2].
  cbn [List.find]. rewrite (test_alike (match_ p) s t Hp1 Hp2 Hst).
  destruct (RegExp.test (match_ p) t); [reflexivity|]. now apply IH.
Qed.

Lemma classification_ignores_case_witness :
  classify (js "CONNECTION TIMED OUT") = classify (js "connection timed out").
Proof.
  apply classification_ignores_case.
  change (js "connection timed out")
    with (List.map swapcase (js "CONNECTION TIMED OUT")).
  apply alike_swapcase.
Defined.

(** A record that raises an alarm. *)
Definition alarming (a : Analysis) : bool :=
  negb (bool_decide (issueType a = js "No critical issues detected")) &&
  negb (bool_decide (severity a = js "Low")) &&
  (60 <=? confidence a)%Z.

(** A log that mentions [error] or [fail], in any case of letters and
    anywhere, is never reported as healthy: its record is not the one of a
    log without findings, its severity is not [Low] and its confidence is
    at least 60. *)
Theorem error_mentions_raise_an_alarm (a k b : list N) :
  Forall2 alike (js "error") k \/ Forall2 alike (js "fail") k ->
  let record := classify (a ++ k ++ b) in
  issueType record <> js "No critical issues detected" /\
  severity record <> js "Low" /\
  (60 <= confidence record)%Z.
Proof.
  intros Hk record.
  assert (Ht : RegExp.test error_keyword (a ++ k ++ b) = true).
  { apply test_Occ. apply Occ_app.
    assert (G : exists w, Forall2 alike (w ++ b) (k ++ b) /\
                exists p' , M true (pattern error_keyword)
                              (after None a) (w ++ b) p' b).
    { destruct Hk as [Hk|Hk].
      - exists (js "error"). split.
        + apply Forall2_app; [exact Hk|apply alike_refl].
        + eexists. left. apply (M_lit true 101 (js "rror")).
      - exists (js "fail"). split.
        + apply Forall2_app; [exact Hk|apply alike_refl].
        + eexists. right. cbn [M].
          eexists _, _. split; [apply (M_lit true 102 (js "ail"))|].
          apply Iter_stop. }
    destruct G as (w & Hw & p' & HM).
    destruct (M_alike (pattern error_keyword) eq_refl _ _ _ _ HM
                (after None a) (k ++ b) Hw)
      as (q' & t' & G & _).
    eapply Occ_here, G. }
  assert (Hal : alarming record = true).
  { subst record. unfold classify. rewrite Ht.
    destruct (List.find _ patterns) as [p|] eqn:E; [|reflexivity].
    apply List.find_some in E as [Hin _].
    assert (Hall : forallb (fun p => alarming (update p initial)) patterns
                   = true) by (vm_compute; reflexivity).
    rewrite List.forallb_forall in Hall. now apply Hall. }
  unfold alarming in Hal.
  apply andb_true_iff in Hal as [Hal H3].
  apply andb_true_iff in Hal as [H1 H2].
  apply negb_true_iff, bool_decide_eq_false in H1, H2.
  apply Z.leb_le in H3. auto.
Qed.

Lemma error_mentions_raise_an_alarm_witness :
  issueType (classify (js "job 7: " ++ js "FAIL" ++ js "URE in step 3"))
  <> js "No critical issues detected".
Proof.
  apply (error_mentions_raise_an_alarm (js "job 7: ") (js "FAIL")
           (js "URE in step 3")).
  right. change (js "FAIL") with (List.map swapcase (js "fail")).
  apply alike_swapcase.
Defined.

End ClassifierSpec.

(** ** The fingerprint and the size check *)

Module DigestFacts.
Import Sha256.













End DigestFacts.

Module Utf8Facts.
Import Utf8.

(** A code unit gives one to three bytes, and a surrogate pair gives
    four. *)
Lemma encode_length_fuel n : forall s,
  (length s <= n)%nat ->
  (length s <= length (encode s) <= 3 * length s)%nat.
Proof.
  induction n as [|n IH]; intros s Hn.
  - destruct s; [cbn; lia|cbn in Hn; lia].
  - destruct s as [|x s]; [cbn; lia|].
    cbn [length] in Hn.
    assert (H1 := IH s ltac:(lia)).
    cbn [encode]. unfold replacement.
    destruct (x <? 128); [cbn [length]; lia|].
    destruct (x <? 2048); [cbn [length]; lia|].
    destruct (is_high x).
    + destruct s as [|y s]; [cbn [length]; lia|].
      destruct (is_low y).
      * cbn [length] in *. assert (H2 := IH s ltac:(lia)). lia.
      * cbn [length app] in *. lia.
    + destruct (is_low x); cbn [length app]; lia.
Qed.

Lemma byteLength_bounds s :
  N.of_nat (length s) <= byteLength s <= 3 * N.of_nat (length s).
Proof.
  unfold byteLength.
  pose proof (encode_length_fuel (length s) s (Nat.le_refl _)). lia.
Qed.

End Utf8Facts.

Module StoreSpec.
Import Json JsString Effects GeminiService GeminiFacts ServiceFacts.
Import DigestFacts Utf8Facts.


(** The size check counts bytes, and a code unit gives one to three of
    them: a text that is not blank is always refused when it has more than
    5242880 code units, and never refused for its size when it has at most
    a third of that. *)
Theorem size_check_by_length
        (env : Env) (w : World) (s : list N) (force : bool) :
  forallb CharClass.is_space s = false ->
  (5242880 < N.of_nat (length s) ->
   analyzeWithAI env (Value.Str s) force w
   = (Ok (rejection env (js "Log exceeds maximum size of 5MB") 0), w)) /\
  (3 * N.of_nat (length s) <= 5242880 ->
   exists rest,
     events (snd (analyzeWithAI env (Value.Str s) force w))
     = events w ++ Redacted :: Fingerprinted :: rest).
Proof.
  intros Hb. pose proof (byteLength_bounds s) as [Hlo Hhi]. split.
  - intros Hlen. apply analyzeWithAI_problem. unfold problem. rewrite Hb.
    replace (MAX_LOG_SIZE CONFIG <? Utf8.byteLength s) with true;
      [reflexivity|].
    symmetry. apply N.ltb_lt. change (MAX_LOG_SIZE CONFIG) with 5242880. lia.
  - intros Hlen. apply analyzeWithAI_starts. split; [exact Hb|].
    change (MAX_LOG_SIZE CONFIG) with 5242880. lia.
Qed.

Lemma size_check_by_length_witness :
  exists rest,
    events (snd (analyzeWithAI silent (Value.Str (js "db down")) false
                   empty_world))
    = events empty_world ++ Redacted :: Fingerprinted :: rest.
Proof.
  apply (proj2 (size_check_by_length silent empty_world (js "db down") false
                  eq_refl)).
  vm_compute. discriminate.
Defined.

End StoreSpec.
